(** * ibox: a private message channel between a host page and an embedded frame

    The library comes in two variants.  The current one (with
    [validateEvent], [createInterface], the bounded pending-call table and
    the destroyed flag) is embedded in the modules [IBox], [Host] and
    [Client], and the properties of its dispatcher, of its interface
    operations and of its two handshakes are stated and proved for it.  The
    older one is embedded in [Legacy] and compared with it at the end.

    JavaScript values are a small inductive type.  An interface is a record
    of the closure variables of [createInterface] ([handlers],
    [pendingCalls], [callId], [isDestroyed]) together with the parts of the
    environment the code acts on: the port, the timers, the console, the
    promises handed to callers.  Every operation, and every callback that
    the environment may run (the listener of the port, the timer of a call,
    the continuation of an [await]), is a function on that record.  The
    callbacks registered with [on] are application code: one of them is
    known by what it returns or throws and by the operations of the
    interface it calls while it runs. *)

From stdpp Require Import gmap strings list fin_maps pretty sorting.
From Stdlib Require Import ZArith Lia.

Set Warnings "-register-all".
Open Scope Z_scope.

(** ** JavaScript values *)

Module JS.

(** Numbers are integers here: the code only creates and compares call ids
    and forwards timeouts.  A string is held in UTF-8.  A function is a
    reference ([VFun f] and [VFun g] are the same callback exactly when
    [f = g]); an [Error] instance is known by its message. *)
Inductive value : Type :=
| VUndefined
| VNull
| VBool (b : bool)
| VNum (n : Z)
| VStr (s : string)
| VFun (f : nat)
| VError (message : string)
| VObj (fields : list (string * value)).

(** What a call or a statement yields: a value, or a thrown value. *)
Inductive completion (A : Type) : Type :=
| Normal (a : A)
| Abrupt (e : value).
Arguments Normal {A} a.
Arguments Abrupt {A} e.

(** How a promise ends. *)
Inductive settlement : Type :=
| Fulfilled (v : value)
| Rejected (e : value).

(** [if (v)], [!v], [v && ...] *)
Definition truthy (v : value) : bool :=
  match v with
  | VUndefined | VNull => false
  | VBool b => b
  | VNum n => negb (n =? 0)
  | VStr s => negb (String.eqb s "")
  | VFun _ | VError _ | VObj _ => true
  end.

Fixpoint lookup_field (k : string) (fs : list (string * value)) : value :=
  match fs with
  | [] => VUndefined
  | (k', v) :: fs' => if String.eqb k k' then v else lookup_field k fs'
  end.

(** [v.k] for a [v] that is neither [undefined] nor [null] (destructuring
    and property reads on primitives give [undefined]). *)
Definition get (v : value) (k : string) : value :=
  match v with
  | VObj fs => lookup_field k fs
  | VError m => if String.eqb k "message" then VStr m else VUndefined
  | _ => VUndefined
  end.

Definition TypeError : value := VError "TypeError: cannot read properties".

(** [v.k] in general: reading a property of [undefined] or [null] throws. *)
Definition read (v : value) (k : string) : completion value :=
  match v with
  | VUndefined | VNull => Abrupt TypeError
  | _ => Normal (get v k)
  end.

(** The structured clone that [postMessage] performs refuses functions. *)
Fixpoint cloneable (v : value) : bool :=
  match v with
  | VFun _ => false
  | VObj fs =>
      (fix all (l : list (string * value)) : bool :=
         match l with
         | [] => true
         | (_, x) :: l' => cloneable x && all l'
         end) fs
  | _ => true
  end.

Definition DataCloneError : value := VError "DataCloneError: could not be cloned".

(** [String(v)], as template literals and [new Error(v)] apply it.  The
    source text of a function is not part of the model. *)
Definition ToString (v : value) : string :=
  match v with
  | VUndefined => "undefined"
  | VNull => "null"
  | VBool true => "true"
  | VBool false => "false"
  | VNum n => pretty n
  | VStr s => s
  | VFun _ => "function"
  | VError m => if String.eqb m "" then "Error" else "Error: " +:+ m
  | VObj _ => "[object Object]"
  end.

(** [new Error(m)] *)
Definition new_Error (m : value) : value :=
  match m with
  | VUndefined => VError ""
  | _ => VError (ToString m)
  end.

(** [typeof v === 'string'], [typeof v === 'function'] *)
Definition is_string (v : value) : bool :=
  match v with VStr _ => true | _ => false end.
Definition is_function (v : value) : bool :=
  match v with VFun _ => true | _ => false end.

(** Strings hold the UTF-8 encoding of the JavaScript string, so a
    character is one to four bytes.  [String.prototype.trim] strips white
    space and line terminators from both ends.  These are U+0009 to U+000D
    and U+0020, of one byte each; U+00A0, which is C2 A0; and, of three
    bytes each, U+1680 (E1 9A 80), U+2000 to U+200A (E2 80 80 to E2 80 8A),
    U+2028 and U+2029 (E2 80 A8, E2 80 A9), U+202F (E2 80 AF), U+205F
    (E2 81 9F), U+3000 (E3 80 80) and U+FEFF (EF BB BF). *)
Definition is_space (c : Ascii.ascii) : bool :=
  let n := Ascii.nat_of_ascii c in
  ((9 <=? n) && (n <=? 13) || (n =? 32))%nat.

Definition is_space2 (c1 c2 : Ascii.ascii) : bool :=
  ((Ascii.nat_of_ascii c1 =? 194) && (Ascii.nat_of_ascii c2 =? 160))%nat.

Definition is_space3 (c1 c2 c3 : Ascii.ascii) : bool :=
  let a := Ascii.nat_of_ascii c1 in
  let b := Ascii.nat_of_ascii c2 in
  let c := Ascii.nat_of_ascii c3 in
  ((a =? 225) && (b =? 154) && (c =? 128)
   || (a =? 226) && (b =? 128)
      && ((128 <=? c) && (c <=? 138) || (c =? 168) || (c =? 169) || (c =? 175))
   || (a =? 226) && (b =? 129) && (c =? 159)
   || (a =? 227) && (b =? 128) && (c =? 128)
   || (a =? 239) && (b =? 187) && (c =? 191))%nat.

Fixpoint trim_start (s : string) : string :=
  match s with
  | EmptyString => EmptyString
  | String c1 s1 =>
      if is_space c1 then trim_start s1
      else
        match s1 with
        | EmptyString => s
        | String c2 s2 =>
            if is_space2 c1 c2 then trim_start s2
            else
              match s2 with
              | EmptyString => s
              | String c3 s3 => if is_space3 c1 c2 c3 then trim_start s3 else s
              end
        end
  end.

(** The same from the other end, on the string read backwards: the last
    byte of a character comes first. *)
Fixpoint trim_start_rev (r : string) : string :=
  match r with
  | EmptyString => EmptyString
  | String c1 r1 =>
      if is_space c1 then trim_start_rev r1
      else
        match r1 with
        | EmptyString => r
        | String c2 r2 =>
            if is_space2 c2 c1 then trim_start_rev r2
            else
              match r2 with
              | EmptyString => r
              | String c3 r3 => if is_space3 c3 c2 c1 then trim_start_rev r3 else r
              end
        end
  end.

Definition trim_end (s : string) : string :=
  String.rev (trim_start_rev (String.rev s)).

Definition trim (s : string) : string := trim_end (trim_start s).

End JS.

(** ** The interface built by [createInterface] *)

Module IBox.
Import JS.

Definition MSG_READY : string := "IBOX_READY".
Definition MSG_PORT : string := "IBOX_PORT".
Definition DEFAULT_TIMEOUT : Z := 10000.
Definition MAX_PENDING_CALLS : nat := 1000.

Definition validateEvent (event : value) : completion string :=
  match event with
  | VStr s =>
      if truthy (VStr (trim s)) then Normal (trim s)
      else Abrupt (VError "ibox: Event name must be a non-empty string")
  | _ => Abrupt (VError "ibox: Event name must be a non-empty string")
  end.

(** What an application callback does when the dispatcher invokes it: it
    returns a plain value, throws, or returns a promise that is later
    fulfilled or rejected.  What it calls on the interface while it runs is
    described apart, by a [reentry] below. *)
Inductive outcome : Type :=
| Returns (v : value)
| Throws (e : value)
| Fulfils (v : value)
| Rejects (e : value).

(** The callbacks are application code: [beh f payload] is what callback
    [f] does on [payload] at the delivery at hand. *)
Definition behaviour : Type := nat -> value -> outcome.

(** Which statement settled a call's promise. *)
Inductive cause : Type :=
| ByResponse
| ByTimeout
| ByDestroy
| BySendFailure.

(** The closure of the [setTimeout] callback of a call. *)
Record timer : Type := { t_call : Z; t_event : value; t_delay : Z }.

(** A value of [pendingCalls]: the pair of closures [{resolve, reject}],
    known by the promise they settle and the timer they clear. *)
Record waiter : Type := { w_promise : Z; w_timer : Z }.

(** The closure variables of [createInterface] followed by what the code
    acts on: the port (closed or not, and what was posted on it, oldest
    first), the armed timers (by the call that set them), every invocation
    of a call promise's [resolve] or [reject], the lines written with
    [console.error], the callback invocations, and the listener runs
    suspended at [await] with the value they wait for. *)
Record iface : Type := {
  handlers : gmap string (list nat);
  pendingCalls : gmap Z waiter;
  callId : Z;
  isDestroyed : bool;
  port_closed : bool;
  outbox : list value;
  timers : gmap Z timer;
  settled : list (Z * cause * settlement);
  console : list (string * value);
  invoked : list (nat * value);
  awaiting : list (value * settlement)
}.

Definition set_handlers (x : gmap string (list nat)) (st : iface) : iface :=
  {| handlers := x; pendingCalls := pendingCalls st; callId := callId st;
     isDestroyed := isDestroyed st; port_closed := port_closed st;
     outbox := outbox st; timers := timers st; settled := settled st;
     console := console st; invoked := invoked st; awaiting := awaiting st |}.
Definition set_pendingCalls (x : gmap Z waiter) (st : iface) : iface :=
  {| handlers := handlers st; pendingCalls := x; callId := callId st;
     isDestroyed := isDestroyed st; port_closed := port_closed st;
     outbox := outbox st; timers := timers st; settled := settled st;
     console := console st; invoked := invoked st; awaiting := awaiting st |}.
Definition set_callId (x : Z) (st : iface) : iface :=
  {| handlers := handlers st; pendingCalls := pendingCalls st; callId := x;
     isDestroyed := isDestroyed st; port_closed := port_closed st;
     outbox := outbox st; timers := timers st; settled := settled st;
     console := console st; invoked := invoked st; awaiting := awaiting st |}.
Definition set_isDestroyed (x : bool) (st : iface) : iface :=
  {| handlers := handlers st; pendingCalls := pendingCalls st; callId := callId st;
     isDestroyed := x; port_closed := port_closed st;
     outbox := outbox st; timers := timers st; settled := settled st;
     console := console st; invoked := invoked st; awaiting := awaiting st |}.
Definition set_port_closed (x : bool) (st : iface) : iface :=
  {| handlers := handlers st; pendingCalls := pendingCalls st; callId := callId st;
     isDestroyed := isDestroyed st; port_closed := x;
     outbox := outbox st; timers := timers st; settled := settled st;
     console := console st; invoked := invoked st; awaiting := awaiting st |}.
Definition set_outbox (x : list value) (st : iface) : iface :=
  {| handlers := handlers st; pendingCalls := pendingCalls st; callId := callId st;
     isDestroyed := isDestroyed st; port_closed := port_closed st;
     outbox := x; timers := timers st; settled := settled st;
     console := console st; invoked := invoked st; awaiting := awaiting st |}.
Definition set_timers (x : gmap Z timer) (st : iface) : iface :=
  {| handlers := handlers st; pendingCalls := pendingCalls st; callId := callId st;
     isDestroyed := isDestroyed st; port_closed := port_closed st;
     outbox := outbox st; timers := x; settled := settled st;
     console := console st; invoked := invoked st; awaiting := awaiting st |}.
Definition set_settled (x : list (Z * cause * settlement)) (st : iface) : iface :=
  {| handlers := handlers st; pendingCalls := pendingCalls st; callId := callId st;
     isDestroyed := isDestroyed st; port_closed := port_closed st;
     outbox := outbox st; timers := timers st; settled := x;
     console := console st; invoked := invoked st; awaiting := awaiting st |}.
Definition set_console (x : list (string * value)) (st : iface) : iface :=
  {| handlers := handlers st; pendingCalls := pendingCalls st; callId := callId st;
     isDestroyed := isDestroyed st; port_closed := port_closed st;
     outbox := outbox st; timers := timers st; settled := settled st;
     console := x; invoked := invoked st; awaiting := awaiting st |}.
Definition set_invoked (x : list (nat * value)) (st : iface) : iface :=
  {| handlers := handlers st; pendingCalls := pendingCalls st; callId := callId st;
     isDestroyed := isDestroyed st; port_closed := port_closed st;
     outbox := outbox st; timers := timers st; settled := settled st;
     console := console st; invoked := x; awaiting := awaiting st |}.
Definition set_awaiting (x : list (value * settlement)) (st : iface) : iface :=
  {| handlers := handlers st; pendingCalls := pendingCalls st; callId := callId st;
     isDestroyed := isDestroyed st; port_closed := port_closed st;
     outbox := outbox st; timers := timers st; settled := settled st;
     console := console st; invoked := invoked st; awaiting := x |}.

(** [createInterface(port, initialHandlers = new Map())] right after its
    body has run: a started port, empty tables, [callId = 0]. *)
Definition createInterface (initialHandlers : option (gmap string (list nat))) : iface :=
  {| handlers := default ∅ initialHandlers; pendingCalls := ∅; callId := 0;
     isDestroyed := false; port_closed := false; outbox := []; timers := ∅;
     settled := []; console := []; invoked := []; awaiting := [] |}.

(** [port.postMessage(msg)]: the message is cloned first, which throws on a
    function; a closed port drops what it is given. *)
Definition postMessage (msg : value) (st : iface) : completion iface :=
  if cloneable msg then
    Normal (if port_closed st then st else set_outbox (outbox st ++ [msg]) st)
  else Abrupt DataCloneError.

Definition clearTimeout (t : Z) (st : iface) : iface :=
  set_timers (delete t (timers st)) st.

(** The [resolve] or [reject] function of the promise of call [p] is
    invoked. *)
Definition settle (p : Z) (c : cause) (s : settlement) (st : iface) : iface :=
  set_settled (settled st ++ [(p, c, s)]) st.

(** The two closures stored in [pendingCalls]:
    [(res) => { clearTimeout(timer); resolve(res); }] and
    [(err) => { clearTimeout(timer); reject(err); }]. *)
Definition waiter_resolve (w : waiter) (c : cause) (res : value) (st : iface) : iface :=
  settle (w_promise w) c (Fulfilled res) (clearTimeout (w_timer w) st).
Definition waiter_reject (w : waiter) (c : cause) (err : value) (st : iface) : iface :=
  settle (w_promise w) c (Rejected err) (clearTimeout (w_timer w) st).

(** [Map.prototype.has] and [get] with an arbitrary value as key: the keys
    of [pendingCalls] are numbers, the keys of [handlers] are strings. *)
Definition pending_get (k : value) (st : iface) : option (Z * waiter) :=
  match k with
  | VNum n => (fun w => (n, w)) <$> pendingCalls st !! n
  | _ => None
  end.
Definition handlers_get (k : value) (st : iface) : option (list nat) :=
  match k with
  | VStr s => handlers st !! s
  | _ => None
  end.

(** *** The listener [port.onmessage] *)

(** The [catch] block of the call mode:
    [port.postMessage({ _ibox_res_id: _ibox_id, _ibox_error: err.message })].
    An exception raised here leaves the listener and nothing is posted. *)
Definition respond_error (id err : value) (st : iface) : iface :=
  match read err "message" with
  | Abrupt _ => st
  | Normal m =>
      match postMessage (VObj [("_ibox_res_id", id); ("_ibox_error", m)]) st with
      | Normal st' => st'
      | Abrupt _ => st
      end
  end.

(** What follows [await firstHandler(data)] once the awaited value is
    there: the rest of the [try] block, or the [catch] block. *)
Definition respond (id : value) (s : settlement) (st : iface) : iface :=
  match s with
  | Fulfilled result =>
      match postMessage (VObj [("_ibox_res_id", id); ("data", result)]) st with
      | Normal st' => st'
      | Abrupt err => respond_error id err st
      end
  | Rejected err => respond_error id err st
  end.

(** One turn of the loop of the emit mode:
    [try { cb(data); } catch (err) { console.error(..., err); }] *)
Definition notify (beh : behaviour) (event data : value) (st : iface) (cb : nat) : iface :=
  let st1 := set_invoked (invoked st ++ [(cb, data)]) st in
  match beh cb data with
  | Throws err =>
      set_console
        (console st1 ++ [("ibox: Handler error [" +:+ ToString event +:+ "]:", err)]) st1
  | _ => st1
  end.

(** The call mode up to its [await]: the first callback of the set is
    invoked; a synchronous throw goes to the [catch] block at once, any
    other result suspends the listener. *)
Definition serve (beh : behaviour) (id data : value) (callbacks : list nat)
    (st : iface) : iface :=
  match callbacks with
  | [] => st
  | firstHandler :: _ =>
      let st1 := set_invoked (invoked st ++ [(firstHandler, data)]) st in
      match beh firstHandler data with
      | Throws err => respond_error id err st1
      | Returns v | Fulfils v => set_awaiting (awaiting st1 ++ [(id, Fulfilled v)]) st1
      | Rejects err => set_awaiting (awaiting st1 ++ [(id, Rejected err)]) st1
      end
  end.

(** [port.onmessage = async (e) => ...], applied to [e.data]. *)
Definition onmessage (beh : behaviour) (e_data : value) (st : iface) : iface :=
  if isDestroyed st || negb (truthy e_data) then st
  else
    let event := get e_data "event" in
    let data := get e_data "data" in
    let _ibox_id := get e_data "_ibox_id" in
    let _ibox_res_id := get e_data "_ibox_res_id" in
    let _ibox_error := get e_data "_ibox_error" in
    match (if truthy _ibox_res_id then pending_get _ibox_res_id st else None) with
    | Some (k, w) =>
        let st1 := set_pendingCalls (delete k (pendingCalls st)) st in
        if truthy _ibox_error
        then waiter_reject w ByResponse (new_Error _ibox_error) st1
        else waiter_resolve w ByResponse data st1
    | None =>
        match (if truthy event then handlers_get event st else None) with
        | Some callbacks =>
            if truthy _ibox_id
            then serve beh _ibox_id data callbacks st
            else foldl (notify beh event data) st callbacks
        | None => st
        end
    end.

(** The listener run suspended at position [k] gets its awaited value and
    runs to its end. *)
Definition resume (k : nat) (st : iface) : iface :=
  match awaiting st !! k with
  | Some (id, s) => respond id s (set_awaiting (delete k (awaiting st)) st)
  | None => st
  end.

(** The callback of the timer of a call runs (an armed timer only):
    [if (pendingCalls.delete(id)) reject(new Error(...))]. *)
Definition timeout_message (event : value) (timeout : Z) : string :=
  "ibox: Timeout [" +:+ ToString event +:+ "] after " +:+ pretty timeout +:+ "ms".

Definition fire (t : Z) (st : iface) : iface :=
  match timers st !! t with
  | Some tm =>
      let st1 := set_timers (delete t (timers st)) st in
      match pendingCalls st1 !! t_call tm with
      | Some _ =>
          settle (t_call tm) ByTimeout
            (Rejected (VError (timeout_message (t_event tm) (t_delay tm))))
            (set_pendingCalls (delete (t_call tm) (pendingCalls st1)) st1)
      | None => st1
      end
  | None => st
  end.

(** *** The operations of [api] *)

Definition emit (event data : value) (st : iface) : completion unit * iface :=
  if isDestroyed st then (Abrupt (VError "ibox: Instance destroyed"), st)
  else
    match validateEvent event with
    | Abrupt e => (Abrupt e, st)
    | Normal _ =>
        match postMessage (VObj [("event", event); ("data", data)]) st with
        | Normal st' => (Normal (), st')
        | Abrupt e => (Abrupt e, st)
        end
    end.

(** What [call] gives its caller: an exception, a promise that is already
    rejected, or the promise of the call with the given id. *)
Inductive call_result : Type :=
| CallThrows (e : value)
| CallRejected (e : value)
| CallPromise (id : Z).

Definition call (event data : value) (timeout : option Z) (st : iface)
    : call_result * iface :=
  let timeout := default DEFAULT_TIMEOUT timeout in
  if isDestroyed st then (CallRejected (VError "ibox: Instance destroyed"), st)
  else if bool_decide (MAX_PENDING_CALLS ≤ size (pendingCalls st))%nat
  then (CallRejected (VError "ibox: Busy"), st)
  else
    match validateEvent event with
    | Abrupt e => (CallThrows e, st)
    | Normal _ =>
        let id := callId st + 1 in
        let st1 := set_callId id st in
        let st2 :=
          set_timers
            (<[id := {| t_call := id; t_event := event; t_delay := timeout |}]> (timers st1))
            st1 in
        let st3 :=
          set_pendingCalls
            (<[id := {| w_promise := id; w_timer := id |}]> (pendingCalls st2)) st2 in
        match postMessage (VObj [("event", event); ("data", data); ("_ibox_id", VNum id)]) st3 with
        | Normal st4 => (CallPromise id, st4)
        | Abrupt _ =>
            let st4 := set_pendingCalls (delete id (pendingCalls st3)) st3 in
            let st5 := clearTimeout id st4 in
            (CallPromise id, settle id BySendFailure (Rejected (VError "ibox: Send failed")) st5)
        end
    end.

(** A [Set] of callbacks in insertion order. *)
Definition set_add (cb : nat) (s : list nat) : list nat :=
  if bool_decide (cb ∈ s) then s else s ++ [cb].
Definition set_delete (cb : nat) (s : list nat) : list nat :=
  filter (fun x => x ≠ cb) s.

(** The function that [on] returns: [() => api.off(event, cb)]. *)
Record unsub : Type := { u_event : value; u_cb : value }.

Definition on (event cb : value) (st : iface) : completion unsub * iface :=
  match validateEvent event with
  | Abrupt e => (Abrupt e, st)
  | Normal _ =>
      match event, cb with
      | VStr ev, VFun f =>
          let s := default [] (handlers st !! ev) in
          (Normal {| u_event := event; u_cb := cb |},
           set_handlers (<[ev := set_add f s]> (handlers st)) st)
      | _, _ => (Abrupt (VError "ibox: Handler must be a function"), st)
      end
  end.

Definition off (event cb : value) (st : iface) : completion unit * iface :=
  match event with
  | VStr ev =>
      match handlers st !! ev with
      | Some s =>
          let s' := match cb with VFun f => set_delete f s | _ => s end in
          (Normal (),
           if bool_decide (length s' = 0%nat)
           then set_handlers (delete ev (handlers st)) st
           else set_handlers (<[ev := s']> (handlers st)) st)
      | None => (Normal (), st)
      end
  | _ => (Normal (), st)
  end.

Definition unsubscribe (u : unsub) (st : iface) : completion unit * iface :=
  off (u_event u) (u_cb u) st.

(** [Map.prototype.forEach] visits the entries in insertion order.  The
    keys of [pendingCalls] are the ids issued by [++callId], each inserted
    when it is issued, so this is the order of the keys. *)
Definition by_key (p q : Z * waiter) : Prop := p.1 <= q.1.

#[global] Instance by_key_dec : RelDecision by_key :=
  fun p q => decide (p.1 <= q.1).

Definition forEach_order (m : gmap Z waiter) : list (Z * waiter) :=
  merge_sort by_key (map_to_list m).

Definition destroy (st : iface) : iface :=
  if isDestroyed st then st
  else
    let st1 := set_isDestroyed true st in
    let st2 := set_port_closed true st1 in
    let st3 :=
      foldl (fun s p => waiter_reject p.2 ByDestroy (VError "ibox: Connection destroyed") s)
        st2 (forEach_order (pendingCalls st2)) in
    set_handlers ∅ (set_pendingCalls ∅ st3).

(** *** Callbacks that use the interface while they run

    A callback is application code and may hold [api]: before it returns or
    throws it may call [emit], [call] and [destroy] (an exception of such a
    call is taken as caught by the callback).  None of the three touches
    the [Set] that the listener holds in [callbacks]: [destroy] clears the
    map of sets, not the sets.  What a callback does after an [await] of its
    own happens between listener runs, like a call by the owner.  A
    callback that calls [on] or [off] while it runs changes the [Set] under
    the loop and is outside the model. *)
Inductive api_call : Type :=
| ApiEmit (event data : value)
| ApiCall (event data : value) (timeout : option Z)
| ApiDestroy.

Definition api_step (st : iface) (a : api_call) : iface :=
  match a with
  | ApiEmit event data => (emit event data st).2
  | ApiCall event data timeout => (call event data timeout st).2
  | ApiDestroy => destroy st
  end.

(** [calls f payload]: the operations callback [f] calls on [payload], in
    order, before it ends as its [behaviour] says. *)
Definition reentry : Type := nat -> value -> list api_call.

(** Callback [cb] is invoked with [data] and makes its calls. *)
Definition invoke (calls : reentry) (cb : nat) (data : value) (st : iface) : iface :=
  foldl api_step (set_invoked (invoked st ++ [(cb, data)]) st) (calls cb data).

(** One turn of the loop of the emit mode, with such a callback. *)
Definition notify_re (beh : behaviour) (calls : reentry) (event data : value)
    (st : iface) (cb : nat) : iface :=
  let st1 := invoke calls cb data st in
  match beh cb data with
  | Throws err =>
      set_console
        (console st1 ++ [("ibox: Handler error [" +:+ ToString event +:+ "]:", err)]) st1
  | _ => st1
  end.

(** The call mode up to its [await], with such a callback. *)
Definition serve_re (beh : behaviour) (calls : reentry) (id data : value)
    (callbacks : list nat) (st : iface) : iface :=
  match callbacks with
  | [] => st
  | firstHandler :: _ =>
      let st1 := invoke calls firstHandler data st in
      match beh firstHandler data with
      | Throws err => respond_error id err st1
      | Returns v | Fulfils v => set_awaiting (awaiting st1 ++ [(id, Fulfilled v)]) st1
      | Rejects err => set_awaiting (awaiting st1 ++ [(id, Rejected err)]) st1
      end
  end.

(** [port.onmessage] with such callbacks: the tests are made, and
    [callbacks] is read, before any callback runs. *)
Definition onmessage_re (beh : behaviour) (calls : reentry) (e_data : value)
    (st : iface) : iface :=
  if isDestroyed st || negb (truthy e_data) then st
  else
    let event := get e_data "event" in
    let data := get e_data "data" in
    let _ibox_id := get e_data "_ibox_id" in
    let _ibox_res_id := get e_data "_ibox_res_id" in
    let _ibox_error := get e_data "_ibox_error" in
    match (if truthy _ibox_res_id then pending_get _ibox_res_id st else None) with
    | Some (k, w) =>
        let st1 := set_pendingCalls (delete k (pendingCalls st)) st in
        if truthy _ibox_error
        then waiter_reject w ByResponse (new_Error _ibox_error) st1
        else waiter_resolve w ByResponse data st1
    | None =>
        match (if truthy event then handlers_get event st else None) with
        | Some callbacks =>
            if truthy _ibox_id
            then serve_re beh calls _ibox_id data callbacks st
            else foldl (notify_re beh calls event data) st callbacks
        | None => st
        end
    end.

(** *** Runs of an interface *)

(** What can happen to an interface: its owner calls an operation, the port
    delivers a message (to callbacks that leave the interface alone, or to
    callbacks that use it), a timer expires, an awaited callback result
    arrives. *)
Inductive op : Type :=
| Emit (event data : value)
| Call (event data : value) (timeout : option Z)
| On (event cb : value)
| Off (event cb : value)
| Destroy
| Deliver (beh : behaviour) (e_data : value)
| Expire (t : Z)
| Resume (k : nat)
| Reenter (beh : behaviour) (calls : reentry) (e_data : value).

Definition step (st : iface) (o : op) : iface :=
  match o with
  | Emit event data => (emit event data st).2
  | Call event data timeout => (call event data timeout st).2
  | On event cb => (on event cb st).2
  | Off event cb => (off event cb st).2
  | Destroy => destroy st
  | Deliver beh e_data => onmessage beh e_data st
  | Expire t => fire t st
  | Resume k => resume k st
  | Reenter beh calls e_data => onmessage_re beh calls e_data st
  end.

Definition run (st : iface) (ops : list op) : iface := foldl step st ops.

Definition reachable (st : iface) : Prop :=
  exists ops, st = run (createInterface None) ops.

End IBox.

(** ** The two handshakes *)

Module Handshake.
Import JS.

(** A [message] event of the window: where it comes from, what it carries,
    and whether [e.ports[0]] is there. *)
Record bus_message : Type := { origin : string; data : value; port0 : bool }.

(** How the promise of [host] or [client] is settled: with an interface
    around the port, or with an error. *)
Inductive answer : Type :=
| Resolved (api : IBox.iface)
| Failed (e : value).

(** [v === s] and [v !== s] for a string [s]. *)
Definition is_str (v : value) (s : string) : bool :=
  match v with
  | VStr s' => String.eqb s' s
  | _ => false
  end.
Definition isnt_str (v : value) (s : string) : bool := negb (is_str v s).

Definition quote : string := String (Ascii.ascii_of_nat 34) EmptyString.
Definition insecure_warning : string :=
  "ibox: Insecure " +:+ quote +:+ "*" +:+ quote +:+ " origin".

(** [if (!origin || origin === '*') console.warn(...)] *)
Definition warn (o : value) : list string :=
  if negb (truthy o) || is_str o "*" then [insecure_warning] else [].

End Handshake.

Module Host.
Import JS Handshake.

(** The promise executor of [host] as a state: the subscription of [init]
    to the window, the delay of the armed timer, every invocation of
    [resolve] or [reject], what was posted to the frame (message and target
    origin, with [channel.port2]), whether [port1] was started. *)
Record state : Type := {
  targetOrigin : value;
  listening : bool;
  timer : option Z;
  results : list answer;
  posted : list (string * value);
  started : bool;
  warnings : list string
}.

Definition cleanup (st : state) : state :=
  {| targetOrigin := targetOrigin st; listening := false; timer := None;
     results := results st; posted := posted st; started := started st;
     warnings := warnings st |}.

Definition settle (a : answer) (st : state) : state :=
  {| targetOrigin := targetOrigin st; listening := listening st; timer := timer st;
     results := results st ++ [a]; posted := posted st; started := started st;
     warnings := warnings st |}.

(** [host(iframe, targetOrigin)]; [iframe] is [None] for a missing element
    and [Some w] for an element whose [contentWindow] is there iff [w]. *)
Definition host (iframe : option bool) (targetOrigin : value) : state :=
  match iframe with
  | Some true =>
      {| targetOrigin := targetOrigin; listening := true; timer := Some 15000;
         results := []; posted := []; started := false;
         warnings := warn targetOrigin |}
  | _ =>
      {| targetOrigin := targetOrigin; listening := false; timer := None;
         results := [Failed (VError "ibox: No iframe")]; posted := [];
         started := false; warnings := warn targetOrigin |}
  end.

(** The window delivers [e] to [init]; [post_error] is what
    [iframe.contentWindow.postMessage] throws at that moment, if anything. *)
Definition init (e : bus_message) (post_error : option value) (st : state) : state :=
  if negb (listening st) then st
  else if isnt_str (targetOrigin st) "*" && isnt_str (targetOrigin st) (origin e) then st
  else if isnt_str (data e) IBox.MSG_READY then st
  else
    let st1 := cleanup st in
    match post_error with
    | None =>
        settle (Resolved (IBox.createInterface None))
          {| targetOrigin := targetOrigin st1; listening := listening st1;
             timer := timer st1; results := results st1;
             posted := posted st1 ++ [(IBox.MSG_PORT, targetOrigin st1)];
             started := true; warnings := warnings st1 |}
    | Some err => settle (Failed err) st1
    end.

(** The timer set with [setTimeout(..., 15000)] expires. *)
Definition expire (st : state) : state :=
  match timer st with
  | Some _ => settle (Failed (VError "ibox: Host connection timeout")) (cleanup st)
  | None => st
  end.

Inductive event : Type :=
| Bus (e : bus_message) (post_error : option value)
| Timeout.

Definition step (st : state) (ev : event) : state :=
  match ev with
  | Bus e post_error => init e post_error st
  | Timeout => expire st
  end.

Definition run (st : state) (evs : list event) : state := foldl step st evs.

(** A message that [init] acts on. *)
Definition valid_ready (targetOrigin : value) (e : bus_message) : bool :=
  (is_str targetOrigin "*" || is_str targetOrigin (origin e))
  && is_str (data e) IBox.MSG_READY.

End Host.

Module Client.
Import JS Handshake.

(** The promise executor of [client] as a state: the attempt counter, the
    period of the running interval, the delay of the armed timer, the
    subscription of [getPort], every invocation of [resolve] or [reject],
    and the broadcasts that went through (message and target origin). *)
Record state : Type := {
  hostOrigin : value;
  attempts : Z;
  handshakeInterval : option Z;
  timer : option Z;
  listening : bool;
  results : list answer;
  broadcasts : list (string * value);
  warnings : list string
}.

Definition cleanup (st : state) : state :=
  {| hostOrigin := hostOrigin st; attempts := attempts st;
     handshakeInterval := None; timer := None; listening := false;
     results := results st; broadcasts := broadcasts st; warnings := warnings st |}.

Definition settle (a : answer) (st : state) : state :=
  {| hostOrigin := hostOrigin st; attempts := attempts st;
     handshakeInterval := handshakeInterval st; timer := timer st;
     listening := listening st; results := results st ++ [a];
     broadcasts := broadcasts st; warnings := warnings st |}.

Definition client (hostOrigin : value) : state :=
  {| hostOrigin := hostOrigin; attempts := 0; handshakeInterval := Some 200;
     timer := Some 15000; listening := true; results := []; broadcasts := [];
     warnings := warn hostOrigin |}.

(** One run of the interval callback; [post_error] is what
    [window.parent.postMessage] throws this time, if anything.  The
    callback itself completes normally in every case: the [catch] block is
    empty. *)
Definition tick (post_error : option value) (st : state) : completion unit * state :=
  match handshakeInterval st with
  | None => (Normal (), st)
  | Some _ =>
      let st1 :=
        {| hostOrigin := hostOrigin st; attempts := attempts st + 1;
           handshakeInterval := handshakeInterval st; timer := timer st;
           listening := listening st; results := results st;
           broadcasts := broadcasts st; warnings := warnings st |} in
      if 60 <? attempts st1
      then (Normal (), settle (Failed (VError "ibox: Handshake failed")) (cleanup st1))
      else
        match post_error with
        | Some _ => (Normal (), st1)
        | None =>
            (Normal (),
             {| hostOrigin := hostOrigin st1; attempts := attempts st1;
                handshakeInterval := handshakeInterval st1; timer := timer st1;
                listening := listening st1; results := results st1;
                broadcasts := broadcasts st1 ++ [(IBox.MSG_READY, hostOrigin st1)];
                warnings := warnings st1 |})
        end
  end.

(** The timer set with [setTimeout(..., 15000)] expires. *)
Definition expire (st : state) : state :=
  match timer st with
  | Some _ => settle (Failed (VError "ibox: Client connection timeout")) (cleanup st)
  | None => st
  end.

(** The window delivers [e] to [getPort]. *)
Definition getPort (e : bus_message) (st : state) : state :=
  if negb (listening st) then st
  else if isnt_str (hostOrigin st) "*" && isnt_str (hostOrigin st) (origin e) then st
  else if isnt_str (data e) IBox.MSG_PORT || negb (port0 e) then st
  else settle (Resolved (IBox.createInterface None)) (cleanup st).

Inductive event : Type :=
| Tick (post_error : option value)
| Bus (e : bus_message)
| Timeout.

Definition step (st : state) (ev : event) : state :=
  match ev with
  | Tick post_error => (tick post_error st).2
  | Bus e => getPort e st
  | Timeout => expire st
  end.

Definition run (st : state) (evs : list event) : state := foldl step st evs.

End Client.

(** ** The older variant of the library

    [src/ibox.js] is an earlier version of the same protocol: no validation,
    no destroyed flag, no capacity bound, arrays instead of sets, other
    constants.  Its listener, its operations and the retry of its client are
    embedded here on the same state, so that the two variants can be
    compared; the dispatcher is taken with its awaits completing in order,
    and event names are strings. *)

Module Legacy.
Import JS IBox.

(** The loop [for (const cb of handlers.get(e.data.event))] with its
    [await cb(e.data.data)]: a failing callback ends the listener. *)
Fixpoint loop (beh : behaviour) (e_data : value) (callbacks : list nat)
    (st : iface) : iface :=
  match callbacks with
  | [] => st
  | cb :: rest =>
      let st1 := set_invoked (invoked st ++ [(cb, get e_data "data")]) st in
      match beh cb (get e_data "data") with
      | Returns result | Fulfils result =>
          if truthy (get e_data "_ibox_id")
          then
            match postMessage
                    (VObj [("_ibox_res_id", get e_data "_ibox_id"); ("data", result)])
                    st1 with
            | Normal st2 => loop beh e_data rest st2
            | Abrupt _ => st1
            end
          else loop beh e_data rest st1
      | Throws _ | Rejects _ => st1
      end
  end.

Definition messageListener (beh : behaviour) (e_data : value) (st : iface) : iface :=
  if negb (truthy e_data) then st
  else
    match (if truthy (get e_data "_ibox_res_id")
           then pending_get (get e_data "_ibox_res_id") st else None) with
    | Some (k, w) =>
        let st1 := waiter_resolve w ByResponse (get e_data "data") st in
        set_pendingCalls (delete k (pendingCalls st1)) st1
    | None =>
        match (if truthy (get e_data "event")
               then handlers_get (get e_data "event") st else None) with
        | Some callbacks => loop beh e_data callbacks st
        | None => st
        end
    end.

Definition emit (event data : value) (st : iface) : completion unit * iface :=
  match postMessage (VObj [("event", event); ("data", data)]) st with
  | Normal st' => (Normal (), st')
  | Abrupt e => (Abrupt e, st)
  end.

(** [call(event, data, timeout = 5000)]; an exception of [postMessage]
    inside the executor rejects the promise and leaves entry and timer. *)
Definition call (event data : value) (timeout : option Z) (st : iface)
    : call_result * iface :=
  let timeout := default 5000 timeout in
  let id := callId st + 1 in
  let st1 := set_callId id st in
  let st2 :=
    set_timers
      (<[id := {| t_call := id; t_event := event; t_delay := timeout |}]> (timers st1))
      st1 in
  let st3 :=
    set_pendingCalls
      (<[id := {| w_promise := id; w_timer := id |}]> (pendingCalls st2)) st2 in
  match postMessage (VObj [("event", event); ("data", data); ("_ibox_id", VNum id)]) st3 with
  | Normal st4 => (CallPromise id, st4)
  | Abrupt e => (CallPromise id, settle id BySendFailure (Rejected e) st3)
  end.

Definition timeout_message (event : value) : string :=
  "ibox: Timeout for event " +:+ Handshake.quote +:+ ToString event +:+ Handshake.quote.

(** The timer callback: [pendingCalls.delete(id); reject(new Error(...))]. *)
Definition fire (t : Z) (st : iface) : iface :=
  match timers st !! t with
  | Some tm =>
      let st1 := set_timers (delete t (timers st)) st in
      settle (t_call tm) ByTimeout (Rejected (VError (timeout_message (t_event tm))))
        (set_pendingCalls (delete (t_call tm) (pendingCalls st1)) st1)
  | None => st
  end.

(** [on(event, callback)]: [handlers.get(event).push(callback)]. *)
Definition on (ev : string) (cb : nat) (st : iface) : iface :=
  set_handlers (<[ev := default [] (handlers st !! ev) ++ [cb]]> (handlers st)) st.

(** [destroy()]: the port is closed and the two maps are cleared. *)
Definition destroy (st : iface) : iface :=
  set_pendingCalls ∅ (set_handlers ∅ (set_port_closed true st)).

(** One run of the interval callback of [client], on the state of the
    other variant (there is no overall timer here): the bound is 50 and
    [postMessage] is not guarded. *)
Definition MAX_ATTEMPTS : Z := 50.

Definition client (hostOrigin : value) : Client.state :=
  {| Client.hostOrigin := if truthy hostOrigin then hostOrigin else VStr "*";
     Client.attempts := 0; Client.handshakeInterval := Some 100;
     Client.timer := None; Client.listening := true; Client.results := [];
     Client.broadcasts := []; Client.warnings := [] |}.

Definition tick (post_error : option value) (st : Client.state)
    : completion unit * Client.state :=
  match Client.handshakeInterval st with
  | None => (Normal (), st)
  | Some _ =>
      let st1 :=
        {| Client.hostOrigin := Client.hostOrigin st;
           Client.attempts := Client.attempts st + 1;
           Client.handshakeInterval := Client.handshakeInterval st;
           Client.timer := Client.timer st; Client.listening := Client.listening st;
           Client.results := Client.results st; Client.broadcasts := Client.broadcasts st;
           Client.warnings := Client.warnings st |} in
      if MAX_ATTEMPTS <? Client.attempts st1
      then (Normal (),
            Client.settle (Handshake.Failed (VError "ibox: Connection timeout"))
              (Client.cleanup st1))
      else
        match post_error with
        | Some err => (Abrupt err, st1)
        | None =>
            (Normal (),
             {| Client.hostOrigin := Client.hostOrigin st1;
                Client.attempts := Client.attempts st1;
                Client.handshakeInterval := Client.handshakeInterval st1;
                Client.timer := Client.timer st1; Client.listening := Client.listening st1;
                Client.results := Client.results st1;
                Client.broadcasts :=
                  Client.broadcasts st1 ++ [(MSG_READY, Client.hostOrigin st1)];
                Client.warnings := Client.warnings st1 |})
        end
  end.

End Legacy.

(** ** Invariants and wire formats used in the statements *)

Module Props.
Import JS IBox.

(** The calls whose promise has been settled, one occurrence per invocation
    of [resolve] or [reject]. *)
Definition settled_ids (st : iface) : list Z := (settled st).*1.*1.

(** The two response envelopes and the request and event envelopes. *)
Definition ok_envelope (id result : value) : value :=
  VObj [("_ibox_res_id", id); ("data", result)].
Definition error_envelope (id m : value) : value :=
  VObj [("_ibox_res_id", id); ("_ibox_error", m)].
Definition request_envelope (event data : value) (id : Z) : value :=
  VObj [("event", event); ("data", data); ("_ibox_id", VNum id)].
Definition event_envelope (event data : value) : value :=
  VObj [("event", event); ("data", data)].

(** What holds of every interface that [createInterface] returned, whatever
    happened to it since. *)
Record inv (st : iface) : Prop := {
  inv_callId : 0 <= callId st;
  inv_pending : forall k w, pendingCalls st !! k = Some w ->
      1 <= k <= callId st /\ w_promise w = k /\ w_timer w = k;
  inv_timers : dom (timers st) = dom (pendingCalls st);
  inv_timer_call : forall k t, timers st !! k = Some t -> t_call t = k;
  inv_settled : forall p, p ∈ settled_ids st ->
      1 <= p <= callId st /\ pendingCalls st !! p = None;
  inv_once : NoDup (settled_ids st);
  inv_issued : forall k, 1 <= k <= callId st ->
      is_Some (pendingCalls st !! k) \/ k ∈ settled_ids st;
  inv_count : Z.of_nat (size (pendingCalls st)) + Z.of_nat (length (settled st)) = callId st;
  inv_bound : (size (pendingCalls st) <= MAX_PENDING_CALLS)%nat;
  inv_destroyed : isDestroyed st = true -> pendingCalls st = ∅;
  inv_port : port_closed st = isDestroyed st;
  inv_handlers : forall ev s, handlers st !! ev = Some s ->
      s <> [] /\ NoDup s /\ trim ev <> ""%string
}.

(** The test of the first branch of the listener:
    [_ibox_res_id && pendingCalls.has(_ibox_res_id)]. *)
Definition answers_pending (e_data : value) (st : iface) : bool :=
  truthy (get e_data "_ibox_res_id")
  && bool_decide (is_Some (pending_get (get e_data "_ibox_res_id") st)).

(** An event name as the operations want it: a string that is not empty
    once trimmed. *)
Definition valid_event_name (event : value) : bool :=
  match event with
  | VStr s => negb (String.eqb (trim s) "")
  | _ => false
  end.

Definition name_error : value := VError "ibox: Event name must be a non-empty string".

(** From [st] to [st'] settlements are only added and ids only issued, and
    a failed send is only recorded for an id issued in between. *)
Definition extends (st st' : iface) : Prop :=
  exists new, settled st' = settled st ++ new /\ callId st <= callId st' /\
    forall p c s, (p, c, s) ∈ new -> c = BySendFailure -> callId st < p.


(** Two states with the same tables, counters and flags. *)
Definition same_core (st st' : iface) : Prop :=
  handlers st' = handlers st /\ pendingCalls st' = pendingCalls st /\
  callId st' = callId st /\ isDestroyed st' = isDestroyed st /\
  port_closed st' = port_closed st /\ timers st' = timers st /\
  settled st' = settled st.

End Props.

(** ** Sample interfaces, envelopes and callbacks *)

Module Examples.
Import JS IBox Props.

(** Two callbacks registered for ["get"]: 7 first, then 8. *)
Definition two_handlers : iface :=
  run (createInterface None) [On (VStr "get") (VFun 7); On (VStr "get") (VFun 8)].

Definition get_request : value := request_envelope (VStr "get") (VNum 123) 5.
Definition get_event : value := event_envelope (VStr "get") (VNum 123).

(** Callback 7 answers through a promise, throws, rejects, returns a
    function, or rejects without a reason; callback 8 returns at once. *)
Definition first_fulfils : behaviour :=
  fun f _ => if (f =? 7)%nat then Fulfils (VStr "alice") else Returns VNull.
Definition first_throws : behaviour :=
  fun f _ => if (f =? 7)%nat then Throws (VError "boom") else Returns VNull.
Definition first_rejects : behaviour :=
  fun f _ => if (f =? 7)%nat then Rejects (VError "boom") else Returns VNull.
Definition first_rejects_undefined : behaviour :=
  fun f _ => if (f =? 7)%nat then Rejects VUndefined else Returns VNull.
Definition first_throws_empty : behaviour :=
  fun f _ => if (f =? 7)%nat then Throws (VError "") else Returns VNull.

(** One call in flight, and a thousand of them. *)
Definition one_call : iface :=
  (call (VStr "ping") VNull None (createInterface None)).2.
Definition full : iface :=
  run (createInterface None) (replicate 1000 (Call (VStr "ping") VNull None)).

(** A call in flight and a callback registered, then [destroy()]. *)
Definition busy_then_destroyed : iface :=
  run (createInterface None)
    [On (VStr "get") (VFun 7); Call (VStr "ping") VNull None; Destroy].

(** Callback 7 calls [destroy()] while it runs; callback 8 throws. *)
Definition first_destroys : reentry :=
  fun f _ => if (f =? 7)%nat then [ApiDestroy] else [].
Definition second_throws : behaviour :=
  fun f _ => if (f =? 8)%nat then Throws (VError "late") else Returns VNull.

(** The interface of [two_handlers] after an event during which callback 7
    called [destroy()]. *)
Definition destroyed_in_loop : iface :=
  run two_handlers [Reenter second_throws first_destroys get_event].

(** U+00A0, U+2003 and U+FEFF in UTF-8; a name of white space only, and
    ["get"] with white space around it. *)
Definition nbsp : string :=
  String (Ascii.ascii_of_nat 194) (String (Ascii.ascii_of_nat 160) EmptyString).
Definition em_space : string :=
  String (Ascii.ascii_of_nat 226)
    (String (Ascii.ascii_of_nat 128) (String (Ascii.ascii_of_nat 131) EmptyString)).
Definition bom : string :=
  String (Ascii.ascii_of_nat 239)
    (String (Ascii.ascii_of_nat 187) (String (Ascii.ascii_of_nat 191) EmptyString)).
Definition blank_name : string := nbsp +:+ " " +:+ em_space +:+ bom.
Definition padded_get : string := bom +:+ " get" +:+ nbsp +:+ em_space.

End Examples.

(** ** Two interfaces joined by their ports *)

Module Link.
Import JS IBox.

(** What the port of the peer receives next when the posts of [st] are
    delivered in order and all but the last one have been: the clone of
    the message posted last.  A value that can be cloned is its own
    clone. *)
Definition last_posted (st : iface) : value := default VUndefined (last (outbox st)).

(** A callback outcome that gives the listener a value, and that value. *)
Definition succeeds (o : outcome) : bool :=
  match o with
  | Returns _ | Fulfils _ => true
  | Throws _ | Rejects _ => false
  end.
Definition returned (o : outcome) : value :=
  match o with
  | Returns v | Fulfils v => v
  | Throws _ | Rejects _ => VUndefined
  end.

(** A message that [getPort] of the client acts on. *)
Definition valid_port (hostOrigin : value) (e : Handshake.bus_message) : bool :=
  (Handshake.is_str hostOrigin "*" || Handshake.is_str hostOrigin (Handshake.origin e))
  && Handshake.is_str (Handshake.data e) MSG_PORT && Handshake.port0 e.

(** The interval of the older client, run after run. *)
Definition legacy_ticks (st : Client.state) (errors : list (option value)) : Client.state :=
  foldl (fun s e => (Legacy.tick e s).2) st errors.

(** [n] calls of the older variant in a row. *)
Definition legacy_calls (event data : value) (timeout : option Z) (n : nat)
    (st : iface) : iface :=
  Nat.iter n (fun s => (Legacy.call event data timeout s).2) st.

End Link.

Import JS IBox Props Examples.
Import Link.

(** * Properties *)

(** ** The order in which [destroy] visits the pending calls *)

Lemma forEach_order_Permutation (m : gmap Z waiter) : forEach_order m ≡ₚ map_to_list m.
Proof. apply merge_sort_Permutation. Qed.

Lemma elem_of_forEach_order (m : gmap Z waiter) k w :
  (k, w) ∈ forEach_order m <-> m !! k = Some w.
Proof. by rewrite forEach_order_Permutation, elem_of_map_to_list. Qed.

Lemma NoDup_fst_forEach_order (m : gmap Z waiter) : NoDup (forEach_order m).*1.
Proof. rewrite forEach_order_Permutation. apply NoDup_fst_map_to_list. Qed.

Lemma length_forEach_order (m : gmap Z waiter) : length (forEach_order m) = size m.
Proof. rewrite forEach_order_Permutation. apply length_map_to_list. Qed.

Lemma forEach_order_sorted (m : gmap Z waiter) :
  Sorted by_key (forEach_order m).
Proof. apply Sorted_merge_sort. intros p q. unfold by_key. lia. Qed.

(** ** Preservation of the invariant *)

Lemma inv_same_core st st' : same_core st st' -> inv st -> inv st'.
Proof.
  intros (Hh & Hp & Hc & Hd & Hc' & Ht & Hs) [].
  split; unfold settled_ids in *; rewrite ?Hh, ?Hp, ?Hc, ?Hd, ?Hc', ?Ht, ?Hs; auto.
Qed.

Lemma inv_createInterface : inv (createInterface None).
Proof.
  split; simpl; try done.
  - unfold settled_ids; simpl. intros p Hp. by apply elem_of_nil in Hp.
  - unfold settled_ids; simpl. constructor.
  - intros k Hk. lia.
  - rewrite map_size_empty. unfold MAX_PENDING_CALLS. lia.
Qed.

Lemma postMessage_same_core msg st st' :
  postMessage msg st = Normal st' -> same_core st st'.
Proof.
  unfold postMessage. destruct (cloneable msg); [|done].
  intros [= <-]. destruct (port_closed st); repeat split.
Qed.

Lemma postMessage_Normal msg st :
  cloneable msg = true ->
  postMessage msg st =
    Normal (if port_closed st then st else set_outbox (outbox st ++ [msg]) st).
Proof. unfold postMessage. by intros ->. Qed.

Lemma postMessage_Abrupt msg st :
  cloneable msg = false -> postMessage msg st = Abrupt DataCloneError.
Proof. unfold postMessage. by intros ->. Qed.

Lemma same_core_refl st : same_core st st.
Proof. repeat split. Qed.

Lemma same_core_trans st1 st2 st3 :
  same_core st1 st2 -> same_core st2 st3 -> same_core st1 st3.
Proof.
  intros (?&?&?&?&?&?&?) (?&?&?&?&?&?&?). repeat split; congruence.
Qed.

Lemma respond_error_same_core id err st : same_core st (respond_error id err st).
Proof.
  unfold respond_error. destruct (read err "message"); [|apply same_core_refl].
  destruct (postMessage _ st) eqn:E; [|apply same_core_refl].
  by apply postMessage_same_core in E.
Qed.

Lemma respond_same_core id s st : same_core st (respond id s st).
Proof.
  destruct s; simpl; [|apply respond_error_same_core].
  destruct (postMessage _ st) eqn:E; [|apply respond_error_same_core].
  by apply postMessage_same_core in E.
Qed.

Lemma resume_same_core k st : same_core st (resume k st).
Proof.
  unfold resume. destruct (awaiting st !! k) as [[id s]|]; [|apply same_core_refl].
  eapply same_core_trans; [|apply respond_same_core]. repeat split.
Qed.

Lemma notify_same_core beh event data st cb :
  same_core st (notify beh event data st cb).
Proof. unfold notify. destruct (beh cb data); repeat split. Qed.

Lemma notify_all_same_core beh event data callbacks st :
  same_core st (foldl (notify beh event data) st callbacks).
Proof.
  revert st. induction callbacks as [|cb l IH]; intros st; simpl.
  - apply same_core_refl.
  - eapply same_core_trans; [apply notify_same_core | apply IH].
Qed.

Lemma serve_same_core beh id data callbacks st :
  same_core st (serve beh id data callbacks st).
Proof.
  unfold serve. destruct callbacks as [|f l]; [apply same_core_refl|].
  destruct (beh f data); try (repeat split; fail).
  eapply same_core_trans; [|apply respond_error_same_core]. repeat split.
Qed.

Lemma emit_same_core event data st : same_core st (emit event data st).2.
Proof.
  unfold emit. destruct (isDestroyed st); [apply same_core_refl|].
  destruct (validateEvent event); [|apply same_core_refl].
  destruct (postMessage _ st) eqn:E; simpl; [|apply same_core_refl].
  by apply postMessage_same_core in E.
Qed.

Lemma validateEvent_Normal event t :
  validateEvent event = Normal t ->
  exists s, event = VStr s /\ t = trim s /\ trim s <> ""%string.
Proof.
  destruct event; simpl; try done.
  destruct (String.eqb_spec (trim s) ""); simpl; [done|].
  intros [= <-]. eauto.
Qed.

Lemma validateEvent_VStr s :
  trim s <> ""%string -> validateEvent (VStr s) = Normal (trim s).
Proof.
  intros H. simpl. by destruct (String.eqb_spec (trim s) "").
Qed.

Lemma set_add_nonempty f s : set_add f s <> [].
Proof.
  unfold set_add. case_bool_decide as H.
  - intros ->. by apply elem_of_nil in H.
  - by destruct s.
Qed.

Lemma set_add_NoDup f s : NoDup s -> NoDup (set_add f s).
Proof.
  intros Hs. unfold set_add. case_bool_decide as H; [done|].
  apply NoDup_app. split_and!; [done| |apply NoDup_singleton].
  intros x Hx Hx'. apply list_elem_of_singleton in Hx'. by subst.
Qed.

Lemma set_delete_NoDup f s : NoDup s -> NoDup (set_delete f s).
Proof. apply NoDup_filter. Qed.

Lemma inv_set_handlers h st :
  inv st ->
  (forall ev s, h !! ev = Some s -> s <> [] /\ NoDup s /\ trim ev <> ""%string) ->
  inv (set_handlers h st).
Proof. intros [] Hh. split; auto. Qed.

Lemma inv_on event cb st : inv st -> inv (on event cb st).2.
Proof.
  intros Hi. unfold on.
  destruct (validateEvent event) as [t|e] eqn:Ev; [|done].
  apply validateEvent_Normal in Ev as (s & -> & _ & Hs).
  destruct cb; try done. simpl.
  apply inv_set_handlers; [done|].
  intros ev l. destruct (decide (s = ev)) as [->|Hne].
  - rewrite lookup_insert_eq. intros [= <-]. split_and!; [apply set_add_nonempty| |done].
    apply set_add_NoDup. destruct (handlers st !! ev) as [l|] eqn:E; simpl.
    + by apply (inv_handlers _ Hi) in E as (_ & ? & _).
    + constructor.
  - rewrite lookup_insert_ne by done. apply (inv_handlers _ Hi).
Qed.

Lemma inv_off event cb st : inv st -> inv (off event cb st).2.
Proof.
  intros Hi. unfold off. destruct event; try done.
  destruct (handlers st !! s) as [l|] eqn:E; [|done]. simpl.
  apply (inv_handlers _ Hi) in E as (Hne & Hnd & Ht).
  case_bool_decide as Hlen; apply inv_set_handlers; try done.
  - intros ev l'. rewrite lookup_delete_Some. intros [_ H].
    by apply (inv_handlers _ Hi) in H.
  - intros ev l'. destruct (decide (s = ev)) as [->|Hn].
    + rewrite lookup_insert_eq. intros [= <-]. split_and!; [|by destruct cb; try apply set_delete_NoDup|done].
      intros Hnil. apply Hlen. by rewrite Hnil.
    + rewrite lookup_insert_ne by done. apply (inv_handlers _ Hi).
Qed.

(** Removing the entry of call [k], clearing its timer and settling its
    promise keeps the invariant. *)
Lemma inv_remove st st' k w c s :
  inv st -> pendingCalls st !! k = Some w ->
  handlers st' = handlers st ->
  pendingCalls st' = delete k (pendingCalls st) ->
  callId st' = callId st ->
  isDestroyed st' = isDestroyed st ->
  port_closed st' = port_closed st ->
  timers st' = delete k (timers st) ->
  settled st' = settled st ++ [(k, c, s)] ->
  inv st'.
Proof.
  intros Hi Hk Hh Hp Hc Hd Hpc Ht Hs.
  assert (Hids : settled_ids st' = settled_ids st ++ [k]).
  { unfold settled_ids. by rewrite Hs, !fmap_app. }
  assert (Hfresh : k ∉ settled_ids st).
  { intros Hin. apply (inv_settled _ Hi) in Hin as [_ Hn]. congruence. }
  split; rewrite ?Hh, ?Hp, ?Hc, ?Hd, ?Hpc, ?Ht, ?Hids.
  - apply Hi.
  - intros k' w'. rewrite lookup_delete_Some. intros [_ H]. by apply (inv_pending _ Hi).
  - rewrite !dom_delete_L. by rewrite (inv_timers _ Hi).
  - intros k' t. rewrite lookup_delete_Some. intros [_ H]. by apply (inv_timer_call _ Hi) in H.
  - intros p. rewrite elem_of_app, list_elem_of_singleton. intros [Hin| ->].
    + apply (inv_settled _ Hi) in Hin as [? Hn]. split; [done|].
      rewrite lookup_delete_None. by right.
    + split; [by apply (inv_pending _ Hi) in Hk as [? _]|]. apply lookup_delete_eq.
  - apply NoDup_app. split_and!; [apply Hi| |apply NoDup_singleton].
    intros x Hx Hx'. apply list_elem_of_singleton in Hx'. by subst.
  - intros k' Hk'. rewrite elem_of_app, list_elem_of_singleton.
    destruct (decide (k' = k)) as [->|Hne]; [by right; right|].
    destruct (inv_issued _ Hi k' Hk') as [H|H]; [left|by right; left].
    by rewrite lookup_delete_ne.
  - rewrite map_size_delete_Some by eauto. rewrite Hs, length_app. simpl.
    pose proof (inv_count _ Hi). 
    assert (size (pendingCalls st) <> 0%nat).
    { intros H0. apply map_size_empty_inv in H0. rewrite H0 in Hk. by rewrite lookup_empty in Hk. }
    lia.
  - rewrite map_size_delete_Some by eauto. pose proof (inv_bound _ Hi). lia.
  - intros H. apply (inv_destroyed _ Hi) in H. rewrite H in Hk. by rewrite lookup_empty in Hk.
  - apply Hi.
  - apply Hi.
Qed.

Lemma pending_get_Some v st k w :
  pending_get v st = Some (k, w) -> v = VNum k /\ pendingCalls st !! k = Some w.
Proof.
  destruct v; simpl; try done.
  destruct (pendingCalls st !! n) eqn:E; simpl; [|done]. by intros [= <- <-].
Qed.

Lemma inv_onmessage beh e_data st : inv st -> inv (onmessage beh e_data st).
Proof.
  intros Hi. unfold onmessage.
  destruct (isDestroyed st || negb (truthy e_data)); [done|].
  destruct (if truthy (get e_data "_ibox_res_id") then _ else None)
    as [[k w]|] eqn:E.
  - destruct (truthy (get e_data "_ibox_res_id")); [|done].
    apply pending_get_Some in E as [_ Hk].
    destruct (inv_pending _ Hi _ _ Hk) as (_ & Hp & Ht).
    destruct (truthy (get e_data "_ibox_error"));
      eapply (inv_remove st _ k w); eauto; simpl; by rewrite ?Hp, ?Ht.
  - destruct (if truthy (get e_data "event") then _ else None) as [callbacks|]; [|done].
    destruct (truthy (get e_data "_ibox_id")).
    + eapply inv_same_core; [apply serve_same_core|done].
    + eapply inv_same_core; [apply notify_all_same_core|done].
Qed.

Lemma inv_resume k st : inv st -> inv (resume k st).
Proof. apply inv_same_core, resume_same_core. Qed.

Lemma inv_emit event data st : inv st -> inv (emit event data st).2.
Proof. apply inv_same_core, emit_same_core. Qed.

Lemma inv_fire t st : inv st -> inv (fire t st).
Proof.
  intros Hi. unfold fire. destruct (timers st !! t) as [tm|] eqn:Et; [|done].
  pose proof (inv_timer_call _ Hi _ _ Et) as Hc. rewrite Hc. simpl.
  assert (is_Some (pendingCalls st !! t)) as [w Hw].
  { apply elem_of_dom. rewrite <- (inv_timers _ Hi). apply elem_of_dom. eauto. }
  rewrite Hw. by eapply (inv_remove st _ t w).
Qed.

Lemma inv_call event data timeout st : inv st -> inv (call event data timeout st).2.
Proof.
  intros Hi. unfold call.
  destruct (isDestroyed st) eqn:Hd; [done|].
  case_bool_decide as Hsz; [done|].
  destruct (validateEvent event) as [t|e]; [|done].
  set (id := callId st + 1).
  assert (Hfresh : pendingCalls st !! id = None).
  { destruct (pendingCalls st !! id) as [w|] eqn:E; [|done].
    apply (inv_pending _ Hi) in E. lia. }
  assert (Htfresh : timers st !! id = None).
  { apply not_elem_of_dom. rewrite (inv_timers _ Hi). by apply not_elem_of_dom. }
  pose proof (inv_callId _ Hi) as H0.
  match goal with |- context [postMessage ?m ?s] => set (st3 := s); set (msg := m) end.
  assert (Hi3 : inv st3).
  { split; simpl.
    - lia.
    - intros k w. destruct (decide (id = k)) as [<-|Hne].
      + rewrite lookup_insert_eq. intros [= <-]. simpl. lia.
      + rewrite lookup_insert_ne by done. intros H.
        apply (inv_pending _ Hi) in H. lia.
    - rewrite !dom_insert_L. by rewrite (inv_timers _ Hi).
    - intros k tm. destruct (decide (id = k)) as [<-|Hne].
      + rewrite lookup_insert_eq. by intros [= <-].
      + rewrite lookup_insert_ne by done. apply (inv_timer_call _ Hi).
    - intros p Hp. apply (inv_settled _ Hi) in Hp as [? ?].
      split; [lia|]. rewrite lookup_insert_ne; [done|lia].
    - apply Hi.
    - intros k Hk. destruct (decide (id = k)) as [<-|Hne].
      + left. rewrite lookup_insert_eq. eauto.
      + rewrite lookup_insert_ne by done. apply (inv_issued _ Hi). lia.
    - rewrite map_size_insert_None by done. pose proof (inv_count _ Hi). lia.
    - rewrite map_size_insert_None by done. lia.
    - by rewrite Hd.
    - apply Hi.
    - apply Hi. }
  destruct (postMessage msg st3) as [st4|e] eqn:Epost; simpl.
  - eapply inv_same_core; [by apply postMessage_same_core in Epost|done].
  - eapply (inv_remove st3 _ id); eauto; simpl; try done; apply lookup_insert_eq.
Qed.

(** The loop of [destroy] over the pending calls touches the timers and
    the promises only. *)
Lemma reject_all_fields (l : list (Z * waiter)) c e st :
  let st' := foldl (fun s p => waiter_reject p.2 c e s) st l in
  handlers st' = handlers st /\ pendingCalls st' = pendingCalls st /\
  callId st' = callId st /\ isDestroyed st' = isDestroyed st /\
  port_closed st' = port_closed st /\ outbox st' = outbox st /\
  console st' = console st /\ invoked st' = invoked st /\
  awaiting st' = awaiting st /\
  timers st' = foldl (fun m p => delete (w_timer p.2) m) (timers st) l /\
  settled st' = settled st ++ ((fun p => (w_promise p.2, c, Rejected e)) <$> l).
Proof.
  revert st. induction l as [|p l IH]; intros st; simpl.
  - by rewrite app_nil_r.
  - destruct (IH (waiter_reject p.2 c e st)) as (?&?&?&?&?&?&?&?&?&Ht&Hs).
    simpl in *. rewrite Ht, Hs, <- app_assoc. by repeat split.
Qed.

Lemma lookup_foldl_delete {A B} (g : B -> Z) (l : list B) (m : gmap Z A) k :
  foldl (fun m p => delete (g p) m) m l !! k =
    if bool_decide (k ∈ g <$> l) then None else m !! k.
Proof.
  revert m. induction l as [|p l IH]; intros m; [done|].
  rewrite fmap_cons. cbn [foldl]. rewrite IH.
  destruct (decide (k = g p)) as [->|Hne].
  - rewrite lookup_delete_eq.
    rewrite (bool_decide_eq_true_2 (g p ∈ g p :: (g <$> l))) by apply list_elem_of_here.
    by case_bool_decide.
  - rewrite lookup_delete_ne by done.
    case_bool_decide as H1; case_bool_decide as H2; try done.
    + exfalso. apply H2. by apply list_elem_of_further.
    + exfalso. apply elem_of_cons in H2 as [?|?]; [by subst|done].
Qed.

Lemma pending_list_keys st :
  inv st ->
  Forall (fun p : Z * waiter => w_promise p.2 = p.1 /\ w_timer p.2 = p.1)
    (forEach_order (pendingCalls st)).
Proof.
  intros Hi. apply Forall_forall. intros [k w] H.
  apply elem_of_forEach_order in H. apply (inv_pending _ Hi) in H. simpl. tauto.
Qed.

(** [destroy] on a live interface, field by field. *)
Lemma destroy_live st :
  inv st -> isDestroyed st = false ->
  let d := destroy st in
  handlers d = ∅ /\ pendingCalls d = ∅ /\ callId d = callId st /\
  isDestroyed d = true /\ port_closed d = true /\ outbox d = outbox st /\
  console d = console st /\ invoked d = invoked st /\ awaiting d = awaiting st /\
  timers d = ∅ /\
  settled d = settled st ++
    ((fun p => (p.1, ByDestroy, Rejected (VError "ibox: Connection destroyed")))
       <$> forEach_order (pendingCalls st)).
Proof.
  intros Hi Hd. unfold destroy. rewrite Hd. simpl.
  match goal with |- context [foldl ?f ?s ?l] =>
    destruct (reject_all_fields l ByDestroy (VError "ibox: Connection destroyed") s)
      as (?&?&?&?&?&?&?&?&?&Ht&Hs) end.
  simpl in *. repeat split; try done.
  - rewrite Ht. apply map_eq. intros k. rewrite lookup_foldl_delete, lookup_empty.
    case_bool_decide as Hk; [done|].
    apply not_elem_of_dom. rewrite (inv_timers _ Hi). intros Hin. apply Hk.
    apply elem_of_dom in Hin as [w Hw].
    apply list_elem_of_fmap. exists (k, w). split.
    + apply (inv_pending _ Hi) in Hw. simpl. lia.
    + by apply elem_of_forEach_order.
  - rewrite Hs. f_equal. apply Forall_fmap_ext_1.
    eapply Forall_impl; [apply (pending_list_keys _ Hi)|].
    intros [k w] [Hp _]. simpl in *. by rewrite Hp.
Qed.

Lemma destroy_settled_ids st :
  inv st -> isDestroyed st = false ->
  settled_ids (destroy st) = settled_ids st ++ (forEach_order (pendingCalls st)).*1.
Proof.
  intros Hi Hd. destruct (destroy_live st Hi Hd) as (_&_&_&_&_&_&_&_&_&_&Hs).
  unfold settled_ids. rewrite Hs, !fmap_app. f_equal.
  rewrite <- !list_fmap_compose. by apply list_fmap_ext.
Qed.

Lemma inv_destroy st : inv st -> inv (destroy st).
Proof.
  intros Hi. destruct (isDestroyed st) eqn:Hd.
  { unfold destroy. by rewrite Hd. }
  pose proof (destroy_settled_ids st Hi Hd) as Hids.
  destruct (destroy_live st Hi Hd) as (Hh&Hp&Hc&Hd'&Hpc&_&_&_&_&Ht&Hs).
  assert (Hkeys : forall k, k ∈ (forEach_order (pendingCalls st)).*1 <->
                            is_Some (pendingCalls st !! k)).
  { intros k. rewrite list_elem_of_fmap. split.
    - intros ([k' w] & -> & H). apply elem_of_forEach_order in H. eauto.
    - intros [w H]. exists (k, w). split; [done|]. by apply elem_of_forEach_order. }
  split; rewrite ?Hh, ?Hp, ?Hc, ?Hd', ?Hpc, ?Ht, ?Hids.
  - apply Hi.
  - intros k w. by rewrite lookup_empty.
  - done.
  - intros k t. by rewrite lookup_empty.
  - intros p. rewrite elem_of_app, Hkeys, lookup_empty. intros [H|[w H]].
    + by apply (inv_settled _ Hi) in H as [? _].
    + by apply (inv_pending _ Hi) in H as [? _].
  - apply NoDup_app. split_and!; [apply Hi| |apply NoDup_fst_forEach_order].
    intros x Hx. rewrite Hkeys. apply (inv_settled _ Hi) in Hx as [_ Hx].
    rewrite Hx. by intros [? ?].
  - intros k Hk. right. rewrite elem_of_app, Hkeys.
    destruct (inv_issued _ Hi k Hk); auto.
  - rewrite map_size_empty, Hs, length_app, length_fmap, length_forEach_order.
    pose proof (inv_count _ Hi). lia.
  - rewrite map_size_empty. unfold MAX_PENDING_CALLS. lia.
  - done.
  - done.
  - intros ev s. by rewrite lookup_empty.
Qed.

Lemma inv_api_step st a : inv st -> inv (api_step st a).
Proof. destruct a; simpl; [apply inv_emit|apply inv_call|apply inv_destroy]. Qed.

Lemma inv_api_steps l st : inv st -> inv (foldl api_step st l).
Proof.
  revert st. induction l as [|a l IH]; intros st Hi; simpl; [done|].
  apply IH. by apply inv_api_step.
Qed.

Lemma inv_notify_re beh calls event data st cb :
  inv st -> inv (notify_re beh calls event data st cb).
Proof.
  intros Hi. unfold notify_re, invoke.
  assert (Hi2 : inv (foldl api_step (set_invoked (invoked st ++ [(cb, data)]) st)
                       (calls cb data))).
  { apply inv_api_steps. eapply inv_same_core; [|done]. repeat split. }
  destruct (beh cb data); try done. eapply inv_same_core; [|done]. repeat split.
Qed.

Lemma inv_notify_re_all beh calls event data callbacks st :
  inv st -> inv (foldl (notify_re beh calls event data) st callbacks).
Proof.
  revert st. induction callbacks as [|cb l IH]; intros st Hi; simpl; [done|].
  apply IH. by apply inv_notify_re.
Qed.

Lemma inv_serve_re beh calls id data callbacks st :
  inv st -> inv (serve_re beh calls id data callbacks st).
Proof.
  intros Hi. unfold serve_re, invoke. destruct callbacks as [|f l]; [done|].
  assert (Hi2 : inv (foldl api_step (set_invoked (invoked st ++ [(f, data)]) st)
                       (calls f data))).
  { apply inv_api_steps. eapply inv_same_core; [|done]. repeat split. }
  destruct (beh f data).
  - eapply inv_same_core; [|done]. repeat split.
  - eapply inv_same_core; [apply respond_error_same_core|done].
  - eapply inv_same_core; [|done]. repeat split.
  - eapply inv_same_core; [|done]. repeat split.
Qed.

Lemma inv_onmessage_re beh calls e_data st :
  inv st -> inv (onmessage_re beh calls e_data st).
Proof.
  intros Hi. unfold onmessage_re.
  destruct (isDestroyed st || negb (truthy e_data)); [done|].
  destruct (if truthy (get e_data "_ibox_res_id") then _ else None)
    as [[k w]|] eqn:E.
  - destruct (truthy (get e_data "_ibox_res_id")); [|done].
    apply pending_get_Some in E as [_ Hk].
    destruct (inv_pending _ Hi _ _ Hk) as (_ & Hp & Ht).
    destruct (truthy (get e_data "_ibox_error"));
      eapply (inv_remove st _ k w); eauto; simpl; by rewrite ?Hp, ?Ht.
  - destruct (if truthy (get e_data "event") then _ else None) as [callbacks|]; [|done].
    destruct (truthy (get e_data "_ibox_id")).
    + by apply inv_serve_re.
    + by apply inv_notify_re_all.
Qed.

Lemma inv_step st o : inv st -> inv (step st o).
Proof.
  destruct o; simpl.
  - apply inv_emit.
  - apply inv_call.
  - apply inv_on.
  - apply inv_off.
  - apply inv_destroy.
  - apply inv_onmessage.
  - apply inv_fire.
  - apply inv_resume.
  - apply inv_onmessage_re.
Qed.

Lemma inv_run ops st : inv st -> inv (run st ops).
Proof.
  revert st. induction ops as [|o ops IH]; intros st Hi; simpl; [done|].
  apply IH. by apply inv_step.
Qed.

Lemma inv_reachable st : reachable st -> inv st.
Proof. intros [ops ->]. apply inv_run, inv_createInterface. Qed.

(** ** The life of a call *)

Lemma get_VNum_truthy v key k : get v key = VNum k -> truthy v = true.
Proof.
  by destruct v.
Qed.

Lemma get_VStr_truthy v key s : get v key = VStr s -> truthy v = true.
Proof.
  by destruct v.
Qed.

(** A call that passes the guards and whose request can be cloned. *)
Lemma call_sent st event data timeout id st' :
  inv st ->
  call event data timeout st = (CallPromise id, st') ->
  cloneable data = true ->
  isDestroyed st = false /\ id = callId st + 1 /\
  st' = set_outbox (outbox st ++ [request_envelope event data id])
          (set_pendingCalls (<[id := {| w_promise := id; w_timer := id |}]> (pendingCalls st))
             (set_timers
                (<[id := {| t_call := id; t_event := event;
                            t_delay := default DEFAULT_TIMEOUT timeout |}]> (timers st))
                (set_callId id st))).
Proof.
  intros Hi Hcall Hdata. unfold call in Hcall.
  destruct (isDestroyed st) eqn:Hd; [done|].
  case_bool_decide; [done|].
  destruct (validateEvent event) as [t|e] eqn:Ev; [|done].
  apply validateEvent_Normal in Ev as (s & -> & _ & _).
  rewrite postMessage_Normal in Hcall by (simpl; by rewrite Hdata).
  simpl in Hcall. rewrite (inv_port _ Hi), Hd in Hcall.
  by injection Hcall as <- <-.
Qed.

Lemma onmessage_response beh e_data st k w :
  isDestroyed st = false ->
  get e_data "_ibox_res_id" = VNum k -> k <> 0 ->
  pendingCalls st !! k = Some w ->
  onmessage beh e_data st =
    (if truthy (get e_data "_ibox_error")
     then waiter_reject w ByResponse (new_Error (get e_data "_ibox_error"))
     else waiter_resolve w ByResponse (get e_data "data"))
      (set_pendingCalls (delete k (pendingCalls st)) st).
Proof.
  intros Hd Hres Hk Hw. unfold onmessage.
  rewrite Hd, (get_VNum_truthy _ _ _ Hres), Hres. simpl.
  destruct (Z.eqb_spec k 0) as [?|_]; [done|]. simpl. rewrite Hw. simpl.
  by destruct (truthy (get e_data "_ibox_error")).
Qed.

Lemma fire_pending st t tm w :
  timers st !! t = Some tm -> t_call tm = t -> pendingCalls st !! t = Some w ->
  fire t st =
    settle t ByTimeout (Rejected (VError (timeout_message (t_event tm) (t_delay tm))))
      (set_pendingCalls (delete t (pendingCalls st))
         (set_timers (delete t (timers st)) st)).
Proof.
  intros Ht Hc Hw. unfold fire. rewrite Ht, Hc. simpl. by rewrite Hw.
Qed.

Lemma extends_same st st' :
  settled st' = settled st -> callId st' = callId st -> extends st st'.
Proof.
  intros Hs Hc. exists []. rewrite Hs, Hc, app_nil_r.
  split_and!; [done|lia|]. intros p c s H. by apply elem_of_nil in H.
Qed.

Lemma extends_same_core st st' : same_core st st' -> extends st st'.
Proof. intros (_&_&Hc&_&_&_&Hs). by apply extends_same. Qed.

Lemma extends_one st st' p c s :
  settled st' = settled st ++ [(p, c, s)] -> callId st <= callId st' ->
  (c = BySendFailure -> callId st < p) -> extends st st'.
Proof.
  intros Hs Hc Hp. exists [(p, c, s)]. split_and!; [done|done|].
  intros p' c' s' H. apply list_elem_of_singleton in H. injection H as -> -> ->. done.
Qed.

Lemma extends_trans st1 st2 st3 : extends st1 st2 -> extends st2 st3 -> extends st1 st3.
Proof.
  intros (n1 & Hs1 & Hc1 & Hn1) (n2 & Hs2 & Hc2 & Hn2). exists (n1 ++ n2).
  split_and!; [by rewrite Hs2, Hs1, app_assoc|lia|].
  intros p c s. rewrite elem_of_app. intros [H|H] Hc.
  - by eapply Hn1.
  - specialize (Hn2 _ _ _ H Hc). lia.
Qed.

Lemma api_step_extends st a : inv st -> extends st (api_step st a).
Proof.
  intros Hi. destruct a; simpl.
  - apply extends_same_core, emit_same_core.
  - unfold call. destruct (isDestroyed st); [by apply extends_same|].
    case_bool_decide; [by apply extends_same|].
    destruct (validateEvent event); [|by apply extends_same].
    match goal with |- context [postMessage ?m ?s] => destruct (postMessage m s) as [st4|e] eqn:E end.
    + apply postMessage_same_core in E as (_&_&Hc&_&_&_&Hs). simpl in *.
      exists []. rewrite Hs, Hc, app_nil_r. split_and!; [done|lia|].
      intros p c s Hin. by apply elem_of_nil in Hin.
    + cbn [snd]. eapply extends_one; simpl; first [done|lia].
  - destruct (isDestroyed st) eqn:Hd.
    + unfold destroy. rewrite Hd. by apply extends_same.
    + destruct (destroy_live st Hi Hd) as (_&_&Hc&_&_&_&_&_&_&_&Hs).
      eexists. split_and!; [exact Hs|lia|].
      intros p c s Hin. apply list_elem_of_fmap in Hin as (x & [= _ -> _] & _). done.
Qed.

Lemma api_steps_extends l st : inv st -> extends st (foldl api_step st l).
Proof.
  revert st. induction l as [|a l IH]; intros st Hi; simpl.
  - by apply extends_same.
  - eapply extends_trans; [by apply api_step_extends|]. apply IH. by apply inv_api_step.
Qed.

Lemma notify_re_extends beh calls event data st cb :
  inv st -> extends st (notify_re beh calls event data st cb).
Proof.
  intros Hi. unfold notify_re, invoke.
  assert (He : extends st (foldl api_step (set_invoked (invoked st ++ [(cb, data)]) st)
                             (calls cb data))).
  { eapply extends_trans; [|apply api_steps_extends].
    - by apply extends_same.
    - eapply inv_same_core; [|done]. repeat split. }
  destruct (beh cb data); try done.
Qed.

Lemma notify_re_all_extends beh calls event data callbacks st :
  inv st -> extends st (foldl (notify_re beh calls event data) st callbacks).
Proof.
  revert st. induction callbacks as [|cb l IH]; intros st Hi; simpl.
  - by apply extends_same.
  - eapply extends_trans; [by apply notify_re_extends|]. apply IH. by apply inv_notify_re.
Qed.

Lemma serve_re_extends beh calls id data callbacks st :
  inv st -> extends st (serve_re beh calls id data callbacks st).
Proof.
  intros Hi. unfold serve_re, invoke. destruct callbacks as [|f l]; [by apply extends_same|].
  assert (He : extends st (foldl api_step (set_invoked (invoked st ++ [(f, data)]) st)
                             (calls f data))).
  { eapply extends_trans; [|apply api_steps_extends].
    - by apply extends_same.
    - eapply inv_same_core; [|done]. repeat split. }
  destruct (beh f data).
  - eapply extends_trans; [exact He|]. by apply extends_same.
  - eapply extends_trans; [exact He|]. apply extends_same_core, respond_error_same_core.
  - eapply extends_trans; [exact He|]. by apply extends_same.
  - eapply extends_trans; [exact He|]. by apply extends_same.
Qed.

(** Every step appends to the record of settlements; what it appends with
    cause [BySendFailure] belongs to a call issued by that very step. *)
Lemma step_settled st o :
  inv st ->
  exists new, settled (step st o) = settled st ++ new /\
    callId st <= callId (step st o) /\
    forall p c s, (p, c, s) ∈ new -> c = BySendFailure -> callId st < p.
Proof.
  intros Hi. change (extends st (step st o)).
  destruct o; simpl.
  - apply (api_step_extends st (ApiEmit event data) Hi).
  - apply (api_step_extends st (ApiCall event data timeout) Hi).
  - unfold on. destruct (validateEvent event); [|by apply extends_same].
    destruct event, cb; try (by apply extends_same).
  - unfold off. destruct event; try (by apply extends_same).
    destruct (handlers st !! s); [|by apply extends_same].
    simpl. case_bool_decide; by apply extends_same.
  - apply (api_step_extends st ApiDestroy Hi).
  - unfold onmessage.
    destruct (isDestroyed st || negb (truthy e_data)); [by apply extends_same|].
    destruct (if truthy (get e_data "_ibox_res_id") then _ else None) as [[k w]|].
    + destruct (truthy (get e_data "_ibox_error")); eapply extends_one; simpl; done.
    + destruct (if truthy (get e_data "event") then _ else None); [|by apply extends_same].
      destruct (truthy (get e_data "_ibox_id")).
      * apply extends_same_core, serve_same_core.
      * apply extends_same_core, notify_all_same_core.
  - unfold fire. destruct (timers st !! t) as [tm|]; [|by apply extends_same].
    simpl. destruct (pendingCalls st !! t_call tm).
    + eapply extends_one; simpl; done.
    + by apply extends_same.
  - apply extends_same_core, resume_same_core.
  - unfold onmessage_re.
    destruct (isDestroyed st || negb (truthy e_data)); [by apply extends_same|].
    destruct (if truthy (get e_data "_ibox_res_id") then _ else None) as [[k w]|].
    + destruct (truthy (get e_data "_ibox_error")); eapply extends_one; simpl; done.
    + destruct (if truthy (get e_data "event") then _ else None); [|by apply extends_same].
      destruct (truthy (get e_data "_ibox_id")).
      * by apply serve_re_extends.
      * by apply notify_re_all_extends.
Qed.

Lemma run_no_send_failure id ops st :
  inv st -> id <= callId st ->
  (forall s, (id, BySendFailure, s) ∉ settled st) ->
  forall s, (id, BySendFailure, s) ∉ settled (run st ops).
Proof.
  revert st. induction ops as [|o ops IH]; intros st Hi Hid Hno; simpl; [done|].
  destruct (step_settled st o Hi) as (new & Hs & Hc & Hnew).
  apply IH; [by apply inv_step|lia|].
  intros s. rewrite Hs, elem_of_app. intros [H|H]; [by apply Hno in H|].
  apply Hnew in H; [lia|done].
Qed.

Lemma run_callId_mono ops st : inv st -> callId st <= callId (run st ops).
Proof.
  revert st. induction ops as [|o ops IH]; intros st Hi; simpl; [lia|].
  destruct (step_settled st o Hi) as (_ & _ & Hc & _).
  specialize (IH (step st o) (inv_step _ _ Hi)). lia.
Qed.

(** C1, as amended.  A call that passes the guards of [call] and whose
    request is posted is in flight: it has an entry in the pending table, an
    armed timer and an unsettled promise.  A matching response, the expiry
    of its timer and [destroy()] each settle the promise on the spot and
    remove the entry (after a response or the timer the table is the one
    from before the call, after [destroy()] it is empty).  Whatever happens
    to the interface afterwards, the promise is never settled twice, it is
    settled exactly when the entry is gone, while the entry is there the
    timer stays armed and its expiry settles the promise and removes the
    entry, only a response, the timer or [destroy()] settles it, and the
    table holds exactly the calls issued and not yet settled. *)
Theorem call_settles_once st event data timeout id st' :
  reachable st ->
  call event data timeout st = (CallPromise id, st') ->
  cloneable data = true ->
  (id = callId st + 1 /\
   pendingCalls st !! id = None /\
   pendingCalls st' = <[id := {| w_promise := id; w_timer := id |}]> (pendingCalls st) /\
   is_Some (timers st' !! id) /\
   (id ∉ settled_ids st') /\
   outbox st' = outbox st ++ [request_envelope event data id]) /\
  (forall beh d,
     let st'' := onmessage beh (ok_envelope (VNum id) d) st' in
     settled st'' = settled st' ++ [(id, ByResponse, Fulfilled d)] /\
     pendingCalls st'' = pendingCalls st) /\
  (let st'' := fire id st' in
   settled st'' = settled st' ++
     [(id, ByTimeout,
       Rejected (VError (timeout_message event (default DEFAULT_TIMEOUT timeout))))] /\
   pendingCalls st'' = pendingCalls st) /\
  (let st'' := destroy st' in
   (id, ByDestroy, Rejected (VError "ibox: Connection destroyed")) ∈ settled st'' /\
   pendingCalls st'' = ∅) /\
  (forall ops,
     let st'' := run st' ops in
     NoDup (settled_ids st'') /\
     (id ∈ settled_ids st'' <-> pendingCalls st'' !! id = None) /\
     (is_Some (pendingCalls st'' !! id) ->
        is_Some (timers st'' !! id) /\
        exists r, settled (fire id st'') = settled st'' ++ [(id, ByTimeout, Rejected r)] /\
                  pendingCalls (fire id st'') = delete id (pendingCalls st'')) /\
     (forall c s, (id, c, s) ∈ settled st'' ->
        c = ByResponse \/ c = ByTimeout \/ c = ByDestroy) /\
     Z.of_nat (size (pendingCalls st'')) =
       callId st'' - Z.of_nat (length (settled st''))).
Proof.
  intros Hr Hcall Hdata. pose proof (inv_reachable _ Hr) as Hi.
  assert (Hi' : inv st').
  { pose proof (inv_call event data timeout st Hi) as H. by rewrite Hcall in H. }
  destruct (call_sent _ _ _ _ _ _ Hi Hcall Hdata) as (Hd & Hid & Hst').
  assert (Hfresh : pendingCalls st !! id = None).
  { destruct (pendingCalls st !! id) as [w|] eqn:E; [|done].
    apply (inv_pending _ Hi) in E. lia. }
  assert (Hnot : id ∉ settled_ids st).
  { intros H. apply (inv_settled _ Hi) in H. lia. }
  assert (Hpend : pendingCalls st' !! id = Some {| w_promise := id; w_timer := id |}).
  { rewrite Hst'. simpl. apply lookup_insert_eq. }
  assert (Htimer : timers st' !! id =
    Some {| t_call := id; t_event := event; t_delay := default DEFAULT_TIMEOUT timeout |}).
  { rewrite Hst'. simpl. apply lookup_insert_eq. }
  assert (Hd' : isDestroyed st' = false) by (by rewrite Hst').
  assert (Hset : settled st' = settled st) by (by rewrite Hst').
  assert (Hdel : delete id (pendingCalls st') = pendingCalls st).
  { rewrite Hst'. simpl. rewrite delete_insert_eq. by apply delete_id. }
  split_and!.
  - done.
  - done.
  - by rewrite Hst'.
  - rewrite Htimer. eauto.
  - unfold settled_ids. by rewrite Hset.
  - by rewrite Hst'.
  - intros beh d st''. unfold st''.
    pose proof (inv_callId _ Hi) as H0.
    rewrite (onmessage_response beh (ok_envelope (VNum id) d) st' id _ Hd' eq_refl
               ltac:(lia) Hpend).
    simpl. by rewrite Hdel.
  - simpl. rewrite (fire_pending st' id _ _ Htimer eq_refl Hpend). simpl.
    by rewrite Hdel.
  - simpl. destruct (destroy_live st' Hi' Hd') as (_&Hp&_&_&_&_&_&_&_&_&Hs).
    split; [|done]. rewrite Hs, elem_of_app. right.
    apply list_elem_of_fmap. eexists (id, _). split; [done|].
    by apply elem_of_forEach_order.
  - intros ops st''. unfold st''. clear st''.
    pose proof (inv_run ops st' Hi') as Hi''.
    pose proof (run_callId_mono ops st' Hi') as Hmono.
    assert (Hle : 1 <= id <= callId (run st' ops)).
    { apply (inv_pending _ Hi') in Hpend. lia. }
    split_and!.
    + apply Hi''.
    + split.
      * intros H. by apply (inv_settled _ Hi'') in H as [_ ?].
      * intros H. destruct (inv_issued _ Hi'' id Hle) as [[w Hw]|?]; [congruence|done].
    + intros [w Hw].
      assert (is_Some (timers (run st' ops) !! id)) as [tm Htm].
      { apply elem_of_dom. rewrite (inv_timers _ Hi''). apply elem_of_dom. eauto. }
      split; [eauto|]. eexists.
      rewrite (fire_pending _ id tm w Htm (inv_timer_call _ Hi'' _ _ Htm) Hw). done.
    + intros c s Hin.
      assert (c <> BySendFailure).
      { intros ->. revert Hin. apply run_no_send_failure; [done| |].
        - apply (inv_pending _ Hi') in Hpend. lia.
        - intros s' Hs'. apply Hnot. unfold settled_ids.
          rewrite Hset in Hs'. apply list_elem_of_fmap. exists (id, BySendFailure).
          split; [done|]. apply list_elem_of_fmap. by exists (id, BySendFailure, s'). }
      destruct c; auto. done.
    + pose proof (inv_count _ Hi''). lia.
Qed.

Lemma call_settles_once_witness :
  let st' := (call (VStr "ping") VNull None (createInterface None)).2 in
  settled (fire 1 st') =
    [(1, ByTimeout, Rejected (VError "ibox: Timeout [ping] after 10000ms"))] /\
  pendingCalls (fire 1 st') = ∅.
Proof.
  exact (proj1 (proj2 (proj2
    (call_settles_once (createInterface None) (VStr "ping") VNull None 1 _
       (ex_intro _ [] eq_refl) eq_refl eq_refl)))).
Defined.

(** C1, as stated, fails: a fresh interface is asked to call ["ping"] with a
    function as payload.  [postMessage] throws, the [catch] block removes
    the entry and rejects the promise of the call with ["ibox: Send
    failed"]: the promise is settled although no response arrived, no timer
    expired and [destroy()] was not invoked.  Likewise, after [destroy()] a
    call is rejected at entry, by the guard and not by [destroy()] itself,
    and never gets an entry. *)
Lemma call_settled_by_failed_send :
  let r := call (VStr "ping") (VFun 0) None (createInterface None) in
  let r' := call (VStr "ping") VNull None busy_then_destroyed in
  r.1 = CallPromise 1 /\
  settled r.2 = [(1, BySendFailure, Rejected (VError "ibox: Send failed"))] /\
  pendingCalls r.2 = ∅ /\ timers r.2 = ∅ /\ outbox r.2 = [] /\
  r'.1 = CallRejected (VError "ibox: Instance destroyed") /\
  r'.2 = busy_then_destroyed.
Proof. vm_compute. repeat split. Qed.

(** ** The dispatcher *)

Lemma trim_nonempty ev : trim ev <> ""%string -> ev <> ""%string.
Proof. intros H ->. by apply H. Qed.

Lemma cloneable_lookup_field k fs :
  cloneable (VObj fs) = true -> cloneable (lookup_field k fs) = true.
Proof.
  induction fs as [|[k' v] fs IH]; simpl; [done|].
  intros [Hv Hfs]%andb_true_iff. destruct (String.eqb k k'); [done|]. by apply IH.
Qed.

Lemma cloneable_get v k : cloneable v = true -> cloneable (get v k) = true.
Proof.
  destruct v; simpl; try done.
  - by destruct (String.eqb k "message").
  - apply cloneable_lookup_field.
Qed.

Lemma answers_pending_false e_data st :
  answers_pending e_data st = false ->
  (if truthy (get e_data "_ibox_res_id")
   then pending_get (get e_data "_ibox_res_id") st else None) = None.
Proof.
  unfold answers_pending. destruct (truthy _); [|done]. simpl.
  destruct (pending_get _ st) eqn:E; [|done].
  intros H. apply bool_decide_eq_false in H. by destruct H.
Qed.

(** A message that names an event with registered callbacks and answers no
    pending call reaches the second branch of the listener. *)
Lemma onmessage_event beh e_data st ev callbacks :
  inv st -> isDestroyed st = false ->
  get e_data "event" = VStr ev ->
  handlers st !! ev = Some callbacks ->
  answers_pending e_data st = false ->
  onmessage beh e_data st =
    if truthy (get e_data "_ibox_id")
    then serve beh (get e_data "_ibox_id") (get e_data "data") callbacks st
    else foldl (notify beh (VStr ev) (get e_data "data")) st callbacks.
Proof.
  intros Hi Hd Hev Hh Hno. unfold onmessage.
  rewrite Hd, (get_VStr_truthy _ _ _ Hev), (answers_pending_false _ _ Hno), Hev.
  simpl. apply (inv_handlers _ Hi) in Hh as Hwf. destruct Hwf as (_ & _ & Hne).
  apply trim_nonempty in Hne.
  destruct (String.eqb_spec ev "") as [?|_]; [done|]. simpl. by rewrite Hh.
Qed.

Lemma postMessage_open msg st :
  port_closed st = false -> cloneable msg = true ->
  postMessage msg st = Normal (set_outbox (outbox st ++ [msg]) st).
Proof. intros Hp Hc. rewrite postMessage_Normal by done. by rewrite Hp. Qed.

Lemma respond_error_sent id err m st :
  port_closed st = false -> cloneable id = true ->
  read err "message" = Normal m -> cloneable m = true ->
  respond_error id err st = set_outbox (outbox st ++ [error_envelope id m]) st.
Proof.
  intros Hp Hid Hm Hc. unfold respond_error. rewrite Hm.
  rewrite postMessage_open; [done|done|]. simpl. by rewrite Hid, Hc.
Qed.

Lemma respond_fulfilled_sent id v st :
  port_closed st = false -> cloneable id = true -> cloneable v = true ->
  respond id (Fulfilled v) st = set_outbox (outbox st ++ [ok_envelope id v]) st.
Proof.
  intros Hp Hid Hc. simpl.
  rewrite postMessage_open; [done|done|]. simpl. by rewrite Hid, Hc.
Qed.


Lemma resume_last st id s l :
  awaiting st = l ++ [(id, s)] ->
  resume (length l) st = respond id s (set_awaiting l st).
Proof.
  intros H. unfold resume. rewrite H, list_lookup_middle by done.
  by rewrite delete_middle, app_nil_r.
Qed.

Lemma respond_error_closed id err st :
  port_closed st = true ->
  outbox (respond_error id err st) = outbox st /\
  invoked (respond_error id err st) = invoked st /\
  console (respond_error id err st) = console st /\
  awaiting (respond_error id err st) = awaiting st.
Proof.
  intros Hp. unfold respond_error. destruct (read err "message"); [|done].
  unfold postMessage. destruct (cloneable _); [|done]. by rewrite Hp.
Qed.

Lemma respond_closed id s st :
  port_closed st = true ->
  outbox (respond id s st) = outbox st /\
  invoked (respond id s st) = invoked st /\
  console (respond id s st) = console st /\
  awaiting (respond id s st) = awaiting st.
Proof.
  intros Hp. destruct s; simpl; [|by apply respond_error_closed].
  unfold postMessage. destruct (cloneable _); [by rewrite Hp|].
  by apply respond_error_closed.
Qed.




Lemma emit_awaiting event data st : awaiting (emit event data st).2 = awaiting st.
Proof.
  unfold emit. destruct (isDestroyed st); [done|].
  destruct (validateEvent event); [|done].
  unfold postMessage. destruct (cloneable _); [|done]. by destruct (port_closed st).
Qed.

Lemma call_awaiting event data timeout st :
  awaiting (call event data timeout st).2 = awaiting st.
Proof.
  unfold call. destruct (isDestroyed st); [done|]. case_bool_decide; [done|].
  destruct (validateEvent event); [|done].
  unfold postMessage. destruct (cloneable _); [|done]. simpl.
  by destruct (port_closed st).
Qed.

Lemma destroy_awaiting st : awaiting (destroy st) = awaiting st.
Proof.
  unfold destroy. destruct (isDestroyed st); [done|]. simpl.
  match goal with |- context [foldl ?f ?s ?l] =>
    destruct (reject_all_fields l ByDestroy (VError "ibox: Connection destroyed") s)
      as (_&_&_&_&_&_&_&_&H&_) end.
  by rewrite H.
Qed.

Lemma api_steps_awaiting l st : awaiting (foldl api_step st l) = awaiting st.
Proof.
  revert st. induction l as [|a l IH]; intros st; simpl; [done|].
  rewrite IH. destruct a; simpl.
  - apply emit_awaiting.
  - apply call_awaiting.
  - apply destroy_awaiting.
Qed.


Lemma notify_re_all_awaiting beh calls event data callbacks st :
  awaiting (foldl (notify_re beh calls event data) st callbacks) = awaiting st.
Proof.
  revert st. induction callbacks as [|cb l IH]; intros st; simpl; [done|].
  rewrite IH. unfold notify_re, invoke.
  destruct (beh cb data); simpl; by rewrite api_steps_awaiting.
Qed.







Lemma api_step_fields st a :
  invoked (api_step st a) = invoked st /\ console (api_step st a) = console st /\
  awaiting (api_step st a) = awaiting st /\
  (isDestroyed (api_step st a) = true <-> isDestroyed st = true \/ a = ApiDestroy).
Proof.
  destruct a; simpl.
  - split_and!; [| |apply emit_awaiting|].
    + unfold emit. destruct (isDestroyed st); [done|].
      destruct (validateEvent event); [|done].
      unfold postMessage. destruct (cloneable _); [|done]. by destruct (port_closed st).
    + unfold emit. destruct (isDestroyed st); [done|].
      destruct (validateEvent event); [|done].
      unfold postMessage. destruct (cloneable _); [|done]. by destruct (port_closed st).
    + destruct (emit_same_core event data st) as (_&_&_&H&_). rewrite H.
      split; [by left|]. by intros [?|?].
  - split_and!; [| |apply call_awaiting|].
    + unfold call. destruct (isDestroyed st); [done|]. case_bool_decide; [done|].
      destruct (validateEvent event); [|done].
      unfold postMessage. destruct (cloneable _); [|done]. simpl.
      by destruct (port_closed st).
    + unfold call. destruct (isDestroyed st); [done|]. case_bool_decide; [done|].
      destruct (validateEvent event); [|done].
      unfold postMessage. destruct (cloneable _); [|done]. simpl.
      by destruct (port_closed st).
    + assert (E : isDestroyed (call event data timeout st).2 = isDestroyed st).
      { unfold call. destruct (isDestroyed st) eqn:Hd; [done|]. case_bool_decide; [done|].
        destruct (validateEvent event); [|done].
        unfold postMessage. destruct (cloneable _); [|done]. simpl.
        by destruct (port_closed st). }
      rewrite E. split; [by left|]. by intros [?|?].
  - unfold destroy. destruct (isDestroyed st) eqn:Hd.
    + split_and!; try done. split; [by left|]. by intros _.
    + simpl.
      match goal with |- context [foldl ?f ?s ?l] =>
        destruct (reject_all_fields l ByDestroy (VError "ibox: Connection destroyed") s)
          as (_&_&_&Hdd&_&_&Hc&Hin&Ha&_) end.
      simpl in *. rewrite Hc, Hin, Ha, Hdd. split_and!; try done. split; [by right|done].
Qed.

Lemma api_steps_fields l st :
  invoked (foldl api_step st l) = invoked st /\
  console (foldl api_step st l) = console st /\
  (isDestroyed (foldl api_step st l) = true <-> isDestroyed st = true \/ ApiDestroy ∈ l).
Proof.
  revert st. induction l as [|a l IH]; intros st; simpl.
  - split_and!; try done. split; [by left|]. intros [?|H]; [done|]. by apply elem_of_nil in H.
  - destruct (IH (api_step st a)) as (Hin & Hc & Hd).
    destruct (api_step_fields st a) as (Hin' & Hc' & _ & Hd').
    rewrite Hin, Hc, Hin', Hc'. split_and!; try done.
    rewrite Hd, Hd', elem_of_cons. split.
    + intros [[?|?]|?]; auto.
    + intros [?|[?|?]]; auto.
Qed.

Lemma notify_re_all beh calls event data callbacks st :
  let st' := foldl (notify_re beh calls event data) st callbacks in
  invoked st' = invoked st ++ ((fun cb => (cb, data)) <$> callbacks) /\
  console st' = console st ++
    omap (fun cb => match beh cb data with
                    | Throws err =>
                        Some ("ibox: Handler error [" +:+ ToString event +:+ "]:", err)
                    | _ => None
                    end) callbacks /\
  (isDestroyed st' = true <->
     isDestroyed st = true \/ exists cb, cb ∈ callbacks /\ ApiDestroy ∈ calls cb data).
Proof.
  revert st. induction callbacks as [|cb l IH]; intros st.
  - simpl. rewrite !app_nil_r. split_and!; try done. split; [by left|].
    intros [?|(cb & H & _)]; [done|]. by apply elem_of_nil in H.
  - cbn [foldl]. destruct (IH (notify_re beh calls event data st cb)) as (Hi & Hc & Hd).
    rewrite Hi, Hc, Hd. rewrite fmap_cons. cbn [omap list_omap].
    destruct (api_steps_fields (calls cb data) (set_invoked (invoked st ++ [(cb, data)]) st))
      as (Hin & Hco & Hde).
    assert (Hdn : isDestroyed (notify_re beh calls event data st cb) = true <->
                  isDestroyed st = true \/ ApiDestroy ∈ calls cb data).
    { rewrite <- Hde. unfold notify_re, invoke. by destruct (beh cb data). }
    split_and!.
    + unfold notify_re, invoke.
      destruct (beh cb data); unfold set_console; cbn [invoked]; rewrite Hin; simpl;
        by rewrite <- app_assoc.
    + unfold notify_re, invoke.
      destruct (beh cb data); unfold set_console; cbn [console]; rewrite Hco; simpl;
        by rewrite <- ?app_assoc.
    + rewrite Hdn. split.
      * intros [[?|?]|(cb' & ? & ?)]; [by left| |].
        -- right. exists cb. split; [apply list_elem_of_here|done].
        -- right. exists cb'. split; [by apply list_elem_of_further|done].
      * intros [?|(cb' & [->|?]%elem_of_cons & ?)]; [by left; left|by left; right|].
        right. by exists cb'.
Qed.


Lemma onmessage_re_event beh calls e_data st ev callbacks :
  inv st -> isDestroyed st = false ->
  get e_data "event" = VStr ev ->
  handlers st !! ev = Some callbacks ->
  answers_pending e_data st = false ->
  onmessage_re beh calls e_data st =
    if truthy (get e_data "_ibox_id")
    then serve_re beh calls (get e_data "_ibox_id") (get e_data "data") callbacks st
    else foldl (notify_re beh calls (VStr ev) (get e_data "data")) st callbacks.
Proof.
  intros Hi Hd Hev Hh Hno. unfold onmessage_re.
  rewrite Hd, (get_VStr_truthy _ _ _ Hev), (answers_pending_false _ _ Hno), Hev.
  simpl. apply (inv_handlers _ Hi) in Hh as Hwf. destruct Hwf as (_ & _ & Hne).
  apply trim_nonempty in Hne.
  destruct (String.eqb_spec ev "") as [?|_]; [done|]. simpl. by rewrite Hh.
Qed.





(** A failure that has no [message] to read is not answered at all: the
    handler rejects with [undefined], [err.message] throws inside the
    [catch] block and nothing is posted. *)
Remark failure_without_message_unanswered :
  let st2 := resume 0 (onmessage first_rejects_undefined get_request two_handlers) in
  invoked st2 = [(7%nat, VNum 123)] /\ outbox st2 = [] /\ awaiting st2 = [].
Proof. vm_compute. repeat split. Qed.

(** What the dispatcher does with a response.  An inbound envelope whose
    [_ibox_res_id] is the key of an entry of the pending table makes it
    remove that entry, clear the timer of the call and settle its promise
    once: rejected with [new Error(_ibox_error)] when [_ibox_error] is
    truthy (for a non-empty string, an error with that string as message),
    fulfilled with [data] otherwise.  No handler is invoked, nothing is
    posted, nothing is logged, and the handler registry is unchanged. *)
Lemma response_settles_pending_call st beh e_data k w :
  reachable st ->
  get e_data "_ibox_res_id" = VNum k ->
  pendingCalls st !! k = Some w ->
  let error := get e_data "_ibox_error" in
  let st1 := onmessage beh e_data st in
  pendingCalls st1 = delete k (pendingCalls st) /\
  is_Some (timers st !! k) /\ timers st1 = delete k (timers st) /\
  settled st1 = settled st ++
    [(k, ByResponse,
      if truthy error then Rejected (new_Error error)
      else Fulfilled (get e_data "data"))] /\
  (forall s, error = VStr s -> s <> ""%string ->
     settled st1 = settled st ++ [(k, ByResponse, Rejected (VError s))]) /\
  (k ∉ settled_ids st) /\
  invoked st1 = invoked st /\ outbox st1 = outbox st /\
  console st1 = console st /\ awaiting st1 = awaiting st /\
  handlers st1 = handlers st.
Proof.
  intros Hr Hres Hw error st1. pose proof (inv_reachable _ Hr) as Hi.
  destruct (inv_pending _ Hi _ _ Hw) as (Hk & Hp & Ht).
  assert (Hd : isDestroyed st = false).
  { destruct (isDestroyed st) eqn:E; [|done].
    apply (inv_destroyed _ Hi) in E. rewrite E in Hw. by rewrite lookup_empty in Hw. }
  assert (Hst1 : st1 =
    (if truthy error then waiter_reject w ByResponse (new_Error error)
     else waiter_resolve w ByResponse (get e_data "data"))
      (set_pendingCalls (delete k (pendingCalls st)) st)).
  { apply onmessage_response; [done|done|lia|done]. }
  assert (Hgen : settled st1 = settled st ++
    [(k, ByResponse,
      if truthy error then Rejected (new_Error error)
      else Fulfilled (get e_data "data"))]).
  { rewrite Hst1. destruct (truthy error); simpl; by rewrite Hp. }
  split_and!.
  - rewrite Hst1. by destruct (truthy error).
  - apply elem_of_dom. rewrite (inv_timers _ Hi). apply elem_of_dom. eauto.
  - rewrite Hst1. destruct (truthy error); simpl; by rewrite Ht.
  - done.
  - intros s Hs Hne. rewrite Hgen, Hs. simpl.
    destruct (String.eqb_spec s "") as [?|_]; [done|]. done.
  - intros Hin. apply (inv_settled _ Hi) in Hin as [_ ?]. congruence.
  - rewrite Hst1. by destruct (truthy error).
  - rewrite Hst1. by destruct (truthy error).
  - rewrite Hst1. by destruct (truthy error).
  - rewrite Hst1. by destruct (truthy error).
  - rewrite Hst1. by destruct (truthy error).
Qed.

Lemma response_settles_pending_call_witness :
  let st1 := onmessage first_fulfils (error_envelope (VNum 1) (VStr "no such user")) one_call in
  settled st1 = [(1, ByResponse, Rejected (VError "no such user"))] /\
  pendingCalls st1 = ∅ /\ timers st1 = ∅ /\ invoked st1 = [].
Proof.
  destruct (response_settles_pending_call one_call first_fulfils
              (error_envelope (VNum 1) (VStr "no such user")) 1
              {| w_promise := 1; w_timer := 1 |}
              (ex_intro _ [Call (VStr "ping") VNull None] eq_refl) eq_refl eq_refl)
    as (H1 & _ & H2 & _ & H3 & _ & H4 & _).
  split_and!; [exact (H3 "no such user" eq_refl ltac:(discriminate))
              | exact H1 | exact H2 | exact H4].
Defined.

(** C3 at a failing input.  The peer serves request 1 with a handler that
    throws [new Error("")]: its [catch] block posts the response
    [{_ibox_res_id: 1, _ibox_error: ""}].  On the calling side that
    response carries an error message, the empty string, and matches the
    pending call 1; the dispatcher tests the message for truthiness and
    fulfils the call (with [undefined]) instead of rejecting it. *)
Lemma empty_error_message_fulfils :
  let response := error_envelope (VNum 1) (VStr "") in
  let peer := onmessage first_throws_empty (request_envelope (VStr "get") VNull 1) two_handlers in
  let caller := onmessage first_fulfils response one_call in
  outbox peer = [response] /\
  get response "_ibox_error" = VStr "" /\
  is_Some (pendingCalls one_call !! 1) /\
  settled caller = [(1, ByResponse, Fulfilled VUndefined)] /\
  pendingCalls caller = ∅.
Proof. vm_compute. repeat split. by eexists. Qed.

(** What the loop of the emit mode leaves behind. *)
Lemma notify_all beh event data callbacks st :
  let st' := foldl (notify beh event data) st callbacks in
  invoked st' = invoked st ++ ((fun cb => (cb, data)) <$> callbacks) /\
  console st' = console st ++
    omap (fun cb => match beh cb data with
                    | Throws err =>
                        Some ("ibox: Handler error [" +:+ ToString event +:+ "]:", err)
                    | _ => None
                    end) callbacks /\
  outbox st' = outbox st /\ awaiting st' = awaiting st.
Proof.
  revert st. induction callbacks as [|cb l IH]; intros st.
  - simpl. by rewrite !app_nil_r.
  - cbn [foldl]. destruct (IH (notify beh event data st cb)) as (Hi & Hc & Ho & Ha).
    rewrite Hi, Hc, Ho, Ha. rewrite fmap_cons. cbn [omap list_omap].
    unfold notify. destruct (beh cb data); simpl; by rewrite <- ?app_assoc.
Qed.

Lemma on_appends st ev callbacks cb :
  trim ev <> ""%string ->
  handlers st !! ev = Some callbacks -> cb ∉ callbacks ->
  (on (VStr ev) (VFun cb) st).1 = Normal {| u_event := VStr ev; u_cb := VFun cb |} /\
  handlers (on (VStr ev) (VFun cb) st).2 !! ev = Some (callbacks ++ [cb]).
Proof.
  intros Hev Hh Hcb. unfold on. rewrite validateEvent_VStr by done. simpl.
  split; [done|]. rewrite lookup_insert_eq, Hh. simpl.
  unfold set_add. by rewrite bool_decide_eq_false_2.
Qed.

(** C4, as amended.  On a live interface, an inbound envelope that names an
    event with registered handlers, carries no truthy [_ibox_id] and
    answers no pending call makes the dispatcher invoke every registered
    handler with the payload, in registration order (a handler registered
    later goes to the end of the set).  A handler that throws does not stop
    the loop, and what it threw is written with [console.error]; nothing
    else is logged, nothing is posted, no listener run is left suspended,
    and the tables are unchanged.  What a handler returns, a promise that
    rejects included, is dropped. *)
Theorem event_notifies_every_handler st beh e_data ev callbacks :
  reachable st -> isDestroyed st = false ->
  get e_data "event" = VStr ev ->
  handlers st !! ev = Some callbacks ->
  truthy (get e_data "_ibox_id") = false ->
  answers_pending e_data st = false ->
  let payload := get e_data "data" in
  let st1 := onmessage beh e_data st in
  invoked st1 = invoked st ++ ((fun cb => (cb, payload)) <$> callbacks) /\
  console st1 = console st ++
    omap (fun cb => match beh cb payload with
                    | Throws err => Some ("ibox: Handler error [" +:+ ev +:+ "]:", err)
                    | _ => None
                    end) callbacks /\
  outbox st1 = outbox st /\ awaiting st1 = awaiting st /\ same_core st st1 /\
  (forall cb, cb ∉ callbacks ->
     handlers (on (VStr ev) (VFun cb) st).2 !! ev = Some (callbacks ++ [cb])).
Proof.
  intros Hr Hd Hev Hh Hid Hno payload st1.
  pose proof (inv_reachable _ Hr) as Hi.
  assert (Hst1 : st1 = foldl (notify beh (VStr ev) payload) st callbacks).
  { unfold st1. rewrite (onmessage_event beh e_data st ev _ Hi Hd Hev Hh Hno).
    by rewrite Hid. }
  destruct (notify_all beh (VStr ev) payload callbacks st) as (H1 & H2 & H3 & H4).
  rewrite Hst1. split_and!; try done.
  - apply notify_all_same_core.
  - intros cb Hcb. apply on_appends; [|done|done].
    by apply (inv_handlers _ Hi) in Hh as (_ & _ & ?).
Qed.

Lemma event_notifies_every_handler_witness :
  let st1 := onmessage first_throws get_event two_handlers in
  invoked st1 = [(7%nat, VNum 123); (8%nat, VNum 123)] /\
  console st1 = [("ibox: Handler error [get]:"%string, VError "boom")] /\
  outbox st1 = [].
Proof.
  destruct (event_notifies_every_handler two_handlers first_throws get_event
              "get" [7%nat; 8%nat]
              (ex_intro _ [On (VStr "get") (VFun 7); On (VStr "get") (VFun 8)] eq_refl)
              eq_refl eq_refl eq_refl eq_refl eq_refl)
    as (H1 & H2 & H3 & _).
  split_and!; [exact H1 | exact H2 | exact H3].
Defined.

(** C4, as stated, fails: callback 7 returns a promise that rejects.  Both
    callbacks are invoked, but the rejection is not written to the
    console: the dispatcher never looks at what a callback returns. *)
Lemma rejecting_handler_not_reported :
  let st1 := onmessage first_rejects get_event two_handlers in
  first_rejects 7%nat (VNum 123) = Rejects (VError "boom") /\
  invoked st1 = [(7%nat, VNum 123); (8%nat, VNum 123)] /\
  console st1 = [].
Proof. vm_compute. repeat split. Qed.

(** ** Tearing down *)

Lemma destroyed_step st o : isDestroyed st = true -> isDestroyed (step st o) = true.
Proof.
  intros Hd. destruct o; simpl.
  - destruct (emit_same_core event data st) as (_&_&_&H&_). by rewrite H.
  - unfold call. by rewrite Hd.
  - unfold on. destruct (validateEvent event); [|done]. by destruct event, cb.
  - unfold off. destruct event; try done. destruct (handlers st !! s); [|done].
    simpl. by case_bool_decide.
  - unfold destroy. by rewrite Hd.
  - unfold onmessage. by rewrite Hd.
  - unfold fire. destruct (timers st !! t); [|done]. simpl.
    by destruct (pendingCalls st !! _).
  - destruct (resume_same_core k st) as (_&_&_&H&_). by rewrite H.
  - unfold onmessage_re. by rewrite Hd.
Qed.

Lemma destroyed_run ops st : isDestroyed st = true -> isDestroyed (run st ops) = true.
Proof.
  revert st. induction ops as [|o ops IH]; intros st Hd; simpl; [done|].
  by apply IH, destroyed_step.
Qed.

(** C5.  [destroy()] on a live interface marks it destroyed, closes the
    port, rejects every pending call with ["ibox: Connection destroyed"]
    (those calls and no others), clears the pending table, their timers and
    the handler registry.  A second [destroy()] changes nothing, and so does
    every later one; from then on [emit] throws and [call] returns a promise
    rejected with ["ibox: Instance destroyed"], both without touching the
    interface. *)
Theorem destroy_tears_down st :
  reachable st -> isDestroyed st = false ->
  let d := destroy st in
  let reason := Rejected (VError "ibox: Connection destroyed") in
  isDestroyed d = true /\ port_closed d = true /\
  pendingCalls d = ∅ /\ timers d = ∅ /\ handlers d = ∅ /\
  (forall k, is_Some (pendingCalls st !! k) -> (k, ByDestroy, reason) ∈ settled d) /\
  (forall x, x ∈ settled d ->
     x ∈ settled st \/
     exists k, is_Some (pendingCalls st !! k) /\ x = (k, ByDestroy, reason)) /\
  destroy d = d /\
  (forall ops event data timeout,
     let st' := run d ops in
     destroy st' = st' /\
     emit event data st' = (Abrupt (VError "ibox: Instance destroyed"), st') /\
     call event data timeout st' =
       (CallRejected (VError "ibox: Instance destroyed"), st')).
Proof.
  intros Hr Hd d reason. pose proof (inv_reachable _ Hr) as Hi.
  destruct (destroy_live st Hi Hd) as (Hh&Hp&_&Hd'&Hpc&_&_&_&_&Ht&Hs).
  fold d in Hh, Hp, Hd', Hpc, Ht, Hs.
  split_and!; try done.
  - intros k [w Hw]. rewrite Hs, elem_of_app. right.
    apply list_elem_of_fmap. exists (k, w). split; [done|]. by apply elem_of_forEach_order.
  - intros x. rewrite Hs, elem_of_app. intros [?|Hx]; [by left|right].
    apply list_elem_of_fmap in Hx as ([k w] & -> & Hin).
    apply elem_of_forEach_order in Hin. exists k. eauto.
  - unfold destroy at 1. by rewrite Hd'.
  - intros ops event data timeout st'.
    assert (Hd'' : isDestroyed st' = true) by (by apply destroyed_run).
    split_and!.
    + unfold destroy. by rewrite Hd''.
    + unfold emit. by rewrite Hd''.
    + unfold call. by rewrite Hd''.
Qed.

Lemma destroy_tears_down_witness :
  let st := run (createInterface None)
              [On (VStr "get") (VFun 7); Call (VStr "ping") VNull None] in
  settled (destroy st) =
    [(1, ByDestroy, Rejected (VError "ibox: Connection destroyed"))] /\
  pendingCalls (destroy st) = ∅ /\ handlers (destroy st) = ∅ /\
  destroy (destroy st) = destroy st /\
  (emit (VStr "get") VNull (destroy st)).1 = Abrupt (VError "ibox: Instance destroyed").
Proof.
  destruct (destroy_tears_down
              (run (createInterface None)
                 [On (VStr "get") (VFun 7); Call (VStr "ping") VNull None])
              (ex_intro _ [On (VStr "get") (VFun 7); Call (VStr "ping") VNull None] eq_refl)
              eq_refl)
    as (_ & _ & H1 & _ & H2 & _ & _ & H3 & H4).
  destruct (H4 [] (VStr "get") VNull None) as (_ & H5 & _).
  split_and!; [reflexivity | exact H1 | exact H2 | exact H3 | exact (f_equal fst H5)].
Defined.

(** ** Usage errors *)

Lemma validateEvent_invalid event :
  valid_event_name event = false -> validateEvent event = Abrupt name_error.
Proof.
  destruct event; simpl; try done. by intros ->.
Qed.

Lemma validateEvent_valid event :
  valid_event_name event = true ->
  exists s, event = VStr s /\ validateEvent event = Normal (trim s).
Proof.
  destruct event; simpl; try done. intros ->. eauto.
Qed.

(** White space beyond ASCII is trimmed like a blank: a name made of a
    no-break space, a blank, an em space and a byte order mark is empty
    once trimmed, and around ["get"] they are all stripped. *)
Remark trim_strips_unicode_space :
  trim blank_name = ""%string /\ trim padded_get = "get"%string /\
  trim " a  b "%string = "a  b"%string /\
  valid_event_name (VStr blank_name) = false /\
  valid_event_name (VStr padded_get) = true.
Proof. vm_compute. repeat split. Qed.

(** C6, as amended.  A bad event name makes [emit] (on a live instance),
    [on] and [call] (on a live instance below capacity) throw at once and
    leave the interface as it was; so does a handler that is not a function
    passed to [on], and so does [emit] on a destroyed instance.  [on] and
    [off] do not look at the destroyed flag: [on] with a good name and a
    function returns its unsubscribe function on any instance, and [off]
    never throws, whatever it is given. *)
Theorem usage_errors_are_thrown st event data cb timeout :
  (valid_event_name event = false ->
     (isDestroyed st = false -> emit event data st = (Abrupt name_error, st)) /\
     on event cb st = (Abrupt name_error, st) /\
     (isDestroyed st = false -> (size (pendingCalls st) < MAX_PENDING_CALLS)%nat ->
        call event data timeout st = (CallThrows name_error, st))) /\
  (valid_event_name event = true -> is_function cb = false ->
     on event cb st = (Abrupt (VError "ibox: Handler must be a function"), st)) /\
  (isDestroyed st = true ->
     emit event data st = (Abrupt (VError "ibox: Instance destroyed"), st)) /\
  (valid_event_name event = true -> is_function cb = true ->
     (on event cb st).1 = Normal {| u_event := event; u_cb := cb |}) /\
  (off event cb st).1 = Normal ().
Proof.
  split_and!.
  - intros Hbad. apply validateEvent_invalid in Hbad. split_and!.
    + intros Hd. unfold emit. by rewrite Hd, Hbad.
    + unfold on. by rewrite Hbad.
    + intros Hd Hsz. unfold call. rewrite Hd, Hbad.
      rewrite bool_decide_eq_false_2; [done|lia].
  - intros Hok Hcb. apply validateEvent_valid in Hok as (s & -> & Hv).
    unfold on. rewrite Hv. by destruct cb.
  - intros Hd. unfold emit. by rewrite Hd.
  - intros Hok Hcb. apply validateEvent_valid in Hok as (s & -> & Hv).
    unfold on. rewrite Hv. by destruct cb.
  - unfold off. destruct event; try done. by destruct (handlers st !! s).
Qed.

Lemma usage_errors_are_thrown_witness :
  emit (VStr "   ") VNull two_handlers = (Abrupt name_error, two_handlers) /\
  on (VStr blank_name) (VFun 7) two_handlers = (Abrupt name_error, two_handlers) /\
  on (VNum 3) (VFun 7) two_handlers = (Abrupt name_error, two_handlers) /\
  call VUndefined VNull None two_handlers = (CallThrows name_error, two_handlers) /\
  on (VStr "get") (VStr "not a function") two_handlers =
    (Abrupt (VError "ibox: Handler must be a function"), two_handlers) /\
  emit (VStr "get") VNull busy_then_destroyed =
    (Abrupt (VError "ibox: Instance destroyed"), busy_then_destroyed).
Proof.
  split_and!.
  - exact (proj1 (proj1 (usage_errors_are_thrown two_handlers (VStr "   ") VNull VNull None)
                    eq_refl) eq_refl).
  - exact (proj1 (proj2 (proj1 (usage_errors_are_thrown two_handlers (VStr blank_name) VNull
                    (VFun 7) None) eq_refl))).
  - exact (proj1 (proj2 (proj1 (usage_errors_are_thrown two_handlers (VNum 3) VNull (VFun 7) None)
                    eq_refl))).
  - refine (proj2 (proj2 (proj1 (usage_errors_are_thrown two_handlers VUndefined VNull VNull None)
                    eq_refl)) eq_refl _).
    vm_compute. lia.
  - exact (proj1 (proj2 (usage_errors_are_thrown two_handlers (VStr "get") VNull
                    (VStr "not a function") None)) eq_refl eq_refl).
  - exact (proj1 (proj2 (proj2 (usage_errors_are_thrown busy_then_destroyed (VStr "get")
                    VNull VNull None))) eq_refl).
Defined.

(** C6, as stated, fails: on a destroyed instance [off] returns normally,
    with a registered name as with a number for a name, and [on] returns
    its unsubscribe function and registers the callback. *)
Lemma off_and_on_return_on_destroyed_instance :
  let d := busy_then_destroyed in
  isDestroyed d = true /\
  off (VStr "get") (VFun 7) d = (Normal (), d) /\
  off (VNum 5) (VFun 7) d = (Normal (), d) /\
  (on (VStr "get") (VFun 7) d).1 = Normal {| u_event := VStr "get"; u_cb := VFun 7 |} /\
  handlers (on (VStr "get") (VFun 7) d).2 !! "get"%string = Some [7%nat].
Proof. vm_compute. repeat split. Qed.

(** ** The capacity of the pending table *)

(** C7.  The pending table of an interface never holds more than 1000
    calls.  When it holds 1000, [call] returns a promise rejected with
    ["ibox: Busy"] and leaves the interface untouched: nothing is posted,
    no entry is added, no id is used.  Below that, on a live interface and
    with a good event name, the call is accepted. *)
Theorem call_busy_at_capacity st event data timeout :
  reachable st ->
  (size (pendingCalls st) <= 1000)%nat /\
  (size (pendingCalls st) = 1000%nat ->
     isDestroyed st = false /\
     call event data timeout st = (CallRejected (VError "ibox: Busy"), st)) /\
  ((size (pendingCalls st) < 1000)%nat -> isDestroyed st = false ->
     valid_event_name event = true ->
     (call event data timeout st).1 = CallPromise (callId st + 1)).
Proof.
  intros Hr. pose proof (inv_reachable _ Hr) as Hi. split_and!.
  - apply (inv_bound _ Hi).
  - intros Hsz.
    assert (Hd : isDestroyed st = false).
    { destruct (isDestroyed st) eqn:E; [|done].
      apply (inv_destroyed _ Hi) in E. rewrite E, map_size_empty in Hsz. lia. }
    split; [done|]. unfold call. rewrite Hd.
    rewrite bool_decide_eq_true_2; [done|]. unfold MAX_PENDING_CALLS. lia.
  - intros Hsz Hd Hok. apply validateEvent_valid in Hok as (s & -> & Hv).
    unfold call. rewrite Hd, Hv.
    rewrite bool_decide_eq_false_2 by (unfold MAX_PENDING_CALLS; lia).
    by destruct (postMessage _ _).
Qed.

Lemma call_busy_at_capacity_witness :
  call (VStr "ping") VNull None full = (CallRejected (VError "ibox: Busy"), full).
Proof.
  refine (proj2 (proj1 (proj2
    (call_busy_at_capacity full (VStr "ping") VNull None _)) _)).
  - exists (replicate 1000 (Call (VStr "ping") VNull None)). reflexivity.
  - vm_compute. reflexivity.
Defined.

(** ** The handshake of the host *)

Lemma host_init_discards st e post_error :
  Host.valid_ready (Host.targetOrigin st) e = false -> Host.init e post_error st = st.
Proof.
  unfold Host.valid_ready, Host.init, Handshake.isnt_str. intros H.
  destruct (Host.listening st); [|done]. simpl.
  destruct (Handshake.is_str (Host.targetOrigin st) "*"),
           (Handshake.is_str (Host.targetOrigin st) (Handshake.origin e)),
           (Handshake.is_str (Handshake.data e) MSG_READY); simpl in *; done.
Qed.

Lemma host_run_discards o evs st :
  Host.targetOrigin st = o ->
  Forall (fun ev => match ev with
                    | Host.Bus e _ => Host.valid_ready o e = false
                    | Host.Timeout => False
                    end) evs ->
  Host.run st evs = st.
Proof.
  intros Ho H. induction H as [|ev evs Hev _ IH]; [done|].
  destruct ev as [e pe|]; [|done]. simpl.
  rewrite host_init_discards by (by rewrite Ho). apply IH.
Qed.

Lemma host_settled_is_final st evs :
  Host.listening st = false -> Host.timer st = None -> Host.run st evs = st.
Proof.
  intros Hl Ht. induction evs as [|ev evs IH]; [done|].
  destruct ev as [e pe|]; simpl.
  - unfold Host.init. rewrite Hl. simpl. apply IH.
  - unfold Host.expire. rewrite Ht. apply IH.
Qed.

(** C8.  [host] fails at once with ["ibox: No iframe"], subscribing to
    nothing and arming no timer, when there is no frame or the frame has no
    window.  Its listener leaves the state untouched for every message
    whose origin differs from the expected one (unless that is ["*"]) or
    whose payload is not ["IBOX_READY"].  With a frame, the timer is armed
    with 15000 ms; if only such messages arrive before it expires, the
    promise is rejected with ["ibox: Host connection timeout"], the listener
    is removed and the timer is gone, and nothing can settle the promise
    again. *)
Theorem host_fails_without_frame_or_ready o :
  (forall iframe, iframe <> Some true ->
     let st := Host.host iframe o in
     Host.results st = [Handshake.Failed (VError "ibox: No iframe")] /\
     Host.listening st = false /\ Host.timer st = None) /\
  (forall st e post_error,
     Host.valid_ready (Host.targetOrigin st) e = false ->
     Host.init e post_error st = st) /\
  (forall evs,
     Forall (fun ev => match ev with
                       | Host.Bus e _ => Host.valid_ready o e = false
                       | Host.Timeout => False
                       end) evs ->
     let st0 := Host.host (Some true) o in
     let st1 := Host.run st0 (evs ++ [Host.Timeout]) in
     Host.timer st0 = Some 15000 /\ Host.listening st0 = true /\
     Host.results st0 = [] /\
     Host.run st0 evs = st0 /\
     Host.results st1 = [Handshake.Failed (VError "ibox: Host connection timeout")] /\
     Host.listening st1 = false /\ Host.timer st1 = None /\
     Host.posted st1 = [] /\
     forall evs', Host.run st1 evs' = st1).
Proof.
  split_and!.
  - intros iframe Hne st. unfold st, Host.host.
    destruct iframe as [[|]|]; done.
  - apply host_init_discards.
  - intros evs Hevs st0 st1.
    assert (Hrun : Host.run st0 evs = st0) by (by apply (host_run_discards o)).
    assert (Hst1 : st1 = Host.expire st0).
    { unfold st1, Host.run. rewrite foldl_app. fold (Host.run st0 evs).
      by rewrite Hrun. }
    split_and!; try done; try (by rewrite Hst1).
    intros evs'. apply host_settled_is_final; by rewrite Hst1.
Qed.

Lemma host_fails_without_frame_or_ready_witness :
  let o := VStr "https://child.example" in
  let evs :=
    [Host.Bus {| Handshake.origin := "https://evil.example";
                 Handshake.data := VStr "IBOX_READY"; Handshake.port0 := false |} None;
     Host.Bus {| Handshake.origin := "https://child.example";
                 Handshake.data := VStr "hello"; Handshake.port0 := false |} None] in
  Host.results (Host.run (Host.host (Some true) o) (evs ++ [Host.Timeout])) =
    [Handshake.Failed (VError "ibox: Host connection timeout")] /\
  Host.results (Host.host None o) = [Handshake.Failed (VError "ibox: No iframe")].
Proof.
  intros o evs.
  destruct (host_fails_without_frame_or_ready o) as (H1 & _ & H2).
  split.
  - refine (proj1 (proj2 (proj2 (proj2 (proj2 (H2 evs _)))))).
    repeat constructor.
  - refine (proj1 (H1 None _)). discriminate.
Defined.

(** ** The handshake of the client *)

(** Ticks of the interval while the bound is not exceeded: only the counter
    and the broadcasts change. *)
Lemma client_ticks (errors : list (option value)) st p :
  Client.handshakeInterval st = Some p ->
  Client.attempts st + Z.of_nat (length errors) <= 60 ->
  Client.run st (Client.Tick <$> errors) =
    {| Client.hostOrigin := Client.hostOrigin st;
       Client.attempts := Client.attempts st + Z.of_nat (length errors);
       Client.handshakeInterval := Some p;
       Client.timer := Client.timer st;
       Client.listening := Client.listening st;
       Client.results := Client.results st;
       Client.broadcasts :=
         Client.broadcasts st ++
           ((fun _ => (MSG_READY, Client.hostOrigin st)) <$> filter (fun e => e = None) errors);
       Client.warnings := Client.warnings st |}.
Proof.
  revert st. induction errors as [|e es IH]; intros st Hp Hle.
  - simpl. rewrite Z.add_0_r, app_nil_r. by destruct st; simpl in *; subst.
  - rewrite fmap_cons. cbn [Client.run foldl Client.step].
    fold (Client.run (Client.tick e st).2 (Client.Tick <$> es)).
    assert (Hlen : Z.of_nat (length (e :: es)) = 1 + Z.of_nat (length es))
      by (simpl length; lia).
    rewrite Hlen in Hle.
    assert (Htick : (Client.tick e st).2 =
      {| Client.hostOrigin := Client.hostOrigin st;
         Client.attempts := Client.attempts st + 1;
         Client.handshakeInterval := Some p;
         Client.timer := Client.timer st;
         Client.listening := Client.listening st;
         Client.results := Client.results st;
         Client.broadcasts :=
           match e with
           | Some _ => Client.broadcasts st
           | None => Client.broadcasts st ++ [(MSG_READY, Client.hostOrigin st)]
           end;
         Client.warnings := Client.warnings st |}).
    { unfold Client.tick. rewrite Hp. cbn [Client.attempts].
      destruct (Z.ltb_spec 60 (Client.attempts st + 1)) as [?|_]; [lia|].
      by destruct e. }
    rewrite Htick. rewrite IH; [|done|simpl; lia].
    cbn [Client.hostOrigin Client.attempts Client.timer Client.listening
         Client.results Client.broadcasts Client.warnings].
    f_equal; [lia|]. destruct e.
    + rewrite filter_cons_False by done. done.
    + rewrite filter_cons_True by done. by rewrite fmap_cons, <- app_assoc.
Qed.

Lemma client_settled_is_final st evs :
  Client.handshakeInterval st = None -> Client.timer st = None ->
  Client.listening st = false -> Client.run st evs = st.
Proof.
  intros Hi Ht Hl. induction evs as [|ev evs IH]; [done|].
  destruct ev as [b|e|]; simpl.
  - unfold Client.tick. rewrite Hi. apply IH.
  - unfold Client.getPort. rewrite Hl. simpl. apply IH.
  - unfold Client.expire. rewrite Ht. apply IH.
Qed.

Lemma client_tick_completes post_error st : (Client.tick post_error st).1 = Normal ().
Proof.
  unfold Client.tick. destruct (Client.handshakeInterval st); [|done].
  destruct (60 <? _); [done|]. by destruct post_error.
Qed.

(** C9.  [client] starts an interval of 200 ms.  A run of its callback
    never throws, whatever the broadcast does.  Whether or not the
    broadcasts of the first 60 runs throw, the promise stays pending, the
    interval, the timer and the listener stay in place, and the sentinel
    ["IBOX_READY"] went out at the attempts that did not throw and only at
    those.  The 61st run broadcasts nothing: it rejects the promise with
    ["ibox: Handshake failed"], clears the interval and the timer and
    removes the listener, after which nothing changes any more. *)
Theorem client_retries_then_fails o (errors : list (option value)) :
  length errors = 60%nat ->
  let st0 := Client.client o in
  let st60 := Client.run st0 (Client.Tick <$> errors) in
  Client.handshakeInterval st0 = Some 200 /\
  (forall post_error st, (Client.tick post_error st).1 = Normal ()) /\
  Client.results st60 = [] /\ Client.attempts st60 = 60 /\
  Client.handshakeInterval st60 = Some 200 /\ Client.timer st60 = Some 15000 /\
  Client.listening st60 = true /\
  Client.broadcasts st60 =
    ((fun _ => (MSG_READY, o)) <$> filter (fun e => e = None) errors) /\
  (forall post_error,
     let st61 := (Client.tick post_error st60).2 in
     Client.results st61 = [Handshake.Failed (VError "ibox: Handshake failed")] /\
     Client.handshakeInterval st61 = None /\ Client.timer st61 = None /\
     Client.listening st61 = false /\
     Client.broadcasts st61 = Client.broadcasts st60 /\
     forall evs, Client.run st61 evs = st61).
Proof.
  intros Hlen st0 st60.
  assert (H60 : st60 = _) by (apply (client_ticks errors st0 200); [done|simpl; lia]).
  rewrite Hlen in H60. simpl in H60.
  split_and!; try (by rewrite H60); [done|apply client_tick_completes|].
  intros b st61. unfold st61. rewrite H60.
  split_and!; try done. intros evs. by apply client_settled_is_final.
Qed.

Lemma client_retries_then_fails_witness :
  let errors := replicate 30 (Some TypeError) ++ replicate 30 None in
  let st60 := Client.run (Client.client (VStr "https://parent.example"))
                (Client.Tick <$> errors) in
  length (Client.broadcasts st60) = 30%nat /\
  Client.results st60 = [] /\
  Client.results (Client.tick (Some TypeError) st60).2 =
    [Handshake.Failed (VError "ibox: Handshake failed")].
Proof.
  intros errors st60.
  destruct (client_retries_then_fails (VStr "https://parent.example") errors eq_refl)
    as (_ & _ & H1 & _ & _ & _ & _ & H2 & H3).
  split_and!; [exact (f_equal length H2) | exact H1 | exact (proj1 (H3 (Some TypeError)))].
Defined.

(** ** The handler registry *)

Lemma set_handlers_id st : set_handlers (handlers st) st = st.
Proof. by destruct st. Qed.

Lemma set_delete_absent cb s : cb ∉ s -> set_delete cb s = s.
Proof.
  intros Hcb. unfold set_delete. induction s as [|x s IH]; [done|].
  apply not_elem_of_cons in Hcb as [Hne Hs].
  rewrite filter_cons_True by done. by rewrite IH.
Qed.

Lemma elem_of_set_delete x cb s : x ∈ set_delete cb s <-> x ∈ s /\ x <> cb.
Proof. unfold set_delete. rewrite list_elem_of_filter. tauto. Qed.

(** The keys of the handler registry are strings that are not empty once
    trimmed, and in every state an interface can reach each key has a
    non-empty callback set without repetition.  [off] leaves the other keys
    alone, removes from the set of its key the given callback and nothing
    else, deletes the key when the set becomes empty, and changes nothing
    when the callback or the key is not registered.  [on] with a good name
    adds the callback to the set of its key, at the end if it is new. *)
Theorem registry_keys_have_callbacks st :
  reachable st ->
  (forall ev s, handlers st !! ev = Some s ->
     s <> [] /\ NoDup s /\ valid_event_name (VStr ev) = true) /\
  (forall ev cb,
     let st' := (off (VStr ev) (VFun cb) st).2 in
     (forall ev', ev' <> ev -> handlers st' !! ev' = handlers st !! ev') /\
     (forall s, handlers st !! ev = Some s ->
        handlers st' !! ev =
          (if bool_decide (set_delete cb s = []) then None
           else Some (set_delete cb s)) /\
        (forall x, x ∈ set_delete cb s <-> x ∈ s /\ x <> cb) /\
        (cb ∉ s -> st' = st)) /\
     (handlers st !! ev = None -> st' = st)) /\
  (forall ev cb,
     valid_event_name (VStr ev) = true ->
     let st' := (on (VStr ev) (VFun cb) st).2 in
     (forall ev', ev' <> ev -> handlers st' !! ev' = handlers st !! ev') /\
     handlers st' !! ev = Some (set_add cb (default [] (handlers st !! ev)))).
Proof.
  intros Hr. pose proof (inv_reachable _ Hr) as Hi. split_and!.
  - intros ev s Hs. apply (inv_handlers _ Hi) in Hs as (? & ? & Ht).
    split_and!; [done|done|]. simpl. by destruct (String.eqb_spec (trim ev) "").
  - intros ev cb st'. unfold st', off. split_and!.
    + intros ev' Hne. destruct (handlers st !! ev) as [s|]; [|done]. simpl.
      case_bool_decide; simpl.
      * by rewrite lookup_delete_ne.
      * by rewrite lookup_insert_ne.
    + intros s Hs. rewrite Hs. simpl. split_and!.
      * case_bool_decide as Hlen.
        -- apply nil_length_inv in Hlen. rewrite Hlen. simpl. apply lookup_delete_eq.
        -- rewrite bool_decide_eq_false_2.
           ++ simpl. apply lookup_insert_eq.
           ++ intros E. by rewrite E in Hlen.
      * intros x. apply elem_of_set_delete.
      * intros Hcb. rewrite set_delete_absent by done.
        apply (inv_handlers _ Hi) in Hs as Hwf. destruct Hwf as (Hne & _ & _).
        rewrite bool_decide_eq_false_2 by (by destruct s).
        rewrite insert_id by done. apply set_handlers_id.
    + by intros ->.
  - intros ev cb Hok st'. unfold st'.
    apply validateEvent_valid in Hok as (s & [= <-] & Hv).
    unfold on. rewrite Hv. simpl. split.
    + intros ev' Hne. by rewrite lookup_insert_ne.
    + apply lookup_insert_eq.
Qed.

Lemma registry_keys_have_callbacks_witness :
  handlers (off (VStr "get") (VFun 7) two_handlers).2 !! "get"%string = Some [8%nat] /\
  (off (VStr "get") (VFun 9) two_handlers).2 = two_handlers.
Proof.
  destruct (registry_keys_have_callbacks two_handlers
              (ex_intro _ [On (VStr "get") (VFun 7); On (VStr "get") (VFun 8)] eq_refl))
    as (_ & H & _).
  split.
  - exact (proj1 (proj1 (proj2 (H "get"%string 7%nat)) [7%nat; 8%nat] eq_refl)).
  - refine (proj2 (proj2 (proj1 (proj2 (H "get"%string 9%nat)) [7%nat; 8%nat] eq_refl)) _).
    vm_compute. intros Hin. repeat (apply elem_of_cons in Hin as [Hin|Hin]; [discriminate|]).
    by apply elem_of_nil in Hin.
Defined.

(** C10.  The registry is to map trimmed event names to their callbacks.
    [validateEvent] computes the trimmed name and returns it, but [on],
    [emit] and [call] drop what it returns.  Given the name [" ping "],
    [validateEvent] accepts it and computes ["ping"], yet the callback is
    registered under [" ping "], the name as given: ["ping"] is not a key,
    an event named ["ping"] reaches no callback, and [emit] posts the name
    as given too. *)
Lemma on_registers_untrimmed_name :
  let st := (on (VStr " ping ") (VFun 7) (createInterface None)).2 in
  validateEvent (VStr " ping ") = Normal "ping"%string /\
  handlers st !! " ping "%string = Some [7%nat] /\
  handlers st !! "ping"%string = None /\
  invoked (onmessage first_fulfils (event_envelope (VStr "ping") VNull) st) = [] /\
  outbox (emit (VStr " ping ") VNull st).2 = [event_envelope (VStr " ping ") VNull].
Proof. vm_compute. repeat split. Qed.

(** ** The older variant compared *)

(** In the older variant a request is served by every registered callback,
    one after the other, and each of them is answered. *)
Remark legacy_answers_once_per_handler :
  let st := Legacy.messageListener first_fulfils get_request two_handlers in
  invoked st = [(7%nat, VNum 123); (8%nat, VNum 123)] /\
  outbox st = [ok_envelope (VNum 5) (VStr "alice"); ok_envelope (VNum 5) VNull].
Proof. vm_compute. repeat split. Qed.

(** There a callback that throws ends the loop of an event: the callbacks
    after it are not invoked, and nothing is written to the console. *)
Remark legacy_throwing_handler_ends_loop :
  let st := Legacy.messageListener first_throws get_event two_handlers in
  invoked st = [(7%nat, VNum 123)] /\ console st = [].
Proof. vm_compute. repeat split. Qed.

(** There a response is a success whatever it carries. *)
Remark legacy_response_ignores_error :
  settled (Legacy.messageListener first_fulfils
             (error_envelope (VNum 1) (VStr "no such user")) one_call) =
    [(1, ByResponse, Fulfilled VUndefined)].
Proof. vm_compute. repeat split. Qed.

(** There [call] has no guard: it always issues the next id, whatever the
    size of the pending table, and never looks at the event name. *)
Remark legacy_call_always_accepts st event data timeout :
  (Legacy.call event data timeout st).1 = CallPromise (callId st + 1).
Proof. unfold Legacy.call. by destruct (postMessage _ _). Qed.

(** There [destroy()] settles no promise and leaves the timers armed. *)
Remark legacy_destroy_settles_nothing st :
  settled (Legacy.destroy st) = settled st /\ timers (Legacy.destroy st) = timers st /\
  pendingCalls (Legacy.destroy st) = ∅.
Proof. done. Qed.

(** There the client gives up after 50 attempts at 100 ms, and a broadcast
    that throws leaves the interval callback with that exception. *)
Remark legacy_tick_propagates err st p :
  Client.handshakeInterval st = Some p -> Client.attempts st < 50 ->
  (Legacy.tick (Some err) st).1 = Abrupt err.
Proof.
  intros Hp Hlt. unfold Legacy.tick. rewrite Hp. cbn [Client.attempts].
  unfold Legacy.MAX_ATTEMPTS.
  by destruct (Z.ltb_spec 50 (Client.attempts st + 1)) as [?|_]; [lia|].
Qed.

(** * Further properties of the interface *)

(** ** Call ids *)

Lemma call_promise_id event data timeout st id st' :
  call event data timeout st = (CallPromise id, st') ->
  id = callId st + 1 /\ callId st' = id.
Proof.
  unfold call. destruct (isDestroyed st); [done|]. case_bool_decide; [done|].
  destruct (validateEvent event); [|done].
  match goal with |- context [postMessage ?m ?s] =>
    destruct (postMessage m s) as [st4|e] eqn:E end.
  - intros [= <- <-]. apply postMessage_same_core in E as (_&_&Hc&_). by rewrite Hc.
  - by intros [= <- <-].
Qed.

(** The ids of the calls of one interface grow strictly: a later call never
    reuses the id of an earlier one, whether the earlier one is still
    pending, settled, or failed to be sent. *)
Theorem call_ids_increase st event data timeout id st' :
  reachable st ->
  call event data timeout st = (CallPromise id, st') ->
  1 <= id /\
  forall ops event' data' timeout' id' st'',
    call event' data' timeout' (run st' ops) = (CallPromise id', st'') ->
    id < id'.
Proof.
  intros Hr Hcall. pose proof (inv_reachable _ Hr) as Hi.
  destruct (call_promise_id _ _ _ _ _ _ Hcall) as [Hid Hc].
  pose proof (inv_callId _ Hi). split; [lia|].
  intros ops event' data' timeout' id' st'' Hcall'.
  destruct (call_promise_id _ _ _ _ _ _ Hcall') as [Hid' _].
  assert (Hi' : inv st').
  { pose proof (inv_call event data timeout st Hi) as H'. by rewrite Hcall in H'. }
  pose proof (run_callId_mono ops st' Hi'). lia.
Qed.

Lemma call_ids_increase_witness :
  let later := run one_call [Expire 1; Call (VStr "ping") (VFun 0) None] in
  (call (VStr "pong") VNull (Some 50) later).1 = CallPromise 3 /\ 1 < 3.
Proof.
  split; [reflexivity|].
  refine (proj2 (call_ids_increase (createInterface None) (VStr "ping") VNull None 1 one_call
                   (ex_intro _ [] eq_refl) eq_refl)
            [Expire 1; Call (VStr "ping") (VFun 0) None] (VStr "pong") VNull (Some 50) 3
            (call (VStr "pong") VNull (Some 50)
               (run one_call [Expire 1; Call (VStr "ping") (VFun 0) None])).2 _).
  vm_compute. reflexivity.
Defined.

(** ** A send that fails *)

(** When the request of an accepted call cannot be cloned, [call] uses up
    the next id, returns the promise of that call already rejected with
    ["ibox: Send failed"], and leaves no entry, no timer and no message
    behind. *)
Theorem call_send_failure_leaves_nothing st event data timeout :
  reachable st -> isDestroyed st = false ->
  (size (pendingCalls st) < MAX_PENDING_CALLS)%nat ->
  valid_event_name event = true -> cloneable data = false ->
  let r := call event data timeout st in
  let id := callId st + 1 in
  r.1 = CallPromise id /\ callId r.2 = id /\
  settled r.2 = settled st ++ [(id, BySendFailure, Rejected (VError "ibox: Send failed"))] /\
  pendingCalls r.2 = pendingCalls st /\ timers r.2 = timers st /\
  outbox r.2 = outbox st /\ handlers r.2 = handlers st.
Proof.
  intros Hr Hd Hsz Hok Hdata r id. pose proof (inv_reachable _ Hr) as Hi.
  apply validateEvent_valid in Hok as (s & -> & Hv).
  assert (Hfresh : pendingCalls st !! id = None).
  { destruct (pendingCalls st !! id) as [w|] eqn:E; [|done].
    apply (inv_pending _ Hi) in E. unfold id in E. lia. }
  assert (Htfresh : timers st !! id = None).
  { apply not_elem_of_dom. rewrite (inv_timers _ Hi). by apply not_elem_of_dom. }
  unfold r, call. rewrite Hd, Hv.
  rewrite bool_decide_eq_false_2 by lia.
  rewrite postMessage_Abrupt by (simpl; by rewrite Hdata). simpl.
  fold id. rewrite !delete_insert_eq, !delete_id by done. done.
Qed.

Lemma call_send_failure_leaves_nothing_witness :
  let r := call (VStr "ping") (VObj [("cb", VFun 3)]) None two_handlers in
  r.1 = CallPromise 1 /\ pendingCalls r.2 = ∅ /\ outbox r.2 = [].
Proof.
  destruct (call_send_failure_leaves_nothing two_handlers (VStr "ping")
              (VObj [("cb", VFun 3)]) None
              (ex_intro _ [On (VStr "get") (VFun 7); On (VStr "get") (VFun 8)] eq_refl)
              eq_refl ltac:(vm_compute; lia) eq_refl eq_refl)
    as (H1 & _ & _ & H2 & _ & H3 & _).
  split_and!; [exact H1 | exact H2 | exact H3].
Defined.

(** ** After [destroy()] *)

Lemma destroyed_step_inert st o :
  inv st -> isDestroyed st = true ->
  outbox (step st o) = outbox st /\ settled (step st o) = settled st /\
  invoked (step st o) = invoked st /\ console (step st o) = console st /\
  callId (step st o) = callId st.
Proof.
  intros Hi Hd. destruct o; simpl.
  - unfold emit. by rewrite Hd.
  - unfold call. by rewrite Hd.
  - unfold on. destruct (validateEvent event); [|done]. by destruct event, cb.
  - unfold off. destruct event; try done. destruct (handlers st !! s); [|done].
    simpl. by case_bool_decide.
  - unfold destroy. by rewrite Hd.
  - unfold onmessage. by rewrite Hd.
  - unfold fire. destruct (timers st !! t) as [tm|] eqn:E; [|done].
    assert (is_Some (pendingCalls st !! t)) as [w Hw].
    { apply elem_of_dom. rewrite <- (inv_timers _ Hi). apply elem_of_dom. eauto. }
    rewrite (inv_destroyed _ Hi Hd) in Hw. by rewrite lookup_empty in Hw.
  - unfold resume. destruct (awaiting st !! k) as [[id s]|]; [|done].
    destruct (respond_same_core id s (set_awaiting (delete k (awaiting st)) st))
      as (_&_&Hc&_&_&_&Hs).
    destruct (respond_closed id s (set_awaiting (delete k (awaiting st)) st))
      as (Ho&Hin&Hco&_).
    { simpl. by rewrite (inv_port _ Hi). }
    by rewrite Ho, Hin, Hco, Hc, Hs.
  - unfold onmessage_re. by rewrite Hd.
Qed.

(** A destroyed interface is inert.  Once [destroy()] has been called and
    the listener run that called it, if a callback did, is over, then
    whatever the owner calls and whatever the environment delivers
    (messages, to callbacks that leave the interface alone or use it;
    timers; continuations of listener runs suspended before [destroy()]),
    nothing is posted, no callback is invoked, no promise is settled,
    nothing is logged, no id is issued, and the pending table and the
    timers stay empty. *)
Theorem destroyed_interface_is_inert st ops :
  reachable st -> isDestroyed st = true ->
  let st' := run st ops in
  isDestroyed st' = true /\
  outbox st' = outbox st /\ settled st' = settled st /\
  invoked st' = invoked st /\ console st' = console st /\
  callId st' = callId st /\ pendingCalls st' = ∅ /\ timers st' = ∅.
Proof.
  intros Hr Hd. pose proof (inv_reachable _ Hr) as Hi. clear Hr. simpl.
  revert st Hi Hd. induction ops as [|o ops IH]; intros st Hi Hd.
  - simpl. split_and!; try done.
    + by apply (inv_destroyed _ Hi).
    + apply dom_empty_iff_L. rewrite (inv_timers _ Hi), (inv_destroyed _ Hi Hd).
      apply dom_empty_L.
  - simpl. destruct (destroyed_step_inert st o Hi Hd) as (Ho&Hs&Hin&Hc&Hid).
    destruct (IH (step st o) (inv_step _ _ Hi) (destroyed_step _ _ Hd))
      as (?&Ho'&Hs'&Hin'&Hc'&Hid'&?&?).
    rewrite Ho', Hs', Hin', Hc', Hid', Ho, Hs, Hin, Hc, Hid. done.
Qed.

Lemma destroyed_interface_is_inert_witness :
  let st' := run destroyed_in_loop
               [On (VStr "get") (VFun 9); Deliver first_fulfils get_request;
                Reenter second_throws first_destroys get_event;
                Expire 1; Deliver first_fulfils (ok_envelope (VNum 1) VNull);
                Emit (VStr "get") VNull; Call (VStr "get") VNull None; Resume 0] in
  isDestroyed destroyed_in_loop = true /\
  outbox st' = outbox destroyed_in_loop /\
  invoked st' = invoked destroyed_in_loop /\
  settled st' = settled destroyed_in_loop.
Proof.
  intros st'.
  assert (Hd : isDestroyed destroyed_in_loop = true) by (vm_compute; reflexivity).
  assert (Hr : reachable destroyed_in_loop).
  { exists [On (VStr "get") (VFun 7); On (VStr "get") (VFun 8);
            Reenter second_throws first_destroys get_event].
    reflexivity. }
  destruct (destroyed_interface_is_inert destroyed_in_loop
              [On (VStr "get") (VFun 9); Deliver first_fulfils get_request;
               Reenter second_throws first_destroys get_event;
               Expire 1; Deliver first_fulfils (ok_envelope (VNum 1) VNull);
               Emit (VStr "get") VNull; Call (VStr "get") VNull None; Resume 0] Hr Hd)
    as (_ & H1 & H2 & H3 & _).
  split_and!; [exact Hd | exact H1 | exact H3 | exact H2].
Defined.

(** ** Callbacks that use the interface while they run *)

(** A callback that calls [emit], [call] or [destroy] while the loop of the
    emit mode runs does not stop the loop.  On a live interface every
    callback registered for the event is invoked with the payload, in
    registration order, also those that come after a callback that called
    [destroy()], and each one that throws is written with [console.error].
    The interface is destroyed afterwards exactly when one of the callbacks
    called [destroy()]; no listener run is left suspended. *)
Theorem emit_loop_outlives_destroy st beh calls e_data ev callbacks :
  reachable st -> isDestroyed st = false ->
  get e_data "event" = VStr ev ->
  handlers st !! ev = Some callbacks ->
  truthy (get e_data "_ibox_id") = false ->
  answers_pending e_data st = false ->
  let payload := get e_data "data" in
  let st1 := onmessage_re beh calls e_data st in
  invoked st1 = invoked st ++ ((fun cb => (cb, payload)) <$> callbacks) /\
  console st1 = console st ++
    omap (fun cb => match beh cb payload with
                    | Throws err => Some ("ibox: Handler error [" +:+ ev +:+ "]:", err)
                    | _ => None
                    end) callbacks /\
  awaiting st1 = awaiting st /\
  (isDestroyed st1 = true <->
     exists cb, cb ∈ callbacks /\ ApiDestroy ∈ calls cb payload).
Proof.
  intros Hr Hd Hev Hh Hid Hno payload st1.
  pose proof (inv_reachable _ Hr) as Hi.
  assert (Hst1 : st1 = foldl (notify_re beh calls (VStr ev) payload) st callbacks).
  { unfold st1. rewrite (onmessage_re_event beh calls e_data st ev _ Hi Hd Hev Hh Hno).
    by rewrite Hid. }
  destruct (notify_re_all beh calls (VStr ev) payload callbacks st) as (H1 & H2 & H3).
  rewrite Hst1. split_and!; [done|done|apply notify_re_all_awaiting|].
  rewrite H3, Hd. split; [by intros [?|?]|by right].
Qed.

Lemma emit_loop_outlives_destroy_witness :
  let st1 := onmessage_re second_throws first_destroys get_event two_handlers in
  invoked st1 = [(7%nat, VNum 123); (8%nat, VNum 123)] /\
  console st1 = [("ibox: Handler error [get]:"%string, VError "late")] /\
  isDestroyed st1 = true.
Proof.
  destruct (emit_loop_outlives_destroy two_handlers second_throws first_destroys get_event
              "get" [7%nat; 8%nat]
              (ex_intro _ [On (VStr "get") (VFun 7); On (VStr "get") (VFun 8)] eq_refl)
              eq_refl eq_refl eq_refl eq_refl eq_refl)
    as (H1 & H2 & _ & H3).
  split_and!; [exact H1 | exact H2 |].
  apply (proj2 H3). exists 7%nat. split.
  - apply list_elem_of_here.
  - apply list_elem_of_here.
Defined.

(** ** Responses that find no pending call *)

Lemma onmessage_unmatched beh e_data st :
  answers_pending e_data st = false ->
  truthy (get e_data "event") = false ->
  onmessage beh e_data st = st.
Proof.
  intros Hno Hev. unfold onmessage.
  destruct (isDestroyed st || negb (truthy e_data)); [done|].
  by rewrite (answers_pending_false _ _ Hno), Hev.
Qed.

Lemma answers_pending_gone e_data st k :
  get e_data "_ibox_res_id" = VNum k -> pendingCalls st !! k = None ->
  answers_pending e_data st = false.
Proof.
  intros Hres Hk. unfold answers_pending. rewrite Hres. simpl. rewrite Hk. simpl.
  apply andb_false_r.
Qed.

(** A response is used once.  When the response to a pending call has been
    delivered, or the timer of the call has expired, or the interface has
    been destroyed, a (second) delivery of that response changes nothing:
    the promise is not touched again and, the envelope naming no event, no
    handler runs. *)
Theorem stale_response_is_dropped st beh beh' e_data k w :
  reachable st ->
  get e_data "_ibox_res_id" = VNum k ->
  pendingCalls st !! k = Some w ->
  truthy (get e_data "event") = false ->
  let answered := onmessage beh e_data st in
  let expired := fire k st in
  onmessage beh' e_data answered = answered /\
  onmessage beh' e_data expired = expired /\
  onmessage beh' e_data (destroy st) = destroy st.
Proof.
  intros Hr Hres Hw Hev answered expired. pose proof (inv_reachable _ Hr) as Hi.
  assert (Hia : inv answered) by (by apply inv_onmessage).
  assert (Hie : inv expired) by (by apply inv_fire).
  assert (Hk : k ∈ settled_ids answered).
  { destruct (inv_pending _ Hi _ _ Hw) as (Hrange & Hp & _).
    assert (Hd : isDestroyed st = false).
    { destruct (isDestroyed st) eqn:E; [|done].
      apply (inv_destroyed _ Hi) in E. rewrite E in Hw. by rewrite lookup_empty in Hw. }
    unfold answered, settled_ids.
    rewrite (onmessage_response beh e_data st k w Hd Hres ltac:(lia) Hw).
    destruct (truthy (get e_data "_ibox_error")); simpl;
      rewrite !fmap_app, Hp; simpl; apply elem_of_app; right; apply list_elem_of_here. }
  assert (Hk' : k ∈ settled_ids expired).
  { assert (is_Some (timers st !! k)) as [tm Htm].
    { apply elem_of_dom. rewrite (inv_timers _ Hi). apply elem_of_dom. eauto. }
    unfold expired, settled_ids.
    rewrite (fire_pending st k tm w Htm (inv_timer_call _ Hi _ _ Htm) Hw). simpl.
    rewrite !fmap_app. simpl. apply elem_of_app. right. apply list_elem_of_here. }
  split_and!.
  - apply onmessage_unmatched; [|done].
    apply (answers_pending_gone _ _ k); [done|]. by destruct (inv_settled _ Hia _ Hk) as [_ ?].
  - apply onmessage_unmatched; [|done].
    apply (answers_pending_gone _ _ k); [done|]. by destruct (inv_settled _ Hie _ Hk') as [_ ?].
  - unfold onmessage.
    assert (Hdd : isDestroyed (destroy st) = true).
    { destruct (isDestroyed st) eqn:E; [unfold destroy; by rewrite E|].
      by destruct (destroy_live st Hi E) as (_&_&_&?&_). }
    by rewrite Hdd.
Qed.

Lemma stale_response_is_dropped_witness :
  let e_data := ok_envelope (VNum 1) (VStr "late") in
  onmessage first_fulfils e_data (fire 1 one_call) = fire 1 one_call.
Proof.
  intros e_data.
  assert (Hr : reachable one_call).
  { exists [Call (VStr "ping") VNull None]. vm_compute. reflexivity. }
  assert (Hw : pendingCalls one_call !! 1 = Some {| w_promise := 1; w_timer := 1 |})
    by (vm_compute; reflexivity).
  exact (proj1 (proj2 (stale_response_is_dropped one_call first_throws first_fulfils e_data 1
                         {| w_promise := 1; w_timer := 1 |} Hr eq_refl Hw eq_refl))).
Defined.

(** ** Registering and unregistering *)

Lemma set_add_idem cb s : set_add cb (set_add cb s) = set_add cb s.
Proof.
  unfold set_add. destruct (decide (cb ∈ s)) as [H|H].
  - rewrite (bool_decide_eq_true_2 (cb ∈ s)) by done.
    by rewrite (bool_decide_eq_true_2 (cb ∈ s)).
  - rewrite (bool_decide_eq_false_2 (cb ∈ s)) by done.
    rewrite bool_decide_eq_true_2; [done|].
    apply elem_of_app. right. apply list_elem_of_here.
Qed.

Lemma set_delete_idem cb s : set_delete cb (set_delete cb s) = set_delete cb s.
Proof.
  apply set_delete_absent. rewrite elem_of_set_delete. by intros [_ ?].
Qed.

Lemma set_delete_added cb s : cb ∉ s -> set_delete cb (set_add cb s) = s.
Proof.
  intros Hcb. unfold set_add. rewrite bool_decide_eq_false_2 by done.
  unfold set_delete. rewrite filter_app, filter_cons_False, filter_nil, app_nil_r by (by intros ?).
  by apply set_delete_absent.
Qed.

(** Registering is idempotent and so is unregistering: a second [on] with
    the same name and callback, and a second [off] (or a second call of the
    function that [on] returned), give the same result and leave the same
    interface as the first. *)
Theorem registration_is_idempotent st event cb :
  on event cb (on event cb st).2 = on event cb st /\
  off event cb (off event cb st).2 = off event cb st /\
  (forall u, (on event cb st).1 = Normal u ->
     unsubscribe u st = off event cb st /\
     unsubscribe u (unsubscribe u st).2 = unsubscribe u st).
Proof.
  assert (Hoff : off event cb (off event cb st).2 = off event cb st).
  { unfold off. destruct event; try done.
    destruct (handlers st !! s) as [l|] eqn:E; simpl; [|by rewrite E].
    set (l' := match cb with VFun f => set_delete f l | _ => l end).
    case_bool_decide as Hlen; simpl.
    - by rewrite lookup_delete_eq.
    - rewrite lookup_insert_eq.
      assert (Hl' : match cb with VFun f => set_delete f l' | _ => l' end = l').
      { unfold l'. destruct cb; try done. apply set_delete_idem. }
      rewrite Hl'. rewrite bool_decide_eq_false_2 by done.
      by rewrite insert_insert_eq. }
  split_and!; [|done|].
  - unfold on. destruct (validateEvent event) as [t|e]; [|done].
    destruct event; try done. destruct cb; try done.
    simpl. rewrite lookup_insert_eq. simpl.
    by rewrite set_add_idem, insert_insert_eq.
  - intros u Hu.
    assert (Hu' : u = {| u_event := event; u_cb := cb |}).
    { unfold on in Hu. destruct (validateEvent event); [|done].
      destruct event, cb; simpl in Hu; congruence. }
    subst u. unfold unsubscribe. simpl. by rewrite Hoff.
Qed.

(** [on] followed by the function it returned gives back the interface as
    it was, when the callback was not yet registered under that name. *)
Theorem on_then_unsubscribe_restores st ev cb :
  reachable st -> valid_event_name (VStr ev) = true ->
  (forall s, handlers st !! ev = Some s -> cb ∉ s) ->
  exists u, (on (VStr ev) (VFun cb) st).1 = Normal u /\
            unsubscribe u (on (VStr ev) (VFun cb) st).2 = (Normal (), st).
Proof.
  intros Hr Hok Hcb. pose proof (inv_reachable _ Hr) as Hi.
  apply validateEvent_valid in Hok as (s & [= <-] & Hv).
  exists {| u_event := VStr ev; u_cb := VFun cb |}.
  unfold on. rewrite Hv. simpl. split; [done|].
  unfold unsubscribe, off. simpl. rewrite lookup_insert_eq.
  destruct (handlers st !! ev) as [l|] eqn:E; simpl.
  - rewrite set_delete_added by (by apply Hcb).
    apply (inv_handlers _ Hi) in E as Hwf. destruct Hwf as (Hne & _ & _).
    rewrite bool_decide_eq_false_2 by (by destruct l).
    simpl. rewrite insert_insert_eq, insert_id by done. f_equal. by destruct st.
  - rewrite (set_delete_added cb []) by apply not_elem_of_nil. simpl.
    rewrite delete_insert_eq, delete_id by done. f_equal. by destruct st.
Qed.

Lemma on_then_unsubscribe_restores_witness :
  unsubscribe {| u_event := VStr "get"; u_cb := VFun 9 |}
    (on (VStr "get") (VFun 9) two_handlers).2 = (Normal (), two_handlers).
Proof.
  assert (Hr : reachable two_handlers).
  { exists [On (VStr "get") (VFun 7); On (VStr "get") (VFun 8)]. reflexivity. }
  destruct (on_then_unsubscribe_restores two_handlers "get" 9%nat Hr eq_refl) as (u & Hu & H).
  - intros s Hs. vm_compute in Hs. injection Hs as <-.
    intros Hin. repeat (apply elem_of_cons in Hin as [Hin|Hin]; [discriminate|]).
    by apply elem_of_nil in Hin.
  - injection Hu as <-. exact H.
Defined.

(** ** Timers *)

(** No timer outlives its call: in every state an interface can reach, the
    armed timers are exactly those of the pending calls, each set by a call
    that was issued, and the expiry of anything else changes nothing. *)
Theorem timers_match_pending_calls st :
  reachable st ->
  (forall id, is_Some (timers st !! id) <-> is_Some (pendingCalls st !! id)) /\
  (forall id tm, timers st !! id = Some tm -> t_call tm = id /\ 1 <= id <= callId st) /\
  (forall t, pendingCalls st !! t = None -> fire t st = st).
Proof.
  intros Hr. pose proof (inv_reachable _ Hr) as Hi.
  assert (Hdom : forall id, is_Some (timers st !! id) <-> is_Some (pendingCalls st !! id)).
  { intros id. rewrite <- !elem_of_dom. by rewrite (inv_timers _ Hi). }
  split_and!; [done| |].
  - intros id tm Htm. split; [by apply (inv_timer_call _ Hi)|].
    assert (is_Some (pendingCalls st !! id)) as [w Hw] by (apply Hdom; eauto).
    by apply (inv_pending _ Hi) in Hw as [? _].
  - intros t Ht. unfold fire. destruct (timers st !! t) as [tm|] eqn:E; [|done].
    assert (is_Some (pendingCalls st !! t)) as [w Hw] by (apply Hdom; eauto).
    congruence.
Qed.

Lemma timers_match_pending_calls_witness :
  fire 7 one_call = one_call /\ is_Some (timers one_call !! 1).
Proof.
  assert (Hr : reachable one_call).
  { exists [Call (VStr "ping") VNull None]. vm_compute. reflexivity. }
  destruct (timers_match_pending_calls one_call Hr) as (H1 & _ & H3).
  split; [apply H3; reflexivity | apply H1; eexists; reflexivity].
Defined.

Lemma registration_is_idempotent_witness :
  unsubscribe {| u_event := VStr "get"; u_cb := VFun 7 |}
    (unsubscribe {| u_event := VStr "get"; u_cb := VFun 7 |} two_handlers).2 =
  unsubscribe {| u_event := VStr "get"; u_cb := VFun 7 |} two_handlers.
Proof.
  exact (proj2 (proj2 (proj2 (registration_is_idempotent two_handlers (VStr "get") (VFun 7)))
                 {| u_event := VStr "get"; u_cb := VFun 7 |} eq_refl)).
Defined.

(** * Further properties of the handshakes *)

(** ** The host *)

(** What holds of the promise executor of [host] after any sequence of
    window messages and timer expiries. *)
Lemma host_run_inv iframe o evs :
  let st := Host.run (Host.host iframe o) evs in
  Host.targetOrigin st = o /\ Host.warnings st = Handshake.warn o /\
  ((Host.results st = [] /\ Host.listening st = true /\ Host.timer st = Some 15000 /\
    Host.posted st = [] /\ Host.started st = false /\ iframe = Some true) \/
   (Host.listening st = false /\ Host.timer st = None /\
    exists a, Host.results st = [a] /\
      match a with
      | Handshake.Resolved api =>
          api = createInterface None /\ iframe = Some true /\
          Host.posted st = [(MSG_PORT, o)] /\ Host.started st = true /\
          exists e, Host.Bus e None ∈ evs /\ Host.valid_ready o e = true
      | Handshake.Failed err =>
          Host.posted st = [] /\ Host.started st = false /\
          ((err = VError "ibox: No iframe" /\ iframe <> Some true) \/
           (err = VError "ibox: Host connection timeout" /\ Host.Timeout ∈ evs) \/
           (exists e, Host.Bus e (Some err) ∈ evs /\ Host.valid_ready o e = true))
      end)).
Proof.
  induction evs as [|ev evs IH] using rev_ind.
  - simpl. unfold Host.host. destruct iframe as [[|]|]; simpl; split_and!; try done;
      try (left; done); right; split_and!; try done; eexists; split; try done;
      split_and!; try done; left; done.
  - unfold Host.run in *. rewrite foldl_app. simpl.
    set (st := foldl Host.step (Host.host iframe o) evs) in *.
    destruct IH as (Ho & Hw & [(Hr & Hl & Ht & Hp & Hs & Hif) | (Hl & Ht & a & Hr & Ha)]).
    + destruct ev as [e pe|]; simpl.
      * destruct (Host.valid_ready o e) eqn:Hv.
        -- assert (Hinit : Host.init e pe st =
             match pe with
             | None =>
                 Host.settle (Handshake.Resolved (createInterface None))
                   {| Host.targetOrigin := o; Host.listening := false; Host.timer := None;
                      Host.results := Host.results st;
                      Host.posted := Host.posted st ++ [(MSG_PORT, o)];
                      Host.started := true; Host.warnings := Host.warnings st |}
             | Some err => Host.settle (Handshake.Failed err) (Host.cleanup st)
             end).
           { unfold Host.init. rewrite Hl. simpl. rewrite Ho.
             unfold Host.valid_ready, Handshake.isnt_str in *.
             destruct (Handshake.is_str o "*"), (Handshake.is_str o (Handshake.origin e)),
               (Handshake.is_str (Handshake.data e) MSG_READY); simpl in *; try done;
               destruct pe; simpl; by rewrite ?Ho. }
           rewrite Hinit. destruct pe as [err|]; simpl; rewrite ?Hr, ?Hp, ?Hs; split_and!;
             try done; right; split_and!; try done; eexists; (split; [done|]);
             split_and!; try done.
           ++ right. right. exists e. split; [|done]. apply elem_of_app. right.
              apply list_elem_of_here.
           ++ exists e. split; [|done]. apply elem_of_app. right. apply list_elem_of_here.
        -- rewrite host_init_discards by (by rewrite Ho). split_and!; try done. by left.
      * unfold Host.expire. rewrite Ht. simpl. rewrite Hr, Hp, Hs. split_and!; try done.
        right. split_and!; try done. eexists. split; [done|]. split_and!; try done.
        right. left. split; [done|]. apply elem_of_app. right. apply list_elem_of_here.
    + assert (Hsame : Host.step st ev = st).
      { destruct ev as [e pe|]; simpl.
        - unfold Host.init. by rewrite Hl.
        - unfold Host.expire. by rewrite Ht. }
      rewrite Hsame. split_and!; try done. right. split_and!; try done.
      exists a. split; [done|]. destruct a as [api|err].
      * destruct Ha as (?&?&?&?&e&He&?). split_and!; try done. exists e. split; [|done].
        apply elem_of_app. by left.
      * destruct Ha as (?&?&[?|[[? ?]|(e&He&?)]]); split_and!; try done.
        -- by left.
        -- right. left. split; [done|]. apply elem_of_app. by left.
        -- right. right. exists e. split; [|done]. apply elem_of_app. by left.
Qed.

(** The promise of [host] is settled at most once, whatever arrives and
    whenever the timer expires; while it is pending the listener is
    subscribed and the 15000 ms timer armed, and once it is settled both are
    gone for good. *)
Theorem host_settles_at_most_once iframe o evs :
  let st := Host.run (Host.host iframe o) evs in
  (length (Host.results st) <= 1)%nat /\
  (Host.results st = [] <->
     Host.listening st = true /\ Host.timer st = Some 15000) /\
  (Host.results st <> [] <->
     Host.listening st = false /\ Host.timer st = None).
Proof.
  destruct (host_run_inv iframe o evs)
    as (_ & _ & [(Hr & Hl & Ht & _) | (Hl & Ht & a & Hr & _)]); simpl.
  - rewrite Hr, Hl, Ht. simpl. split_and!; [lia|done|]. split; [done|]. by intros [? _].
  - rewrite Hr, Hl, Ht. simpl. split_and!; [lia| |done]. split; [done|]. by intros [? _].
Qed.

(** The port goes to the frame at most once, addressed to the target origin
    given to [host], and only in answer to ["IBOX_READY"] from that origin
    (from anywhere if the target origin is ["*"]); [host] resolves exactly
    when the port has gone out, with a fresh interface on a started port. *)
Theorem host_port_goes_to_target_only iframe o evs :
  let st := Host.run (Host.host iframe o) evs in
  (Host.posted st = [] \/ Host.posted st = [(MSG_PORT, o)]) /\
  (Host.posted st <> [] <->
     Host.results st = [Handshake.Resolved (createInterface None)]) /\
  (Host.posted st <> [] ->
     Host.started st = true /\ iframe = Some true /\
     exists e, Host.Bus e None ∈ evs /\ Host.valid_ready o e = true).
Proof.
  destruct (host_run_inv iframe o evs)
    as (_ & _ & [(Hr & Hl & Ht & Hp & _) | (Hl & Ht & a & Hr & Ha)]); simpl.
  - rewrite Hp, Hr. split_and!; [by left| |done]. split; done.
  - rewrite Hr. destruct a as [api|err].
    + destruct Ha as (-> & Hif & Hp & Hs & e & He & Hv). rewrite Hp.
      split_and!; [by right|done|]. intros _. split_and!; [done|done|eauto].
    + destruct Ha as (Hp & ? & _). rewrite Hp. split_and!; [by left| |done]. split; done.
Qed.

Lemma host_settles_at_most_once_witness :
  let ready := {| Handshake.origin := "https://child.example";
                  Handshake.data := VStr "IBOX_READY"; Handshake.port0 := false |} in
  let st := Host.run (Host.host (Some true) (VStr "https://child.example"))
              [Host.Bus ready None; Host.Timeout; Host.Bus ready None] in
  (length (Host.results st) <= 1)%nat /\ Host.listening st = false.
Proof.
  intros ready st.
  destruct (host_settles_at_most_once (Some true) (VStr "https://child.example")
              [Host.Bus ready None; Host.Timeout; Host.Bus ready None]) as (H1 & _ & H2).
  split; [exact H1|]. apply H2. discriminate.
Defined.

Lemma host_port_goes_to_target_only_witness :
  let ready := {| Handshake.origin := "https://child.example";
                  Handshake.data := VStr "IBOX_READY"; Handshake.port0 := false |} in
  let st := Host.run (Host.host (Some true) (VStr "https://child.example"))
              [Host.Bus ready None; Host.Bus ready None] in
  Host.posted st = [(MSG_PORT, VStr "https://child.example")] /\
  Host.results st = [Handshake.Resolved (createInterface None)].
Proof.
  intros ready st.
  destruct (host_port_goes_to_target_only (Some true) (VStr "https://child.example")
              [Host.Bus ready None; Host.Bus ready None]) as ([H1|H1] & H2 & _).
  - discriminate H1.
  - split; [exact H1|]. apply H2. discriminate.
Defined.

(** [host] called without a target origin (or with one that is not a
    string) can never connect: every window message is discarded, the port
    is never posted, and the only way the promise ends is the timeout.  A
    falsy origin gets the warning about ["*"] all the same. *)
Theorem host_without_origin_never_connects o evs :
  is_string o = false ->
  let st := Host.run (Host.host (Some true) o) evs in
  Host.posted st = [] /\ Host.started st = false /\
  (Host.results st = [] \/
   Host.results st = [Handshake.Failed (VError "ibox: Host connection timeout")]) /\
  (truthy o = false -> Host.warnings st = [Handshake.insecure_warning]).
Proof.
  intros Ho.
  assert (Hnever : forall e, Host.valid_ready o e = false).
  { intros e. unfold Host.valid_ready. by destruct o. }
  destruct (host_run_inv (Some true) o evs)
    as (_ & Hw & [(Hr & Hl & Ht & Hp & Hs & _) | (Hl & Ht & a & Hr & Ha)]); cbv zeta.
  - rewrite Hp, Hs, Hr, Hw. split_and!; [done|done|by left|].
    intros Hf. unfold Handshake.warn. by rewrite Hf.
  - rewrite Hr, Hw. destruct a as [api|err].
    + destruct Ha as (_&_&_&_&e&_&Hv). by rewrite Hnever in Hv.
    + destruct Ha as (Hp & Hs & [[_ ?]|[[-> _]|(e&_&Hv)]]); [done| |by rewrite Hnever in Hv].
      rewrite Hp, Hs. split_and!; [done|done|by right|].
      intros Hf. unfold Handshake.warn. by rewrite Hf.
Qed.

Lemma host_without_origin_never_connects_witness :
  let ready := {| Handshake.origin := "https://child.example";
                  Handshake.data := VStr "IBOX_READY"; Handshake.port0 := false |} in
  let st := Host.run (Host.host (Some true) VUndefined) [Host.Bus ready None; Host.Timeout] in
  Host.posted st = [] /\ Host.warnings st = [Handshake.insecure_warning].
Proof.
  intros ready st.
  destruct (host_without_origin_never_connects VUndefined
              [Host.Bus ready None; Host.Timeout] eq_refl) as (H1 & _ & _ & H2).
  split; [exact H1 | exact (H2 eq_refl)].
Defined.

(** ** The client *)

Lemma client_getPort_discards st e :
  valid_port (Client.hostOrigin st) e = false -> Client.getPort e st = st.
Proof.
  unfold valid_port, Client.getPort, Handshake.isnt_str. intros H.
  destruct (Client.listening st); [|done]. simpl.
  destruct (Handshake.is_str (Client.hostOrigin st) "*"),
           (Handshake.is_str (Client.hostOrigin st) (Handshake.origin e)),
           (Handshake.is_str (Handshake.data e) MSG_PORT),
           (Handshake.port0 e); simpl in *; done.
Qed.

(** What holds of the promise executor of [client] after any sequence of
    interval runs, window messages and timer expiries. *)
Lemma client_run_inv o evs :
  let st := Client.run (Client.client o) evs in
  Client.hostOrigin st = o /\
  Forall (fun b => b = (MSG_READY, o)) (Client.broadcasts st) /\
  Z.of_nat (length (Client.broadcasts st)) <= 60 /\
  ((Client.results st = [] /\ Client.listening st = true /\
    Client.handshakeInterval st = Some 200 /\ Client.timer st = Some 15000 /\
    Z.of_nat (length (Client.broadcasts st)) <= Client.attempts st <= 60) \/
   (Client.listening st = false /\ Client.handshakeInterval st = None /\
    Client.timer st = None /\
    exists a, Client.results st = [a] /\
      match a with
      | Handshake.Resolved api =>
          api = createInterface None /\
          exists e, Client.Bus e ∈ evs /\ valid_port o e = true
      | Handshake.Failed err =>
          (err = VError "ibox: Handshake failed" /\ Client.attempts st = 61) \/
          (err = VError "ibox: Client connection timeout" /\ Client.Timeout ∈ evs)
      end)).
Proof.
  induction evs as [|ev evs IH] using rev_ind.
  - simpl. split_and!; [done|constructor|lia|]. left. split_and!; try done; simpl; lia.
  - unfold Client.run in *. rewrite foldl_app. simpl.
    set (st := foldl Client.step (Client.client o) evs) in *.
    destruct IH as (Ho & Hb & Hlen &
      [(Hr & Hl & Hi & Ht & Ha) | (Hl & Hi & Ht & a & Hr & Ha)]).
    + destruct ev as [pe|e|]; simpl.
      * unfold Client.tick. rewrite Hi. cbn [Client.attempts].
        destruct (Z.ltb_spec 60 (Client.attempts st + 1)) as [Hgt|Hle].
        -- simpl. rewrite Hr. split_and!; try done. right. split_and!; try done.
           eexists. split; [done|]. left. split; [done|]. lia.
        -- destruct pe as [err|]; simpl.
           ++ split_and!; try done. left. split_and!; try done; lia.
           ++ rewrite Ho, length_app. simpl. split_and!; try done.
              ** apply Forall_app. split; [done|]. by constructor.
              ** lia.
              ** left. split_and!; try done; lia.
      * destruct (valid_port o e) eqn:Hv.
        -- assert (Hget : Client.getPort e st =
             Client.settle (Handshake.Resolved (createInterface None)) (Client.cleanup st)).
           { unfold Client.getPort. rewrite Hl, Ho. simpl.
             unfold valid_port, Handshake.isnt_str in *.
             destruct (Handshake.is_str o "*"), (Handshake.is_str o (Handshake.origin e)),
               (Handshake.is_str (Handshake.data e) MSG_PORT), (Handshake.port0 e);
               simpl in *; done. }
           rewrite Hget. simpl. rewrite Hr. split_and!; try done. right.
           split_and!; try done. eexists. split; [done|]. split; [done|].
           exists e. split; [|done]. apply elem_of_app. right. apply list_elem_of_here.
        -- rewrite client_getPort_discards by (by rewrite Ho). split_and!; try done.
           by left.
      * unfold Client.expire. rewrite Ht. simpl. rewrite Hr. split_and!; try done.
        right. split_and!; try done. eexists. split; [done|]. right. split; [done|].
        apply elem_of_app. right. apply list_elem_of_here.
    + assert (Hsame : Client.step st ev = st).
      { destruct ev as [pe|e|]; simpl.
        - unfold Client.tick. by rewrite Hi.
        - unfold Client.getPort. by rewrite Hl.
        - unfold Client.expire. by rewrite Ht. }
      rewrite Hsame. split_and!; try done. right. split_and!; try done.
      exists a. split; [done|]. destruct a as [api|err].
      * destruct Ha as (? & e & He & ?). split; [done|]. exists e. split; [|done].
        apply elem_of_app. by left.
      * destruct Ha as [?|[? ?]]; [by left|]. right. split; [done|].
        apply elem_of_app. by left.
Qed.

(** The promise of [client] is settled at most once; while it is pending
    the listener, the interval and the timer are all in place, once it is
    settled all three are gone for good; and it is resolved only after a
    window message from the host origin (from anywhere if that is ["*"])
    that is ["IBOX_PORT"] and carries a port. *)
Theorem client_settles_at_most_once o evs :
  let st := Client.run (Client.client o) evs in
  (length (Client.results st) <= 1)%nat /\
  (Client.results st = [] <->
     Client.listening st = true /\ Client.handshakeInterval st = Some 200 /\
     Client.timer st = Some 15000) /\
  (Client.results st <> [] <->
     Client.listening st = false /\ Client.handshakeInterval st = None /\
     Client.timer st = None) /\
  (forall api, Handshake.Resolved api ∈ Client.results st ->
     api = createInterface None /\
     exists e, Client.Bus e ∈ evs /\ valid_port o e = true).
Proof.
  destruct (client_run_inv o evs)
    as (_ & _ & _ & [(Hr & Hl & Hi & Ht & _) | (Hl & Hi & Ht & a & Hr & Ha)]); simpl.
  - rewrite Hr, Hl, Hi, Ht. simpl. split_and!; [lia|done| |].
    + split; [done|]. by intros [? _].
    + intros api H. by apply elem_of_nil in H.
  - rewrite Hr, Hl, Hi, Ht. simpl. split_and!; [lia| |done|].
    + split; [done|]. by intros [? _].
    + intros api H. apply list_elem_of_singleton in H. subst a. done.
Qed.

Lemma client_settles_at_most_once_witness :
  let port := {| Handshake.origin := "https://parent.example";
                 Handshake.data := VStr "IBOX_PORT"; Handshake.port0 := true |} in
  let st := Client.run (Client.client (VStr "https://parent.example"))
              [Client.Tick None; Client.Bus port; Client.Timeout; Client.Tick None] in
  (length (Client.results st) <= 1)%nat /\ Client.handshakeInterval st = None.
Proof.
  intros port st.
  destruct (client_settles_at_most_once (VStr "https://parent.example")
              [Client.Tick None; Client.Bus port; Client.Timeout; Client.Tick None])
    as (H1 & _ & H2 & _).
  split; [exact H1|]. apply H2. discriminate.
Defined.

(** The client never broadcasts anything but ["IBOX_READY"], never to
    anyone but the host origin it was given, and never more than 60
    times, whatever happens. *)
Theorem client_broadcasts_are_bounded o evs :
  let st := Client.run (Client.client o) evs in
  (length (Client.broadcasts st) <= 60)%nat /\
  (forall b, b ∈ Client.broadcasts st -> b = (MSG_READY, o)) /\
  (Client.results st <> [] -> forall evs',
     Client.broadcasts (Client.run st evs') = Client.broadcasts st).
Proof.
  destruct (client_run_inv o evs)
    as (_ & Hb & Hlen & [(Hr & _) | (Hl & Hi & Ht & _)]); simpl.
  - split_and!; [lia|by apply Forall_forall|]. by rewrite Hr.
  - split_and!; [lia|by apply Forall_forall|]. intros _ evs'.
    by rewrite client_settled_is_final.
Qed.

Lemma client_broadcasts_are_bounded_witness :
  let st := Client.run (Client.client (VStr "https://parent.example"))
              (replicate 100 (Client.Tick None)) in
  (length (Client.broadcasts st) <= 60)%nat /\
  Client.broadcasts (Client.run st [Client.Tick None]) = Client.broadcasts st.
Proof.
  intros st.
  destruct (client_broadcasts_are_bounded (VStr "https://parent.example")
              (replicate 100 (Client.Tick None))) as (H1 & _ & H2).
  split; [exact H1|]. apply H2. vm_compute. discriminate.
Defined.

(** * Two interfaces talking *)

Lemma last_posted_snoc st msg l :
  outbox st = l ++ [msg] -> last_posted st = msg.
Proof. intros H. unfold last_posted. by rewrite H, last_snoc. Qed.

Lemma respond_error_invoked id err st :
  invoked (respond_error id err st) = invoked st.
Proof.
  unfold respond_error, postMessage. destruct (read err "message"); [|done].
  by destruct (cloneable _), (port_closed st).
Qed.

Lemma respond_invoked id s st : invoked (respond id s st) = invoked st.
Proof.
  destruct s; simpl; [|apply respond_error_invoked].
  unfold postMessage. destruct (cloneable _); [by destruct (port_closed st)|].
  apply respond_error_invoked.
Qed.

(** The call mode from the request to the post of the response, the
    listener going on as soon as the awaited value is there. *)
Lemma serve_then_resume beh id payload f rest st :
  port_closed st = false -> cloneable id = true ->
  let st2 := resume (length (awaiting st)) (serve beh id payload (f :: rest) st) in
  invoked st2 = invoked st ++ [(f, payload)] /\
  (forall v, beh f payload = Returns v \/ beh f payload = Fulfils v ->
     cloneable v = true -> outbox st2 = outbox st ++ [ok_envelope id v]) /\
  (forall err m, beh f payload = Throws err \/ beh f payload = Rejects err ->
     read err "message" = Normal m -> cloneable m = true ->
     outbox st2 = outbox st ++ [error_envelope id m]).
Proof.
  intros Hp Hid. simpl.
  set (st1 := set_invoked (invoked st ++ [(f, payload)]) st).
  assert (Hsusp : forall s,
    resume (length (awaiting st)) (set_awaiting (awaiting st ++ [(id, s)]) st1) =
    respond id s st1).
  { intros s. by rewrite (resume_last _ id s (awaiting st)). }
  assert (Hthrow : forall err,
    resume (length (awaiting st)) (respond_error id err st1) = respond_error id err st1).
  { intros err. unfold resume.
    assert (Ha : awaiting (respond_error id err st1) = awaiting st).
    { unfold respond_error, postMessage, st1. destruct (read err "message"); [|done].
      simpl. rewrite Hp. by destruct (cloneable id && _). }
    by rewrite Ha, lookup_ge_None_2. }
  split_and!.
  - destruct (beh f payload); rewrite ?Hsusp, ?Hthrow;
      by rewrite ?respond_invoked, ?respond_error_invoked.
  - intros v [Hb|Hb] Hv; rewrite Hb, Hsusp; by rewrite respond_fulfilled_sent.
  - intros err m [Hb|Hb] Hm Hc; rewrite Hb, ?Hsusp, ?Hthrow; simpl;
      by rewrite (respond_error_sent id err m).
Qed.

(** A call and its answer.  One interface calls an event for which its
    peer has handlers; the request it posts is delivered to the peer, the
    first handler is invoked with the payload of the call and the response
    is posted; that response is delivered back.  If the handler returned
    [v] (at once or through a promise), the promise of the call is
    fulfilled with [v]; if it threw or rejected with an error whose message
    is not empty, the promise is rejected with an error of that message.
    Either way the entry and the timer of the call are gone, and the table
    and the timers of the caller are as before the call. *)
Theorem call_round_trip a b beh beh' ev data timeout id a1 f rest :
  reachable a -> reachable b -> isDestroyed b = false ->
  call (VStr ev) data timeout a = (CallPromise id, a1) ->
  cloneable data = true ->
  handlers b !! ev = Some (f :: rest) ->
  let b2 := resume (length (awaiting b)) (onmessage beh (last_posted a1) b) in
  let a2 := onmessage beh' (last_posted b2) a1 in
  invoked b2 = invoked b ++ [(f, data)] /\
  (forall v, beh f data = Returns v \/ beh f data = Fulfils v ->
     cloneable v = true ->
     settled a2 = settled a ++ [(id, ByResponse, Fulfilled v)] /\
     pendingCalls a2 = pendingCalls a /\ timers a2 = timers a) /\
  (forall m, beh f data = Throws (VError m) \/ beh f data = Rejects (VError m) ->
     m <> ""%string ->
     settled a2 = settled a ++ [(id, ByResponse, Rejected (VError m))] /\
     pendingCalls a2 = pendingCalls a /\ timers a2 = timers a).
Proof.
  intros Hra Hrb Hdb Hcall Hdata Hh b2 a2.
  pose proof (inv_reachable _ Hra) as Hia. pose proof (inv_reachable _ Hrb) as Hib.
  destruct (call_sent _ _ _ _ _ _ Hia Hcall Hdata) as (Hda & Hid & Ha1).
  pose proof (inv_callId _ Hia) as H0.
  assert (Hreq : last_posted a1 = request_envelope (VStr ev) data id).
  { apply (last_posted_snoc _ _ (outbox a)). by rewrite Ha1. }
  assert (Hpb : port_closed b = false) by (by rewrite (inv_port _ Hib)).
  assert (Hb2 : b2 = resume (length (awaiting b))
                       (serve beh (VNum id) data (f :: rest) b)).
  { unfold b2. rewrite Hreq.
    rewrite (onmessage_event beh (request_envelope (VStr ev) data id) b ev (f :: rest)
               Hib Hdb eq_refl Hh eq_refl).
    simpl. by destruct (Z.eqb_spec id 0) as [?|_]; [lia|]. }
  destruct (serve_then_resume beh (VNum id) data f rest b Hpb eq_refl)
    as (Hinv & Hok & Herr). rewrite <- Hb2 in Hinv, Hok, Herr.
  assert (Hfresh : pendingCalls a !! id = None).
  { destruct (pendingCalls a !! id) as [w|] eqn:E; [|done].
    apply (inv_pending _ Hia) in E. lia. }
  assert (Htfresh : timers a !! id = None).
  { apply not_elem_of_dom. rewrite (inv_timers _ Hia). by apply not_elem_of_dom. }
  assert (Hda1 : isDestroyed a1 = false) by (by rewrite Ha1).
  assert (Hw : pendingCalls a1 !! id = Some {| w_promise := id; w_timer := id |}).
  { rewrite Ha1. simpl. apply lookup_insert_eq. }
  assert (Hany : forall resp, get resp "_ibox_res_id" = VNum id ->
    settled (onmessage beh' resp a1) = settled a ++
      [(id, ByResponse,
        if truthy (get resp "_ibox_error") then Rejected (new_Error (get resp "_ibox_error"))
        else Fulfilled (get resp "data"))] /\
    pendingCalls (onmessage beh' resp a1) = pendingCalls a /\
    timers (onmessage beh' resp a1) = timers a).
  { intros resp Hres.
    rewrite (onmessage_response beh' resp a1 id _ Hda1 Hres ltac:(lia) Hw).
    rewrite Ha1. destruct (truthy (get resp "_ibox_error")); simpl;
      by rewrite !delete_insert_eq, !delete_id. }
  split_and!; [done| |].
  - intros v Hv Hcv. specialize (Hok v Hv Hcv).
    assert (Hresp : last_posted b2 = ok_envelope (VNum id) v)
      by (by apply (last_posted_snoc _ _ (outbox b))).
    unfold a2. rewrite Hresp. apply (Hany (ok_envelope (VNum id) v) eq_refl).
  - intros m Hm Hne.
    specialize (Herr (VError m) (VStr m) Hm eq_refl eq_refl).
    assert (Hresp : last_posted b2 = error_envelope (VNum id) (VStr m))
      by (by apply (last_posted_snoc _ _ (outbox b))).
    unfold a2. rewrite Hresp.
    destruct (Hany (error_envelope (VNum id) (VStr m)) eq_refl) as (Hs & ? & ?).
    split_and!; [|done|done]. rewrite Hs. simpl.
    by destruct (String.eqb_spec m "").
Qed.

Lemma call_round_trip_witness :
  let r := call (VStr "get") (VNum 123) None (createInterface None) in
  let b2 := resume 0 (onmessage first_fulfils (last_posted r.2) two_handlers) in
  let a2 := onmessage first_fulfils (last_posted b2) r.2 in
  settled a2 = [(1, ByResponse, Fulfilled (VStr "alice"))] /\ pendingCalls a2 = ∅.
Proof.
  intros r b2 a2.
  assert (Hra : reachable (createInterface None)) by (by exists []).
  assert (Hrb : reachable two_handlers).
  { exists [On (VStr "get") (VFun 7); On (VStr "get") (VFun 8)]. reflexivity. }
  destruct (call_round_trip (createInterface None) two_handlers first_fulfils first_fulfils
              "get" (VNum 123) None 1 r.2 7%nat [8%nat] Hra Hrb eq_refl eq_refl eq_refl eq_refl)
    as (_ & H & _).
  destruct (H (VStr "alice") (or_intror eq_refl) eq_refl) as (H1 & H2 & _).
  split; [exact H1 | exact H2].
Defined.

(** An event and its handlers.  [emit] with a good name and a payload that
    can be cloned posts one envelope with the name and the payload as
    given and changes nothing else; delivered to the peer, it makes every
    handler the peer has for that name run once with exactly that payload,
    in registration order, and nothing comes back.  With a payload that
    cannot be cloned [emit] throws what [postMessage] threw and nothing is
    posted. *)
Theorem emit_reaches_every_handler a b beh ev data callbacks :
  reachable a -> isDestroyed a = false ->
  reachable b -> isDestroyed b = false ->
  valid_event_name (VStr ev) = true ->
  handlers b !! ev = Some callbacks ->
  let r := emit (VStr ev) data a in
  if cloneable data then
    let b1 := onmessage beh (last_posted r.2) b in
    r.1 = Normal () /\
    outbox r.2 = outbox a ++ [event_envelope (VStr ev) data] /\ same_core a r.2 /\
    invoked b1 = invoked b ++ ((fun cb => (cb, data)) <$> callbacks) /\
    outbox b1 = outbox b /\ awaiting b1 = awaiting b
  else r = (Abrupt DataCloneError, a).
Proof.
  intros Hra Hda Hrb Hdb Hok Hh r.
  pose proof (inv_reachable _ Hra) as Hia. pose proof (inv_reachable _ Hrb) as Hib.
  apply validateEvent_valid in Hok as (s & [= <-] & Hv).
  assert (Hpa : port_closed a = false) by (by rewrite (inv_port _ Hia)).
  destruct (cloneable data) eqn:Hc.
  - assert (Hr : r = (Normal (), set_outbox (outbox a ++ [event_envelope (VStr ev) data]) a)).
    { unfold r, emit. rewrite Hda, Hv. rewrite postMessage_open; [done|done|].
      simpl. by rewrite Hc. }
    rewrite Hr. simpl.
    rewrite (last_posted_snoc _ (event_envelope (VStr ev) data) (outbox a)) by done.
    rewrite (onmessage_event beh (event_envelope (VStr ev) data) b ev callbacks
               Hib Hdb eq_refl Hh eq_refl). simpl.
    destruct (notify_all beh (VStr ev) data callbacks b) as (H1 & _ & H3 & H4).
    split_and!; try done.
  - unfold r, emit. rewrite Hda, Hv. rewrite postMessage_Abrupt; [done|].
    simpl. by rewrite Hc.
Qed.

Lemma emit_reaches_every_handler_witness :
  let r := emit (VStr "get") (VNum 123) (createInterface None) in
  invoked (onmessage first_throws (last_posted r.2) two_handlers) =
    [(7%nat, VNum 123); (8%nat, VNum 123)].
Proof.
  intros r.
  assert (Hra : reachable (createInterface None)) by (by exists []).
  assert (Hrb : reachable two_handlers).
  { exists [On (VStr "get") (VFun 7); On (VStr "get") (VFun 8)]. reflexivity. }
  exact (proj1 (proj2 (proj2 (proj2
    (emit_reaches_every_handler (createInterface None) two_handlers first_throws "get"
       (VNum 123) [7%nat; 8%nat] Hra eq_refl Hrb eq_refl eq_refl eq_refl))))).
Defined.

(** A request nobody serves gets no answer.  When the peer has no handler
    for the event of a call, or has been destroyed, the delivery of the
    request leaves the peer exactly as it was: no error response is posted.
    The call then waits for its timer, whose expiry rejects it with the
    message that names the event and the timeout. *)
Theorem unserved_request_gets_no_answer a b beh ev data timeout id a1 :
  reachable a ->
  call (VStr ev) data timeout a = (CallPromise id, a1) ->
  cloneable data = true ->
  handlers b !! ev = None \/ isDestroyed b = true ->
  onmessage beh (last_posted a1) b = b /\
  settled (fire id a1) = settled a ++
    [(id, ByTimeout,
      Rejected (VError ("ibox: Timeout [" +:+ ev +:+ "] after " +:+
                        pretty (default DEFAULT_TIMEOUT timeout) +:+ "ms")))] /\
  pendingCalls (fire id a1) = pendingCalls a.
Proof.
  intros Hra Hcall Hdata Hb. pose proof (inv_reachable _ Hra) as Hia.
  destruct (call_sent _ _ _ _ _ _ Hia Hcall Hdata) as (Hda & Hid & Ha1).
  assert (Hreq : last_posted a1 = request_envelope (VStr ev) data id).
  { apply (last_posted_snoc _ _ (outbox a)). by rewrite Ha1. }
  assert (Hfresh : pendingCalls a !! id = None).
  { destruct (pendingCalls a !! id) as [w|] eqn:E; [|done].
    apply (inv_pending _ Hia) in E. lia. }
  split_and!.
  - rewrite Hreq. unfold onmessage. destruct (isDestroyed b) eqn:Hdb; [done|].
    destruct Hb as [Hb|?]; [|done]. simpl.
    destruct (negb (String.eqb ev "")); [|done]. by rewrite Hb.
  - rewrite (fire_pending a1 id
               {| t_call := id; t_event := VStr ev; t_delay := default DEFAULT_TIMEOUT timeout |}
               {| w_promise := id; w_timer := id |});
      rewrite ?Ha1; simpl; try done; apply lookup_insert_eq.
  - rewrite (fire_pending a1 id
               {| t_call := id; t_event := VStr ev; t_delay := default DEFAULT_TIMEOUT timeout |}
               {| w_promise := id; w_timer := id |});
      rewrite ?Ha1; simpl; try apply lookup_insert_eq; try done.
    by rewrite delete_insert_eq, delete_id.
Qed.

Lemma unserved_request_gets_no_answer_witness :
  let r := call (VStr "ping") (VNum 1) (Some 50) (createInterface None) in
  onmessage first_fulfils (last_posted r.2) two_handlers = two_handlers /\
  settled (fire 1 r.2) =
    [(1, ByTimeout, Rejected (VError "ibox: Timeout [ping] after 50ms"))].
Proof.
  intros r.
  assert (Hra : reachable (createInterface None)) by (by exists []).
  destruct (unserved_request_gets_no_answer (createInterface None) two_handlers first_fulfils
              "ping" (VNum 1) (Some 50) 1 r.2 Hra eq_refl eq_refl (or_introl eq_refl))
    as (H1 & H2 & _).
  split; [exact H1 | exact H2].
Defined.

(** * Further properties of the older variant *)

(** ** Its dispatcher *)

Lemma legacy_loop_spec beh e_data pre rest st :
  port_closed st = false ->
  cloneable (get e_data "_ibox_id") = true ->
  Forall (fun cb => succeeds (beh cb (get e_data "data")) = true /\
                    cloneable (returned (beh cb (get e_data "data"))) = true) pre ->
  (rest = [] \/ exists cb rest', rest = cb :: rest' /\
                                 succeeds (beh cb (get e_data "data")) = false) ->
  let st' := Legacy.loop beh e_data (pre ++ rest) st in
  invoked st' = invoked st ++ ((fun cb => (cb, get e_data "data")) <$> (pre ++ take 1 rest)) /\
  outbox st' = outbox st ++
    (if truthy (get e_data "_ibox_id")
     then (fun cb => ok_envelope (get e_data "_ibox_id")
                       (returned (beh cb (get e_data "data")))) <$> pre
     else []) /\
  port_closed st' = false /\ same_core st st'.
Proof.
  intros Hp Hid Hpre Hrest. revert st Hp.
  induction Hpre as [|cb pre [Hs Hc] _ IH]; intros st Hp.
  - simpl. destruct Hrest as [->|(cb & rest' & -> & Hf)].
    + simpl. rewrite !app_nil_r. split_and!; try done.
      by destruct (truthy _); rewrite app_nil_r.
    + simpl. destruct (beh cb (get e_data "data")); try done; simpl;
        (split_and!; [done| |done|done]); by destruct (truthy _); rewrite app_nil_r.
  - rewrite <- app_comm_cons. cbn [Legacy.loop].
    set (st1 := set_invoked (invoked st ++ [(cb, get e_data "data")]) st).
    assert (Hstep : match beh cb (get e_data "data") with
                    | Returns result | Fulfils result =>
                        if truthy (get e_data "_ibox_id")
                        then match postMessage
                                     (VObj [("_ibox_res_id", get e_data "_ibox_id");
                                            ("data", result)]) st1 with
                             | Normal st2 => Legacy.loop beh e_data (pre ++ rest) st2
                             | Abrupt _ => st1
                             end
                        else Legacy.loop beh e_data (pre ++ rest) st1
                    | Throws _ | Rejects _ => st1
                    end =
                    Legacy.loop beh e_data (pre ++ rest)
                      (if truthy (get e_data "_ibox_id")
                       then set_outbox
                              (outbox st1 ++
                               [ok_envelope (get e_data "_ibox_id")
                                  (returned (beh cb (get e_data "data")))]) st1
                       else st1)).
    { destruct (beh cb (get e_data "data")) as [v|e|v|e]; try done; simpl in Hc;
        (destruct (truthy (get e_data "_ibox_id")); [|done]);
        rewrite postMessage_open; try done; simpl; by rewrite Hid, Hc. }
    rewrite Hstep. clear Hstep.
    destruct (truthy (get e_data "_ibox_id")) eqn:Ht.
    + destruct (IH (set_outbox (outbox st1 ++
                      [ok_envelope (get e_data "_ibox_id")
                         (returned (beh cb (get e_data "data")))]) st1) Hp)
        as (Hi & Ho & Hp' & Hcore).
      rewrite Hi, Ho. unfold st1. cbn -[fmap take app].
      rewrite <- !app_comm_cons, !fmap_cons, <- !app_assoc. by split_and!.
    + destruct (IH st1 Hp) as (Hi & Ho & Hp' & Hcore).
      rewrite Hi, Ho. unfold st1. cbn -[fmap take app].
      rewrite <- !app_comm_cons, !fmap_cons, <- !app_assoc. by split_and!.
Qed.

Lemma legacy_loop_console beh e_data l st :
  console (Legacy.loop beh e_data l st) = console st.
Proof.
  revert st. induction l as [|cb l IH]; intros st; [done|].
  cbn [Legacy.loop]. destruct (beh cb (get e_data "data")); try done.
  all: destruct (truthy (get e_data "_ibox_id")); [|by rewrite IH].
  all: unfold postMessage; destruct (cloneable _); [|done].
  all: destruct (port_closed _); by rewrite IH.
Qed.

(** In the older variant every handler of an event serves a request, in
    registration order, and each one that succeeds is answered with an
    envelope of its own under the same id; the first handler that throws
    or rejects ends the run of the listener: it gets no answer, not even
    an error, and the handlers after it are not invoked. *)
Theorem legacy_request_served_by_all beh e_data ev pre rest st :
  port_closed st = false ->
  cloneable e_data = true ->
  get e_data "event" = VStr ev -> ev <> ""%string ->
  handlers st !! ev = Some (pre ++ rest) ->
  answers_pending e_data st = false ->
  truthy (get e_data "_ibox_id") = true ->
  Forall (fun cb => succeeds (beh cb (get e_data "data")) = true /\
                    cloneable (returned (beh cb (get e_data "data"))) = true) pre ->
  (rest = [] \/ exists cb rest', rest = cb :: rest' /\
                                 succeeds (beh cb (get e_data "data")) = false) ->
  let st' := Legacy.messageListener beh e_data st in
  invoked st' = invoked st ++ ((fun cb => (cb, get e_data "data")) <$> (pre ++ take 1 rest)) /\
  outbox st' = outbox st ++
    ((fun cb => ok_envelope (get e_data "_ibox_id")
                  (returned (beh cb (get e_data "data")))) <$> pre) /\
  console st' = console st.
Proof.
  intros Hp Hc Hev Hne Hh Hno Hid Hpre Hrest st'.
  assert (Hst' : st' = Legacy.loop beh e_data (pre ++ rest) st).
  { unfold st', Legacy.messageListener.
    rewrite (get_VStr_truthy _ _ _ Hev), (answers_pending_false _ _ Hno), Hev. simpl.
    destruct (String.eqb_spec ev "") as [?|_]; [done|]. simpl. by rewrite Hh. }
  destruct (legacy_loop_spec beh e_data pre rest st Hp (cloneable_get _ _ Hc) Hpre Hrest)
    as (Hi & Ho & _ & Hcore).
  rewrite Hst', Hi, Ho, Hid. split_and!; try done. apply legacy_loop_console.
Qed.

Lemma legacy_request_served_by_all_witness :
  let st := Legacy.messageListener first_fulfils get_request two_handlers in
  outbox st = [ok_envelope (VNum 5) (VStr "alice"); ok_envelope (VNum 5) VNull].
Proof.
  intros st.
  assert (Hpre : Forall (fun cb => succeeds (first_fulfils cb (get get_request "data")) = true /\
             cloneable (returned (first_fulfils cb (get get_request "data"))) = true)
            [7%nat; 8%nat]) by (repeat constructor).
  exact (proj1 (proj2 (legacy_request_served_by_all first_fulfils get_request "get"
           [7%nat; 8%nat] [] two_handlers eq_refl eq_refl eq_refl ltac:(discriminate)
           eq_refl eq_refl eq_refl Hpre (or_introl eq_refl)))).
Defined.

(** ** Its calls *)

(** In the older variant [destroy()] forgets the pending calls without
    settling them and without clearing their timers: a call pending at
    that moment can no longer be answered (a response changes nothing),
    and its promise stays pending until its own timer rejects it with the
    timeout message. *)
Theorem legacy_destroyed_call_ends_by_timeout st beh event data timeout result :
  let r := Legacy.call event data timeout st in
  let id := callId st + 1 in
  let d := Legacy.destroy r.2 in
  r.1 = CallPromise id /\
  pendingCalls d = ∅ /\ settled d = settled r.2 /\ port_closed d = true /\
  Legacy.messageListener beh (ok_envelope (VNum id) result) d = d /\
  settled (Legacy.fire id d) = settled r.2 ++
    [(id, ByTimeout, Rejected (VError (Legacy.timeout_message event)))].
Proof.
  intros r id d.
  assert (Ht : timers r.2 !! id =
    Some {| t_call := id; t_event := event; t_delay := default 5000 timeout |}).
  { unfold r, Legacy.call. fold id.
    destruct (postMessage _ _) as [st4|e] eqn:E; simpl.
    - apply postMessage_same_core in E as (_&_&_&_&_&Hti&_). rewrite Hti. simpl.
      apply lookup_insert_eq.
    - apply lookup_insert_eq. }
  split_and!; try done.
  - unfold r, Legacy.call. by destruct (postMessage _ _).
  - unfold Legacy.messageListener. simpl.
    destruct (negb (id =? 0)); by rewrite ?lookup_empty.
  - unfold Legacy.fire, d. simpl. by rewrite Ht.
Qed.

(** In the older variant a request that cannot be cloned rejects the
    promise of the call with what [postMessage] threw, but the entry and
    the timer of the call stay; when the timer expires it removes the
    entry and invokes [reject] a second time. *)
Theorem legacy_failed_send_leaves_entry st event data timeout :
  cloneable data = false ->
  let r := Legacy.call event data timeout st in
  let id := callId st + 1 in
  r.1 = CallPromise id /\ outbox r.2 = outbox st /\
  pendingCalls r.2 !! id = Some {| w_promise := id; w_timer := id |} /\
  is_Some (timers r.2 !! id) /\
  settled r.2 = settled st ++ [(id, BySendFailure, Rejected DataCloneError)] /\
  settled (Legacy.fire id r.2) = settled st ++
    [(id, BySendFailure, Rejected DataCloneError);
     (id, ByTimeout, Rejected (VError (Legacy.timeout_message event)))] /\
  pendingCalls (Legacy.fire id r.2) = delete id (pendingCalls st).
Proof.
  intros Hdata r id.
  assert (Hr : r = (CallPromise id,
    settle id BySendFailure (Rejected DataCloneError)
      (set_pendingCalls (<[id := {| w_promise := id; w_timer := id |}]> (pendingCalls st))
         (set_timers (<[id := {| t_call := id; t_event := event;
                                 t_delay := default 5000 timeout |}]> (timers st))
            (set_callId id st))))).
  { unfold r, Legacy.call. fold id. rewrite postMessage_Abrupt; [done|].
    simpl. rewrite Hdata. simpl. apply andb_false_r. }
  rewrite Hr. simpl. split_and!; try done.
  - apply lookup_insert_eq.
  - rewrite lookup_insert_eq. eauto.
  - unfold Legacy.fire. simpl. rewrite lookup_insert_eq. simpl.
    by rewrite <- app_assoc.
  - unfold Legacy.fire. simpl. rewrite lookup_insert_eq. simpl.
    by rewrite delete_insert_eq.
Qed.

Lemma legacy_failed_send_leaves_entry_witness :
  let r := Legacy.call (VStr "ping") (VFun 0) None (createInterface None) in
  is_Some (timers r.2 !! 1) /\
  settled r.2 = [(1, BySendFailure, Rejected DataCloneError)].
Proof.
  intros r.
  destruct (legacy_failed_send_leaves_entry (createInterface None) (VStr "ping") (VFun 0)
              None eq_refl) as (_ & _ & _ & H1 & H2 & _).
  split; [exact H1 | exact H2].
Defined.

Lemma legacy_calls_inv event data timeout n :
  cloneable event = true -> cloneable data = true ->
  let st := legacy_calls event data timeout n (createInterface None) in
  size (pendingCalls st) = n /\ callId st = Z.of_nat n /\
  length (outbox st) = n /\ port_closed st = false /\
  (forall k, is_Some (pendingCalls st !! k) -> k <= callId st) /\
  settled st = [].
Proof.
  intros He Hd. induction n as [|n IH].
  - simpl. split_and!; try done. intros k [w Hw]. by rewrite lookup_empty in Hw.
  - unfold legacy_calls in *. rewrite Nat.iter_succ.
    set (st := Nat.iter n _ _) in *. cbv zeta in IH.
    destruct IH as (Hsz & Hc & Ho & Hp & Hk & Hs).
    assert (Hfresh : pendingCalls st !! (callId st + 1) = None).
    { destruct (pendingCalls st !! (callId st + 1)) as [w|] eqn:E; [|done].
      specialize (Hk (callId st + 1) ltac:(eauto)). lia. }
    unfold Legacy.call. rewrite postMessage_open; [|done|simpl; by rewrite He, Hd].
    simpl. rewrite length_app, map_size_insert_None by done. simpl.
    split_and!; try done; try lia.
    intros k. destruct (decide (callId st + 1 = k)) as [<-|Hne]; [lia|].
    rewrite lookup_insert_ne by done. intros H. specialize (Hk k H). lia.
Qed.

(** The pending table of the older variant has no bound: [n] calls in a
    row are all accepted, all posted and all pending, for every [n]. *)
Theorem legacy_table_grows_without_bound event data timeout n :
  cloneable event = true -> cloneable data = true ->
  let st := legacy_calls event data timeout n (createInterface None) in
  size (pendingCalls st) = n /\ length (outbox st) = n /\ settled st = [] /\
  (Legacy.call event data timeout st).1 = CallPromise (Z.of_nat n + 1).
Proof.
  intros He Hd st.
  destruct (legacy_calls_inv event data timeout n He Hd) as (Hsz & Hc & Ho & _ & _ & Hs).
  fold st in Hsz, Hc, Ho, Hs. split_and!; try done.
  unfold Legacy.call. rewrite Hc. by destruct (postMessage _ _).
Qed.

Lemma legacy_table_grows_without_bound_witness :
  size (pendingCalls (legacy_calls (VStr "ping") VNull None 1001 (createInterface None))) =
    1001%nat.
Proof.
  exact (proj1 (legacy_table_grows_without_bound (VStr "ping") VNull None 1001 eq_refl eq_refl)).
Defined.

(** ** Its client *)

Lemma legacy_ticks_spec (errors : list (option value)) st p :
  Client.handshakeInterval st = Some p ->
  Client.attempts st + Z.of_nat (length errors) <= 50 ->
  legacy_ticks st errors =
    {| Client.hostOrigin := Client.hostOrigin st;
       Client.attempts := Client.attempts st + Z.of_nat (length errors);
       Client.handshakeInterval := Some p;
       Client.timer := Client.timer st;
       Client.listening := Client.listening st;
       Client.results := Client.results st;
       Client.broadcasts :=
         Client.broadcasts st ++
           ((fun _ => (MSG_READY, Client.hostOrigin st)) <$> filter (fun e => e = None) errors);
       Client.warnings := Client.warnings st |}.
Proof.
  revert st. induction errors as [|e es IH]; intros st Hp Hle.
  - simpl. rewrite Z.add_0_r. cbn [filter list_filter fmap list_fmap].
    rewrite app_nil_r. by destruct st; simpl in *; subst.
  - unfold legacy_ticks in *. cbn [foldl].
    assert (Hlen : Z.of_nat (length (e :: es)) = 1 + Z.of_nat (length es))
      by (simpl length; lia).
    rewrite Hlen in Hle.
    assert (Htick : (Legacy.tick e st).2 =
      {| Client.hostOrigin := Client.hostOrigin st;
         Client.attempts := Client.attempts st + 1;
         Client.handshakeInterval := Some p;
         Client.timer := Client.timer st;
         Client.listening := Client.listening st;
         Client.results := Client.results st;
         Client.broadcasts :=
           match e with
           | Some _ => Client.broadcasts st
           | None => Client.broadcasts st ++ [(MSG_READY, Client.hostOrigin st)]
           end;
         Client.warnings := Client.warnings st |}).
    { unfold Legacy.tick, Legacy.MAX_ATTEMPTS. rewrite Hp. cbn [Client.attempts].
      destruct (Z.ltb_spec 50 (Client.attempts st + 1)) as [?|_]; [lia|].
      by destruct e. }
    rewrite Htick. rewrite IH; [|done|simpl; lia].
    cbn [Client.hostOrigin Client.attempts Client.timer Client.listening
         Client.results Client.broadcasts Client.warnings].
    f_equal; [lia|]. destruct e.
    + rewrite filter_cons_False by done. done.
    + rewrite filter_cons_True by done. by rewrite fmap_cons, <- app_assoc.
Qed.

(** The older client gives up sooner and guards nothing.  Its interval has
    a period of 100 ms and there is no overall timer; a broadcast that
    throws leaves the callback of the interval with that exception, though
    the attempt is counted; after 50 runs the promise is still pending, and
    the 51st run rejects it with ["ibox: Connection timeout"], stops the
    interval and removes the listener.  Without a host origin it
    broadcasts to ["*"]. *)
Theorem legacy_client_gives_up_after_50 o (errors : list (option value)) :
  length errors = 50%nat ->
  let st0 := Legacy.client o in
  let st50 := legacy_ticks st0 errors in
  Client.handshakeInterval st0 = Some 100 /\ Client.timer st0 = None /\
  Client.hostOrigin st0 = (if truthy o then o else VStr "*") /\
  (forall err st p, Client.handshakeInterval st = Some p -> Client.attempts st < 50 ->
     (Legacy.tick (Some err) st).1 = Abrupt err) /\
  Client.results st50 = [] /\ Client.attempts st50 = 50 /\
  Client.handshakeInterval st50 = Some 100 /\ Client.listening st50 = true /\
  Client.broadcasts st50 =
    ((fun _ => (MSG_READY, Client.hostOrigin st0)) <$> filter (fun e => e = None) errors) /\
  (forall post_error,
     let st51 := (Legacy.tick post_error st50).2 in
     (Legacy.tick post_error st50).1 = Normal () /\
     Client.results st51 = [Handshake.Failed (VError "ibox: Connection timeout")] /\
     Client.handshakeInterval st51 = None /\ Client.listening st51 = false /\
     Client.broadcasts st51 = Client.broadcasts st50).
Proof.
  intros Hlen st0 st50.
  assert (H50 : st50 = _) by (apply (legacy_ticks_spec errors st0 100); [done|simpl; lia]).
  rewrite Hlen in H50. simpl in H50.
  split_and!; try (by rewrite H50); try done.
  intros err st p Hp Hlt. unfold Legacy.tick, Legacy.MAX_ATTEMPTS. rewrite Hp.
  cbn [Client.attempts].
  by destruct (Z.ltb_spec 50 (Client.attempts st + 1)) as [?|_]; [lia|].
Qed.

Lemma legacy_client_gives_up_after_50_witness :
  let errors := replicate 20 (Some TypeError) ++ replicate 30 None in
  let st50 := legacy_ticks (Legacy.client VUndefined) errors in
  length (Client.broadcasts st50) = 30%nat /\
  Client.results (Legacy.tick None st50).2 =
    [Handshake.Failed (VError "ibox: Connection timeout")].
Proof.
  intros errors st50.
  destruct (legacy_client_gives_up_after_50 VUndefined errors eq_refl)
    as (_ & _ & _ & _ & _ & _ & _ & _ & H1 & H2).
  split; [exact (f_equal length H1) | exact (proj1 (proj2 (H2 None)))].
Defined.

(** * A failure without a message *)

(** A handler that serves a request and throws or rejects with [undefined]
    or [null] gets no response posted at all: reading [err.message] throws
    inside the [catch] block of the listener.  The handler has been
    invoked, no later handler is, and the caller is left to its timer. *)
Theorem failure_without_message_gets_no_answer st beh e_data ev firstHandler others err :
  reachable st -> isDestroyed st = false ->
  get e_data "event" = VStr ev ->
  handlers st !! ev = Some (firstHandler :: others) ->
  truthy (get e_data "_ibox_id") = true ->
  answers_pending e_data st = false ->
  beh firstHandler (get e_data "data") = Throws err \/
  beh firstHandler (get e_data "data") = Rejects err ->
  err = VUndefined \/ err = VNull ->
  let st2 := resume (length (awaiting st)) (onmessage beh e_data st) in
  outbox st2 = outbox st /\ awaiting st2 = awaiting st /\
  invoked st2 = invoked st ++ [(firstHandler, get e_data "data")].
Proof.
  intros Hr Hd Hev Hh Hid Hno Hb Herr st2.
  pose proof (inv_reachable _ Hr) as Hi.
  assert (Hread : forall s, respond_error (get e_data "_ibox_id") err s = s).
  { intros s. unfold respond_error. by destruct Herr as [-> | ->]. }
  unfold st2. rewrite (onmessage_event beh e_data st ev _ Hi Hd Hev Hh Hno), Hid.
  simpl. destruct Hb as [Hb|Hb]; rewrite Hb.
  - rewrite Hread. unfold resume. simpl. by rewrite lookup_ge_None_2.
  - rewrite (resume_last _ (get e_data "_ibox_id") (Rejected err) (awaiting st)) by done.
    simpl. by rewrite Hread.
Qed.

Lemma failure_without_message_gets_no_answer_witness :
  let st2 := resume 0 (onmessage first_rejects_undefined get_request two_handlers) in
  outbox st2 = [] /\ invoked st2 = [(7%nat, VNum 123)].
Proof.
  intros st2.
  assert (Hr : reachable two_handlers).
  { exists [On (VStr "get") (VFun 7); On (VStr "get") (VFun 8)]. reflexivity. }
  destruct (failure_without_message_gets_no_answer two_handlers first_rejects_undefined
              get_request "get" 7%nat [8%nat] VUndefined Hr eq_refl eq_refl eq_refl eq_refl
              eq_refl (or_intror eq_refl) (or_introl eq_refl)) as (H1 & _ & H2).
  split; [exact H1 | exact H2].
Defined.

Lemma legacy_destroyed_call_ends_by_timeout_witness :
  let r := Legacy.call (VStr "ping") VNull None (createInterface None) in
  settled (Legacy.fire 1 (Legacy.destroy r.2)) =
    [(1, ByTimeout, Rejected (VError (Legacy.timeout_message (VStr "ping"))))].
Proof.
  exact (proj2 (proj2 (proj2 (proj2 (proj2
    (legacy_destroyed_call_ends_by_timeout (createInterface None) first_fulfils
       (VStr "ping") VNull None VNull)))))).
Defined.
